(** * Asn1Container: a shallow embedding of pycrate_asn1rt/asn1fuzz.py

    The Python class [Asn1Container] is a tree of typed, optionally
    constrained nodes.  Its methods [fuzz], [expand_once] and
    [remove_expandable] mutate the tree in place; here every method takes the
    node and returns the node as it is after the call.  Python exceptions are
    explicit outcomes, and the module-level [random] generator is an explicit
    tape of draws that is threaded through every call. *)

From Stdlib Require Import List ZArith String Ascii Bool Lia Arith.
Import ListNotations.
Open Scope string_scope.
Open Scope list_scope.
Open Scope Z_scope.

Set Implicit Arguments.
Set Warnings "-register-all".

(** ** Python values, exceptions and outcomes *)

Inductive PyExc : Type :=
| ValueError
| IndexError
| TypeError
| AttributeError
| KeyError
| OverflowError.

(** What a call produces: a value, a raised exception, or (only for the
    fuel-indexed model of [fuzz]) exhaustion of the recursion budget. *)
Inductive Outcome (A : Type) : Type :=
| Ok (a : A)
| Raise (e : PyExc)
| OutOfFuel.

Arguments Ok {A} a.
Arguments Raise {A} e.
Arguments OutOfFuel {A}.

(** The values [fuzz] returns: [None], ints, bools, str, bytes, tuples,
    dicts (insertion ordered, string keys) and lists. *)
Inductive Value : Type :=
| VNone
| VInt (z : Z)
| VBool (b : bool)
| VStr (s : string)
| VBytes (bs : list Byte.byte)
| VTuple (vs : list Value)
| VDict (kvs : list (string * Value))
| VList (vs : list Value).

(** A Python int-or-None, as found in the entries of [range]. *)
Definition PyInt := option Z.

Definition is_none (v : Value) : bool :=
  match v with VNone => true | _ => false end.

Definition pyint_value (x : PyInt) : Value :=
  match x with Some z => VInt z | None => VNone end.

Definition pyint_eqb (x y : PyInt) : bool :=
  match x, y with
  | Some a, Some b => a =? b
  | None, None => true
  | _, _ => false
  end.

(** ** The tree of containers *)

(** [ident_history]: the dict the schema layer threads through [get_proto];
    its contents are owned by the schema layer. *)
Definition IdentHistory := list (string * nat).

(** The attribute [nested] holds, depending on the kind of the node: nothing,
    a dict of named children, a single child (SEQUENCE OF), a list of labels
    (ENUMERATED, named bits of a BIT STRING), or, for an EXPANDABLE node, the
    schema object whose [get_proto] builds the subtree. *)
Inductive Nested (A : Type) : Type :=
| NNone
| NDict (items : list (string * A))
| NNode (child : A)
| NLabels (labels : list string)
| NFactory (get_proto : IdentHistory -> A * IdentHistory).

Arguments NNone {A}.
Arguments NDict {A} items.
Arguments NNode {A} child.
Arguments NLabels {A} labels.
Arguments NFactory {A} get_proto.

Inductive Asn1Container : Type :=
  mkContainer {
      unique_ident : string;
      asn1_type : string;
      optional : bool;
      nested : Nested Asn1Container;
      range : option (list PyInt);
      sequence_member_count : Z;
      fully_covered : bool
    }.

(** [Asn1Container.__init__]: the coverage flag starts false. *)
Definition new_container (ident type : string) (opt : bool)
  (n : Nested Asn1Container) (r : option (list PyInt)) : Asn1Container :=
  mkContainer ident type opt n r 1 false.

Definition set_fully_covered (b : bool) (c : Asn1Container) : Asn1Container :=
  mkContainer (unique_ident c) (asn1_type c) (optional c) (nested c) (range c)
    (sequence_member_count c) b.

Definition set_range (r : option (list PyInt)) (c : Asn1Container) : Asn1Container :=
  mkContainer (unique_ident c) (asn1_type c) (optional c) (nested c) r
    (sequence_member_count c) (fully_covered c).

Definition set_nested (n : Nested Asn1Container) (c : Asn1Container) : Asn1Container :=
  mkContainer (unique_ident c) (asn1_type c) (optional c) n (range c)
    (sequence_member_count c) (fully_covered c).

(** [reset_coverage]: clears the flag of this node only. *)
Definition reset_coverage (c : Asn1Container) : Asn1Container :=
  set_fully_covered false c.

(** The [match self.asn1_type] dispatch of [fuzz]. *)
Inductive Kind : Type :=
| KInteger | KEnumerated | KBoolean | KOctetString | KBitString
| KCharString | KNumericString | KNull | KExpandable
| KSequence | KChoice | KSequenceOf | KOther.

Definition classify (t : string) : Kind :=
  if (t =? "INTEGER")%string then KInteger
  else if (t =? "ENUMERATED")%string then KEnumerated
  else if (t =? "BOOLEAN")%string then KBoolean
  else if (t =? "OCTET STRING")%string then KOctetString
  else if (t =? "BIT STRING")%string then KBitString
  else if (t =? "IA5String")%string || (t =? "UTF8String")%string then KCharString
  else if (t =? "NumericString")%string then KNumericString
  else if (t =? "NULL")%string then KNull
  else if (t =? "EXPANDABLE")%string then KExpandable
  else if (t =? "SEQUENCE")%string then KSequence
  else if (t =? "CHOICE")%string || (t =? "OPEN_TYPE")%string || (t =? "ANY")%string then KChoice
  else if (t =? "SEQUENCE OF")%string then KSequenceOf
  else KOther.

(** [self.range[i]]: a tuple index out of range raises IndexError. *)
Definition range_get (r : list PyInt) (i : nat) : Outcome PyInt :=
  match nth_error r i with
  | Some x => Ok x
  | None => Raise IndexError
  end.

(** ** Ordered dicts as association lists *)

Fixpoint dict_get {A : Type} (k : string) (d : list (string * A)) : option A :=
  match d with
  | [] => None
  | (k', v) :: rest => if (k' =? k)%string then Some v else dict_get k rest
  end.

(** [d[k] = v]: overwrite in place, or append a new key. *)
Fixpoint dict_set {A : Type} (k : string) (v : A) (d : list (string * A))
  : list (string * A) :=
  match d with
  | [] => [(k, v)]
  | (k', v') :: rest =>
      if (k' =? k)%string then (k', v) :: rest else (k', v') :: dict_set k v rest
  end.

(** [del d[k]]: KeyError (here [None]) when the key is absent. *)
Fixpoint dict_del {A : Type} (k : string) (d : list (string * A))
  : option (list (string * A)) :=
  match d with
  | [] => None
  | (k', v') :: rest =>
      if (k' =? k)%string then Some rest
      else match dict_del k rest with
           | Some rest' => Some ((k', v') :: rest')
           | None => None
           end
  end.

Definition keys {A : Type} (d : list (string * A)) : list string := map fst d.

Fixpoint mem_string (x : string) (l : list string) : bool :=
  match l with
  | [] => false
  | y :: rest => (y =? x)%string || mem_string x rest
  end.

(** ** The random source *)

(** The generator state: an infinite tape of draws and a cursor on it. *)
Record Rng : Type := mkRng { tape : nat -> nat; pos : nat }.

Definition advance (g : Rng) : Rng := mkRng (tape g) (S (pos g)).

(** Computations that draw random numbers and may raise. *)
Definition M (A : Type) : Type := Rng -> Outcome A * Rng.

Definition ret {A : Type} (a : A) : M A := fun g => (Ok a, g).
Definition raise {A : Type} (e : PyExc) : M A := fun g => (Raise e, g).
Definition bind {A B : Type} (m : M A) (f : A -> M B) : M B :=
  fun g =>
    match m g with
    | (Ok a, g') => f a g'
    | (Raise e, g') => (Raise e, g')
    | (OutOfFuel, g') => (OutOfFuel, g')
    end.

Declare Scope rng_scope.
Delimit Scope rng_scope with rng.
Notation "x <- m ;; k" := (bind m (fun x => k))
  (at level 61, m at next level, right associativity) : rng_scope.
Open Scope rng_scope.

Definition lift {A : Type} (o : Outcome A) : M A := fun g => (o, g).

(** [random._randbelow(n)] for [n > 0]: one draw, reduced below [n]. *)
Definition randbelow (n : Z) : M Z :=
  fun g => (Ok (Z.of_nat (tape g (pos g)) mod n), advance g).

(** [random.randrange(start, stop, step)].  A [None] start is a TypeError;
    a [None] stop makes the call [randrange(start)]. *)
Definition randrange (start stop : PyInt) (step : Z) : M Z :=
  match start with
  | None => raise TypeError
  | Some istart =>
      match stop with
      | None =>
          if step =? 1
          then if 0 <? istart then randbelow istart else raise ValueError
          else raise TypeError
      | Some istop =>
          let width := istop - istart in
          if step =? 1
          then if 0 <? width
               then n <- randbelow width ;; ret (istart + n)
               else raise ValueError
          else if step =? 0 then raise ValueError
          else
            let n := if 0 <? step
                     then (width + step - 1) / step
                     else (width + step + 1) / step in
            if n <=? 0 then raise ValueError
            else k <- randbelow n ;; ret (istart + step * k)
      end
  end.

(** [better_randrange]: returns [start] itself when [start == stop]. *)
Definition better_randrange (start stop : PyInt) (step : Z) : M PyInt :=
  if pyint_eqb start stop then ret start
  else n <- randrange start stop step ;; ret (Some n).

(** [random.choice(seq)]: IndexError on an empty sequence. *)
Definition choice {A : Type} (seq : list A) : M A :=
  match seq with
  | [] => raise IndexError
  | x :: _ =>
      i <- randbelow (Z.of_nat (List.length seq)) ;;
      ret (nth (Z.to_nat i) seq x)
  end.

(** Run [m] [n] times and collect the results, as a generator expression
    over [range(n)] does. *)
Fixpoint repeatM {A : Type} (n : nat) (m : M A) : M (list A) :=
  match n with
  | O => ret []
  | S n' => x <- m ;; xs <- repeatM n' m ;; ret (x :: xs)
  end.

(** [range(length)] for an int-or-None length. *)
Definition py_range_len (len : PyInt) : M nat :=
  match len with
  | None => raise TypeError
  | Some n => ret (Z.to_nat n)
  end.

Definition alphabet : list ascii :=
  list_ascii_of_string "ABCDEFGHIJKLMNOPQRSTUVWXYZ0123456789".

Definition generate_random_ascii_string (len : PyInt) : M string :=
  n <- py_range_len len ;;
  cs <- repeatM n (choice alphabet) ;;
  ret (string_of_list_ascii cs).

Definition digit_char (d : Z) : ascii := ascii_of_nat (48 + Z.to_nat d).

Definition generate_random_number (len : PyInt) : M string :=
  n <- py_range_len len ;;
  ds <- repeatM n (randrange (Some 0) (Some 9) 1) ;;
  ret (string_of_list_ascii (map digit_char ds)).

Definition byte_of_Z (z : Z) : Byte.byte :=
  byte_of_ascii (ascii_of_N (Z.to_N z)).

(** [random.randbytes(n)] is [getrandbits(n * 8).to_bytes(n, 'little')]:
    the number of bits [n * 8] must fit a C int (OverflowError from
    [n = 2 ** 28] on) and be non-negative (ValueError); [None] is a
    TypeError. *)
Definition randbytes (n : PyInt) : M (list Byte.byte) :=
  match n with
  | None => raise TypeError
  | Some k =>
      if (k * 8 <? -2147483648) || (2147483647 <? k * 8)
      then raise OverflowError
      else if k <? 0 then raise ValueError
      else bs <- repeatM (Z.to_nat k) (randbelow 256) ;; ret (map byte_of_Z bs)
  end.

(** ** [fuzz]: the leaf kinds *)

Definition omap {A B : Type} (f : A -> B) (o : Outcome A) : Outcome B :=
  match o with
  | Ok a => Ok (f a)
  | Raise e => Raise e
  | OutOfFuel => OutOfFuel
  end.

(** [len(self.nested)] *)
Definition py_len (n : Nested Asn1Container) : Outcome Z :=
  match n with
  | NLabels l => Ok (Z.of_nat (List.length l))
  | NDict d => Ok (Z.of_nat (List.length d))
  | _ => Raise TypeError
  end.

Definition is_nnone (n : Nested Asn1Container) : bool :=
  match n with NNone => true | _ => false end.

(** case "INTEGER" *)
Definition fuzz_integer (self : Asn1Container) : M Value :=
  match range self with
  | None => v <- randrange (Some 0) (Some 128) 1 ;; ret (VInt v)
  | Some r =>
      r1 <- lift (range_get r 1) ;;
      r0 <- lift (range_get r 0) ;;
      match r1 with
      | None => v <- randrange r0 (Some 128) 1 ;; ret (VInt v)
      | Some _ =>
          if pyint_eqb r0 r1 then ret (pyint_value r0)
          else v <- randrange r0 r1 1 ;; ret (VInt v)
      end
  end.

(** case "ENUMERATED" *)
Definition fuzz_enumerated (self : Asn1Container) : M Value :=
  match nested self with
  | NLabels l => s <- choice l ;; ret (VStr s)
  | NDict [] => raise IndexError
  | NDict d => _ <- randbelow (Z.of_nat (List.length d)) ;; raise KeyError
  | _ => raise TypeError
  end.

(** case "BOOLEAN" *)
Definition fuzz_boolean : M Value :=
  b <- choice [true; false] ;; ret (VBool b).

(** case "OCTET STRING" *)
Definition fuzz_octet_string (self : Asn1Container) : M Value :=
  match range self with
  | None =>
      n <- randrange (Some 0) (Some 128) 1 ;;
      bs <- randbytes (Some n) ;; ret (VBytes bs)
  | Some r =>
      r1 <- lift (range_get r 1) ;;
      r0 <- lift (range_get r 0) ;;
      match r1 with
      | None =>
          n <- better_randrange r0 (Some 128) 1 ;;
          bs <- randbytes n ;; ret (VBytes bs)
      | Some _ =>
          n <- better_randrange r0 r1 1 ;;
          bs <- randbytes n ;; ret (VBytes bs)
      end
  end.

(** [self.better_randrange(0, 2 ** len(self.nested) - 1)] *)
Definition named_bits_value (self : Asn1Container) : M PyInt :=
  len <- lift (py_len (nested self)) ;;
  better_randrange (Some 0) (Some (2 ^ len - 1)) 1.

(** case "BIT STRING" *)
Definition fuzz_bit_string (self : Asn1Container) : M Value :=
  match is_nnone (nested self), range self with
  | false, Some r =>
      value <- named_bits_value self ;;
      r1 <- lift (range_get r 1) ;;
      ret (VTuple [pyint_value value; pyint_value r1])
  | true, Some r =>
      r0 <- lift (range_get r 0) ;;
      r1 <- lift (range_get r 1) ;;
      value <- better_randrange r0 r1 1 ;;
      r2 <- lift (range_get r 2) ;;
      ret (VTuple [pyint_value value; pyint_value r2])
  | false, None =>
      value <- named_bits_value self ;;
      ret (VTuple [pyint_value value; VInt 8])
  | true, None => ret VNone
  end.

(** case "IA5String" | "UTF8String" *)
Definition fuzz_char_string (self : Asn1Container) : M Value :=
  match range self with
  | None => s <- generate_random_ascii_string (Some 128) ;; ret (VStr s)
  | Some r =>
      r0 <- lift (range_get r 0) ;;
      r1 <- lift (range_get r 1) ;;
      if pyint_eqb r0 r1
      then s <- generate_random_ascii_string r0 ;; ret (VStr s)
      else n <- randrange r0 r1 1 ;;
           s <- generate_random_ascii_string (Some n) ;; ret (VStr s)
  end.

(** case "NumericString" *)
Definition fuzz_numeric_string (self : Asn1Container) : M Value :=
  match range self with
  | None =>
      n <- randrange (Some 0) (Some 256) 1 ;;
      s <- generate_random_number (Some n) ;; ret (VStr s)
  | Some r =>
      r0 <- lift (range_get r 0) ;;
      r1 <- lift (range_get r 1) ;;
      n <- better_randrange r0 r1 1 ;;
      s <- generate_random_number n ;; ret (VStr s)
  end.

(** ** [fuzz]: the constructed kinds *)

(** What a call on a node yields: the outcome, the node after the call and
    the generator after the call. *)
Definition Res : Type := Outcome Value * Asn1Container * Rng.

Definition Fields : Type := list (string * Asn1Container).

Definition all_covered_fields (fields : Fields) : bool :=
  forallb (fun kv => fully_covered (snd kv)) fields.

(** The children that are not yet fully covered (line 143). *)
Definition uncovered (fields : Fields) : Fields :=
  filter (fun kv => negb (fully_covered (snd kv))) fields.

Definition py_max (a : PyInt) (b : Z) : Outcome Z :=
  match a with
  | Some x => Ok (Z.max x b)
  | None => Raise TypeError
  end.

Definition py_add (a : PyInt) (b : Z) : Outcome Z :=
  match a with
  | Some x => Ok (x + b)
  | None => Raise TypeError
  end.

Definition obind {A B : Type} (o : Outcome A) (f : A -> Outcome B) : Outcome B :=
  match o with
  | Ok a => f a
  | Raise e => Raise e
  | OutOfFuel => OutOfFuel
  end.

(** Lines 166-167: an open-ended SEQUENCE OF whose minimum is 0 and which is
    not yet covered has its [range] overwritten with minimum 1. *)
Definition force_at_least_one (self : Asn1Container) (r : list PyInt)
  : Outcome Asn1Container :=
  if negb (fully_covered self) then
    obind (range_get r 0) (fun r0 =>
      if pyint_eqb r0 (Some 0) then
        obind (range_get r 1) (fun r1 =>
        obind (range_get r 2) (fun r2 =>
          Ok (set_range (Some [Some 1; r1; r2]) self)))
      else Ok self)
  else Ok self.

(** Lines 169-171 *)
Definition open_ended_count (max_seq_of_count : Z) (self : Asn1Container) : M PyInt :=
  match range self with
  | None => raise TypeError
  | Some r =>
      r0 <- lift (range_get r 0) ;;
      maxValue <- lift (py_max r0 max_seq_of_count) ;;
      if pyint_eqb r0 (Some maxValue) then ret (Some maxValue)
      else n <- randrange r0 (Some maxValue) 1 ;; ret (Some n)
  end.

(** Lines 173-178 *)
Definition bounded_count (max_seq_of_count : Z) (self : Asn1Container)
  (r : list PyInt) (range1 : Z) : M PyInt :=
  r2 <- lift (range_get r 2) ;;
  let steps := match r2 with Some s => s | None => 1 end in
  r0 <- lift (range_get r 0) ;;
  sum <- lift (py_add r0 steps) ;;
  let max_capped := Z.max sum max_seq_of_count in
  let min_value :=
    if pyint_eqb r0 (Some 0) && negb (fully_covered self)
    then Some max_capped else r0 in
  better_randrange min_value (Some (Z.min range1 max_capped)) steps.

(** Lines 162-178: the number of elements of a SEQUENCE OF, and the node
    with the [range] it has afterwards. *)
Definition seq_of_count (max_seq_of_count : Z) (self : Asn1Container) (g : Rng)
  : Outcome PyInt * Asn1Container * Rng :=
  match range self with
  | None =>
      if max_seq_of_count =? 1 then (Ok (Some 1), self, g)
      else let '(r, g') := randrange (Some 1) (Some max_seq_of_count) 1 g in
           (omap Some r, self, g')
  | Some r =>
      match range_get r 1 with
      | Ok None =>
          match force_at_least_one self r with
          | Ok self1 =>
              let '(n, g') := open_ended_count max_seq_of_count self1 g in
              (n, self1, g')
          | Raise e => (Raise e, self, g)
          | OutOfFuel => (OutOfFuel, self, g)
          end
      | Ok (Some range1) =>
          let '(n, g') := bounded_count max_seq_of_count self r range1 g in
          (n, self, g')
      | Raise e => (Raise e, self, g)
      | OutOfFuel => (OutOfFuel, self, g)
      end
  end.

Section FuzzBody.

(** The recursive call [value.fuzz(allowlist, blocklist, coverage_aware,
    max_seq_of_count)] on a child. *)
Variable rec : Asn1Container -> Rng -> Res.
Variable allowlist : option (list string).
Variable coverage_aware : bool.
Variable max_seq_of_count : Z.

(** Lines 129-134: whether the loop of a SEQUENCE [continue]s past a
    field.  The coin is tossed only without allowlist, for an optional
    field. *)
Definition skip_field (self_covered : bool) (value : Asn1Container) : M bool :=
  match allowlist with
  | Some al => ret (negb (mem_string (unique_ident value) al))
  | None =>
      if optional value
      then b <- choice [true; false] ;;
           ret (b && (negb coverage_aware || self_covered))
      else ret false
  end.

(** Lines 127-139: the loop over the fields of a SEQUENCE.  Returns the
    dict built so far and the fields as the calls left them. *)
Fixpoint fuzz_fields (self_covered : bool) (fields : Fields)
  (retNested : list (string * Value)) (g : Rng)
  : Outcome (list (string * Value)) * Fields * Rng :=
  match fields with
  | [] => (Ok retNested, [], g)
  | (key, value) :: rest =>
      match skip_field self_covered value g with
      | (Ok true, g1) =>
          let '(r, rest', g2) := fuzz_fields self_covered rest retNested g1 in
          (r, (key, value) :: rest', g2)
      | (Ok false, g1) =>
          match rec value g1 with
          | (Ok fuzzed_value, value', g2) =>
              let retNested' :=
                if is_none fuzzed_value then retNested
                else dict_set key fuzzed_value retNested in
              let '(r, rest', g3) := fuzz_fields self_covered rest retNested' g2 in
              (r, (key, value') :: rest', g3)
          | (Raise e, value', g2) => (Raise e, (key, value') :: rest, g2)
          | (OutOfFuel, value', g2) => (OutOfFuel, (key, value') :: rest, g2)
          end
      | (Raise e, g1) => (Raise e, fields, g1)
      | (OutOfFuel, g1) => (OutOfFuel, fields, g1)
      end
  end.

(** Calls [fuzz] on the first child (in iteration order) that satisfies
    [p], in place; [None] when there is no such child. *)
Fixpoint fuzz_first (p : string -> Asn1Container -> bool) (fields : Fields)
  (g : Rng) : option (string * Outcome Value) * Fields * Rng :=
  match fields with
  | [] => (None, [], g)
  | (key, value) :: rest =>
      if p key value
      then let '(r, value', g') := rec value g in
           (Some (key, r), (key, value') :: rest, g')
      else let '(o, rest', g') := fuzz_first p rest g in
           (o, (key, value) :: rest', g')
  end.

(** Lines 141-145: the candidate children of a CHOICE. *)
Definition nested_filtered (fields : Fields) : Fields :=
  if coverage_aware
  then let filtered := uncovered fields in
       if (0 <? List.length filtered)%nat then filtered else fields
  else fields.

(** Lines 152-156 *)
Definition select_key (possible_choices : list string) : M string :=
  if (1 <? List.length possible_choices)%nat
  then choice possible_choices
  else match possible_choices with
       | [] => raise IndexError
       | k :: _ => ret k
       end.

Definition pair_result (key : string) (r : Outcome Value) : Outcome Value :=
  omap (fun v => VTuple [VStr key; v]) r.

(** Lines 141-159: case "CHOICE" | "OPEN_TYPE" | "ANY" *)
Definition fuzz_choice (fields : Fields) (g : Rng)
  : Outcome Value * Fields * Rng :=
  match allowlist with
  | Some al =>
      match fuzz_first (fun _ value => mem_string (unique_ident value) al)
              fields g with
      | (Some (key, r), fields', g') => (pair_result key r, fields', g')
      | (None, fields', g') => (Ok VNone, fields', g')
      end
  | None =>
      match select_key (keys (nested_filtered fields)) g with
      | (Ok selectedKey, g1) =>
          match fuzz_first (fun key _ => (key =? selectedKey)%string) fields g1 with
          | (Some (_, r), fields', g') => (pair_result selectedKey r, fields', g')
          | (None, fields', g') => (Raise KeyError, fields', g')
          end
      | (Raise e, g1) => (Raise e, fields, g1)
      | (OutOfFuel, g1) => (OutOfFuel, fields, g1)
      end
  end.

(** Lines 180-181: [numElementsSequence] calls on the one element child,
    each on the child as the previous call left it. *)
Fixpoint fuzz_elems (n : nat) (child : Asn1Container) (ret : list Value)
  (g : Rng) : Outcome (list Value) * Asn1Container * Rng :=
  match n with
  | O => (Ok ret, child, g)
  | S n' =>
      match rec child g with
      | (Ok v, child', g') => fuzz_elems n' child' (ret ++ [v]) g'
      | (Raise e, child', g') => (Raise e, child', g')
      | (OutOfFuel, child', g') => (OutOfFuel, child', g')
      end
  end.

(** Lines 160-183: case "SEQUENCE OF" *)
Definition fuzz_sequence_of (self : Asn1Container) (g : Rng) : Res :=
  match seq_of_count max_seq_of_count self g with
  | (Ok None, self1, g1) => (Raise TypeError, self1, g1)
  | (Ok (Some numElementsSequence), self1, g1) =>
      if numElementsSequence <=? 0 then (Ok (VList []), self1, g1)
      else
        match nested self1 with
        | NNode child =>
            let '(r, child', g2) :=
              fuzz_elems (Z.to_nat numElementsSequence) child [] g1 in
            (omap VList r, set_nested (NNode child') self1, g2)
        | _ => (Raise AttributeError, self1, g1)
        end
  | (Raise e, self1, g1) => (Raise e, self1, g1)
  | (OutOfFuel, self1, g1) => (OutOfFuel, self1, g1)
  end.

Definition scalar (m : M Value) (self : Asn1Container) (g : Rng) : Res :=
  let '(r, g') := m g in (r, self, g').

(** Lines 75-185: the first [match], which computes [return_val]. *)
Definition generate (k : Kind) (self : Asn1Container) (g : Rng) : Res :=
  match k with
  | KInteger => scalar (fuzz_integer self) self g
  | KEnumerated => scalar (fuzz_enumerated self) self g
  | KBoolean => scalar fuzz_boolean self g
  | KOctetString => scalar (fuzz_octet_string self) self g
  | KBitString => scalar (fuzz_bit_string self) self g
  | KCharString => scalar (fuzz_char_string self) self g
  | KNumericString => scalar (fuzz_numeric_string self) self g
  | KNull => (Ok (VInt 0), self, g)
  | KExpandable => (Raise ValueError, self, g)
  | KSequence =>
      match nested self with
      | NDict fields =>
          let '(r, fields', g') :=
            fuzz_fields (fully_covered self) fields [] g in
          (omap VDict r, set_nested (NDict fields') self, g')
      | _ => (Raise AttributeError, self, g)
      end
  | KChoice =>
      match nested self with
      | NDict fields =>
          let '(r, fields', g') := fuzz_choice fields g in
          (r, set_nested (NDict fields') self, g')
      | _ => (Raise AttributeError, self, g)
      end
  | KSequenceOf => fuzz_sequence_of self g
  | KOther => (Ok VNone, self, g)
  end.

(** Lines 187-196: the second [match], which recomputes the flag. *)
Definition update_coverage (k : Kind) (self : Asn1Container)
  : Outcome unit * Asn1Container :=
  match k with
  | KSequenceOf =>
      match nested self with
      | NNode child => (Ok tt, set_fully_covered (fully_covered child) self)
      | _ => (Raise AttributeError, self)
      end
  | KChoice | KSequence =>
      match nested self with
      | NDict fields =>
          (Ok tt, set_fully_covered (all_covered_fields fields) self)
      | _ => (Raise AttributeError, set_fully_covered true self)
      end
  | _ => (Ok tt, set_fully_covered true self)
  end.

Definition fuzz_body (self : Asn1Container) (g : Rng) : Res :=
  let k := classify (asn1_type self) in
  match generate k self g with
  | (Ok return_val, self1, g1) =>
      match update_coverage k self1 with
      | (Ok _, self2) => (Ok return_val, self2, g1)
      | (Raise e, self2) => (Raise e, self2, g1)
      | (OutOfFuel, self2) => (OutOfFuel, self2, g1)
      end
  | (Raise e, self1, g1) => (Raise e, self1, g1)
  | (OutOfFuel, self1, g1) => (OutOfFuel, self1, g1)
  end.

End FuzzBody.

(** [fuzz] with a bound on the depth of the recursion.  The [blocklist]
    argument is handed to the recursive calls and used nowhere else. *)
Fixpoint fuzz_fuel (fuel : nat) (allowlist blocklist : option (list string))
  (coverage_aware : bool) (max_seq_of_count : Z) (self : Asn1Container)
  (g : Rng) : Res :=
  match fuel with
  | O => (OutOfFuel, self, g)
  | S fuel' =>
      fuzz_body
        (fuzz_fuel fuel' allowlist blocklist coverage_aware max_seq_of_count)
        allowlist coverage_aware max_seq_of_count self g
  end.

(** The depth of the tree below a node. *)
Fixpoint height (c : Asn1Container) : nat :=
  match nested c with
  | NDict fields =>
      S (fold_right (fun kv acc => Nat.max (height (snd kv)) acc) O fields)
  | NNode child => S (height child)
  | _ => O
  end.

(** [Asn1Container.fuzz] *)
Definition fuzz (allowlist blocklist : option (list string))
  (coverage_aware : bool) (max_seq_of_count : Z) (self : Asn1Container)
  (g : Rng) : Res :=
  fuzz_fuel (S (height self)) allowlist blocklist coverage_aware
    max_seq_of_count self g.

(** ** [expand_once] *)

Section ExpandLoop.

Variable rec : Asn1Container -> IdentHistory
               -> Outcome unit * Asn1Container * IdentHistory.

(** Lines 212-216: an EXPANDABLE child that has a schema object is
    replaced by the prototype the object builds; every other child is
    expanded in place. *)
Fixpoint expand_fields (fields : Fields) (h : IdentHistory)
  : Outcome unit * Fields * IdentHistory :=
  match fields with
  | [] => (Ok tt, [], h)
  | (key, value) :: rest =>
      if (asn1_type value =? "EXPANDABLE")%string
         && negb (is_nnone (nested value))
      then match nested value with
           | NFactory get_proto =>
               let '(proto, h1) := get_proto h in
               let '(r, rest', h2) := expand_fields rest h1 in
               (r, (key, proto) :: rest', h2)
           | _ => (Raise AttributeError, fields, h)
           end
      else match rec value h with
           | (Ok _, value', h1) =>
               let '(r, rest', h2) := expand_fields rest h1 in
               (r, (key, value') :: rest', h2)
           | (Raise e, value', h1) => (Raise e, (key, value') :: rest, h1)
           | (OutOfFuel, value', h1) => (OutOfFuel, (key, value') :: rest, h1)
           end
  end.

End ExpandLoop.

Fixpoint expand_once (self : Asn1Container) (ident_history : IdentHistory)
  : Outcome unit * Asn1Container * IdentHistory :=
  match classify (asn1_type self) with
  | KChoice | KSequence =>
      match nested self with
      | NDict fields =>
          let '(r, fields', h') :=
            expand_fields expand_once fields ident_history in
          (r, set_nested (NDict fields') self, h')
      | _ => (Raise AttributeError, self, ident_history)
      end
  | _ => (Ok tt, self, ident_history)
  end.

(** ** [remove_expandable] *)

(** Lines 288-289: [del self.nested[key]] for every collected key. *)
Fixpoint delete_keys (keys_to_remove : list string) (fields : Fields)
  : Outcome unit * Fields :=
  match keys_to_remove with
  | [] => (Ok tt, fields)
  | key :: rest =>
      match dict_del key fields with
      | Some fields' => delete_keys rest fields'
      | None => (Raise KeyError, fields)
      end
  end.

Section PruneLoops.

Variable rec : Asn1Container -> Outcome bool * Asn1Container.

(** Lines 264-267: a CHOICE collects the keys of the children whose
    pruning failed. *)
Fixpoint prune_choice (fields : Fields) (keys_to_remove : list string)
  : Outcome (list string) * Fields :=
  match fields with
  | [] => (Ok keys_to_remove, [])
  | (key, value) :: rest =>
      match rec value with
      | (Ok is_removed, value') =>
          let keys_to_remove' :=
            if is_removed then keys_to_remove
            else (keys_to_remove ++ [key])%list in
          let '(r, rest') := prune_choice rest keys_to_remove' in
          (r, (key, value') :: rest')
      | (Raise e, value') => (Raise e, (key, value') :: rest)
      | (OutOfFuel, value') => (OutOfFuel, (key, value') :: rest)
      end
  end.

(** Lines 269-280: a SEQUENCE collects the keys of the optional children
    whose pruning failed and fails on a mandatory one. *)
Fixpoint prune_sequence (fields : Fields) (keys_to_remove : list string)
  (result : bool) : Outcome (list string * bool) * Fields :=
  match fields with
  | [] => (Ok (keys_to_remove, result), [])
  | (key, value) :: rest =>
      match rec value with
      | (Ok is_removed, value') =>
          let '(r, rest') :=
            if is_removed then prune_sequence rest keys_to_remove result
            else if optional value'
                 then prune_sequence rest (keys_to_remove ++ [key])%list result
                 else prune_sequence rest keys_to_remove false in
          (r, (key, value') :: rest')
      | (Raise e, value') => (Raise e, (key, value') :: rest)
      | (OutOfFuel, value') => (OutOfFuel, (key, value') :: rest)
      end
  end.

End PruneLoops.

Fixpoint remove_expandable (self : Asn1Container) : Outcome bool * Asn1Container :=
  match classify (asn1_type self) with
  | KExpandable => (Ok false, self)
  | KChoice =>
      match nested self with
      | NDict fields =>
          match prune_choice remove_expandable fields [] with
          | (Ok keys_to_remove, fields1) =>
              let '(r, fields2) := delete_keys keys_to_remove fields1 in
              (omap (fun _ => true) r, set_nested (NDict fields2) self)
          | (Raise e, fields1) => (Raise e, set_nested (NDict fields1) self)
          | (OutOfFuel, fields1) => (OutOfFuel, set_nested (NDict fields1) self)
          end
      | _ => (Raise AttributeError, self)
      end
  | KSequence =>
      match nested self with
      | NDict fields =>
          match prune_sequence remove_expandable fields [] true with
          | (Ok (keys_to_remove, result), fields1) =>
              let '(r, fields2) := delete_keys keys_to_remove fields1 in
              (omap (fun _ => result) r, set_nested (NDict fields2) self)
          | (Raise e, fields1) => (Raise e, set_nested (NDict fields1) self)
          | (OutOfFuel, fields1) => (OutOfFuel, set_nested (NDict fields1) self)
          end
      | _ => (Raise AttributeError, self)
      end
  | KSequenceOf =>
      match nested self with
      | NNone => (Ok false, self)
      | NNode child =>
          let '(r, child') := remove_expandable child in
          (r, set_nested (NNode child') self)
      | _ => (Raise AttributeError, self)
      end
  | _ => (Ok true, self)
  end.

(** ** Relations between a tree before and after a call *)

(** The children of two nodes correspond and are related by [Q]. *)
Inductive nested_rel (Q : Asn1Container -> Asn1Container -> Prop)
  : Nested Asn1Container -> Nested Asn1Container -> Prop :=
| nested_rel_none : nested_rel Q NNone NNone
| nested_rel_dict (l l' : Fields) :
    Forall2 (fun kv kv' => fst kv = fst kv' /\ Q (snd kv) (snd kv')) l l' ->
    nested_rel Q (NDict l) (NDict l')
| nested_rel_node (v v' : Asn1Container) :
    Q v v' -> nested_rel Q (NNode v) (NNode v')
| nested_rel_labels (l : list string) : nested_rel Q (NLabels l) (NLabels l)
| nested_rel_factory (f : IdentHistory -> Asn1Container * IdentHistory) :
    nested_rel Q (NFactory f) (NFactory f).

(** Two trees have the same nodes at the same places, with the same
    identity, kind, optionality and member count, and [R] relates every
    node of the first to the node of the second at its place.  Nothing is
    said here about [range] and [fully_covered]: that is [R]'s part. *)
Inductive tree_rel (R : Asn1Container -> Asn1Container -> Prop)
  : Asn1Container -> Asn1Container -> Prop :=
| tree_rel_intro (c c' : Asn1Container) :
    unique_ident c = unique_ident c' ->
    asn1_type c = asn1_type c' ->
    optional c = optional c' ->
    sequence_member_count c = sequence_member_count c' ->
    R c c' ->
    nested_rel (tree_rel R) (nested c) (nested c') ->
    tree_rel R c c'.

Definition any_change (_ _ : Asn1Container) : Prop := True.

(** The flag did not go from true to false. *)
Definition flag_kept (c c' : Asn1Container) : Prop :=
  fully_covered c = true -> fully_covered c' = true.

(** Same tree, up to [range] and [fully_covered]. *)
Definition same_shape : Asn1Container -> Asn1Container -> Prop :=
  tree_rel any_change.

(** Same tree, and no node lost its coverage. *)
Definition coverage_kept : Asn1Container -> Asn1Container -> Prop :=
  tree_rel flag_kept.

(** The flags of the children that the second [match] of [fuzz] reads. *)
Definition children_covered (c : Asn1Container) : bool :=
  match classify (asn1_type c), nested c with
  | KSequence, NDict fields => all_covered_fields fields
  | KChoice, NDict fields => all_covered_fields fields
  | KSequenceOf, NNode child => fully_covered child
  | _, _ => true
  end.

Inductive nested_all (P : Asn1Container -> Prop) : Nested Asn1Container -> Prop :=
| nested_all_none : nested_all P NNone
| nested_all_dict (l : Fields) :
    Forall (fun kv => P (snd kv)) l -> nested_all P (NDict l)
| nested_all_node (v : Asn1Container) : P v -> nested_all P (NNode v)
| nested_all_labels (l : list string) : nested_all P (NLabels l)
| nested_all_factory (f : IdentHistory -> Asn1Container * IdentHistory) :
    nested_all P (NFactory f).

(** The state of the flags that construction and [fuzz] maintain: a node
    that is flagged has all the children its flag is computed from flagged,
    at every depth.  [reset_coverage] on an inner node breaks it. *)
Inductive consistent : Asn1Container -> Prop :=
| consistent_intro (c : Asn1Container) :
    (fully_covered c = true -> children_covered c = true) ->
    nested_all consistent (nested c) ->
    consistent c.

(** No node is flagged, as after construction. *)
Inductive uncovered_tree : Asn1Container -> Prop :=
| uncovered_tree_intro (c : Asn1Container) :
    fully_covered c = false ->
    nested_all uncovered_tree (nested c) ->
    uncovered_tree c.

(** Places in a tree: a path of dict keys and SEQUENCE OF element steps. *)
Inductive Step : Type :=
| SKey (key : string)
| SElem.

Fixpoint node_at (p : list Step) (c : Asn1Container) : option Asn1Container :=
  match p with
  | [] => Some c
  | SKey key :: p' =>
      match nested c with
      | NDict fields =>
          match dict_get key fields with
          | Some v => node_at p' v
          | None => None
          end
      | _ => None
      end
  | SElem :: p' =>
      match nested c with
      | NNode child => node_at p' child
      | _ => None
      end
  end.

(** ** Results of calls, and what the calls keep *)

(** The three parts of what a call of [fuzz] yields. *)
Definition res_outcome (r : Res) : Outcome Value := fst (fst r).
Definition res_tree (r : Res) : Asn1Container := snd (fst r).
Definition res_rng (r : Res) : Rng := snd r.

(** A computation on the random source that returns or raises. *)
Definition total {A : Type} (m : M A) : Prop :=
  forall g, fst (m g) <> OutOfFuel.

Definition answers {A : Type} (o : Outcome A) : Prop := o <> OutOfFuel.

(** Two dicts with the same keys in the same order and related values. *)
Definition fields_rel (Q : Asn1Container -> Asn1Container -> Prop)
  : Fields -> Fields -> Prop :=
  Forall2 (fun kv kv' => fst kv = fst kv' /\ Q (snd kv) (snd kv')).

(** Same identity, kind, optionality and member count. *)
Definition header_eq (c c' : Asn1Container) : Prop :=
  unique_ident c = unique_ident c' /\ asn1_type c = asn1_type c' /\
  optional c = optional c' /\ sequence_member_count c = sequence_member_count c'.

(** What one call of [fuzz] guarantees about the tree it leaves: the same
    tree up to flags and ranges and, when the flags were consistent, no flag
    lost and consistent flags again. *)
Definition fuzz_inv (c c' : Asn1Container) : Prop :=
  same_shape c c' /\ (consistent c -> coverage_kept c c' /\ consistent c').

(** What a call of [fuzz] may do to the constraint of a node: nothing, or,
    on a SEQUENCE OF node with an open-ended constraint of minimum 0,
    overwrite the minimum with 1 (line 167). *)
Definition range_frame (c c' : Asn1Container) : Prop :=
  asn1_type c' = asn1_type c /\
  (range c' = range c \/
   (classify (asn1_type c) = KSequenceOf /\
    exists r r2,
      range c = Some r /\ nth_error r 0 = Some (Some 0) /\
      nth_error r 1 = Some None /\ nth_error r 2 = Some r2 /\
      range c' = Some [Some 1; None; r2])).

(** ** Concrete generators and trees *)

(** A generator whose tape is constantly [n]. *)
Definition constant_rng (n : nat) : Rng := mkRng (fun _ => n) 0.

Definition integer_node (r : option (list PyInt)) : Asn1Container :=
  new_container "Int" "INTEGER" false NNone r.

Definition null_node : Asn1Container :=
  new_container "Null" "NULL" false NNone None.

Definition boolean_node : Asn1Container :=
  new_container "Bool" "BOOLEAN" false NNone None.

(** An EXPANDABLE node whose schema object builds a NULL node. *)
Definition expandable_node : Asn1Container :=
  new_container "Rec" "EXPANDABLE" false
    (NFactory (fun h => (null_node, ("Rec", 1%nat) :: h))) None.

Definition sequence_of_node (child : Asn1Container) (r : option (list PyInt))
  : Asn1Container :=
  new_container "List" "SEQUENCE OF" false (NNode child) r.

(** A SEQUENCE with two fields: a SEQUENCE OF whose element is an
    EXPANDABLE node, and an EXPANDABLE node. *)
Definition record_with_placeholders : Asn1Container :=
  new_container "Record" "SEQUENCE" false
    (NDict [("items", sequence_of_node expandable_node None);
            ("next", expandable_node)])
    None.

(** ** Trees without placeholders *)

(** No node of the tree is an EXPANDABLE node. *)
Inductive placeholder_free : Asn1Container -> Prop :=
| placeholder_free_intro (c : Asn1Container) :
    asn1_type c <> "EXPANDABLE" ->
    nested_all placeholder_free (nested c) ->
    placeholder_free c.

(** The shape the methods rely on: a SEQUENCE, CHOICE, OPEN_TYPE or ANY node
    holds a dict of children and a SEQUENCE OF node holds its element
    child. *)
Definition has_children (c : Asn1Container) : Prop :=
  match classify (asn1_type c) with
  | KSequence | KChoice => exists fields, nested c = NDict fields
  | KSequenceOf => exists child, nested c = NNode child
  | _ => True
  end.

Inductive well_formed : Asn1Container -> Prop :=
| well_formed_intro (c : Asn1Container) :
    has_children c ->
    nested_all well_formed (nested c) ->
    well_formed c.

(** ** More concrete trees *)

(** A CHOICE between a NULL and a list of BOOLEANs. *)
Definition finite_choice : Asn1Container :=
  new_container "Alt" "CHOICE" false
    (NDict [("none", null_node);
            ("flags", sequence_of_node boolean_node None)])
    None.

(** A SEQUENCE whose one optional field is a CHOICE. *)
Definition record_with_choice : Asn1Container :=
  new_container "Record" "SEQUENCE" false
    (NDict [("count", integer_node (Some [Some 0; Some 8]));
            ("alt", new_container "Alt" "CHOICE" true
                      (NDict [("none", null_node)]) None)])
    None.

(** The scenario of three scalar alternatives: a CHOICE
    [{A: BOOLEAN, B: NULL, C: INTEGER (0, 1)}], with the flag [f] of the
    node and the flags [a], [b], [c] of the alternatives. *)
Definition three_scalars (f a b c : bool) : Asn1Container :=
  set_fully_covered f
    (new_container "Alt" "CHOICE" false
       (NDict [("A", set_fully_covered a boolean_node);
               ("B", set_fully_covered b null_node);
               ("C", set_fully_covered c (integer_node (Some [Some 0; Some 1])))])
       None).

(** ** Runs of calls *)

(** The arguments of one call of [fuzz]. *)
Record Call : Type :=
  mkCall {
      call_allowlist : option (list string);
      call_blocklist : option (list string);
      call_coverage_aware : bool;
      call_max_seq_of_count : Z
    }.

(** A run of calls on the same tree.  A call that raises leaves the tree as
    it was when the exception left it, and the run goes on from there. *)
Fixpoint fuzz_calls (calls : list Call) (self : Asn1Container) (g : Rng)
  : Asn1Container * Rng :=
  match calls with
  | [] => (self, g)
  | c :: rest =>
      let r := fuzz (call_allowlist c) (call_blocklist c)
                 (call_coverage_aware c) (call_max_seq_of_count c) self g in
      fuzz_calls rest (res_tree r) (res_rng r)
  end.

(** ** [coverage] *)

(** What [coverage] returns: the list [[total, covered]] it accumulates for
    a SEQUENCE, CHOICE, OPEN_TYPE or ANY node, or the tuple
    [(1, int(fully_covered))] of any other node. *)
Inductive CoverageResult : Type :=
| PyList2 (total covered : Z)
| PyTuple2 (total covered : Z).

(** [coverage_val[0]] and [coverage_val[1]] *)
Definition item0 (cv : CoverageResult) : Z :=
  match cv with PyList2 t _ => t | PyTuple2 t _ => t end.

Definition item1 (cv : CoverageResult) : Z :=
  match cv with PyList2 _ c => c | PyTuple2 _ c => c end.

(** [int(self.fully_covered)] *)
Definition int_of_bool (b : bool) : Z := if b then 1 else 0.

Section CoverageLoop.

Variable rec : Asn1Container -> Outcome CoverageResult.

(** Lines 230-236: the sums over the children.  The values of the dict are
    containers here, so the [isinstance] test never skips one. *)
Fixpoint coverage_fields (fields : Fields) (total covered : Z)
  : Outcome (Z * Z) :=
  match fields with
  | [] => Ok (total, covered)
  | (key, value) :: rest =>
      match rec value with
      | Ok coverage_val =>
          coverage_fields rest (total + item0 coverage_val)
            (covered + item1 coverage_val)
      | Raise e => Raise e
      | OutOfFuel => OutOfFuel
      end
  end.

End CoverageLoop.

Fixpoint coverage (self : Asn1Container) : Outcome CoverageResult :=
  match classify (asn1_type self) with
  | KChoice | KSequence =>
      match nested self with
      | NDict fields =>
          omap (fun tc => PyList2 (fst tc) (snd tc))
            (coverage_fields coverage fields 0 0)
      | _ => Raise AttributeError
      end
  | KSequenceOf =>
      match nested self with
      | NNode child => coverage child
      | _ => Raise AttributeError
      end
  | _ => Ok (PyTuple2 1 (int_of_bool (fully_covered self)))
  end.

(** ** Trees that pruning accepts *)

(** No EXPANDABLE node can be reached from the node through the children
    the methods visit: the dict of a SEQUENCE, CHOICE, OPEN_TYPE or ANY node
    and the element child of a SEQUENCE OF node. *)
Inductive finite : Asn1Container -> Prop :=
| finite_dict (c : Asn1Container) (fields : Fields) :
    classify (asn1_type c) = KSequence \/ classify (asn1_type c) = KChoice ->
    nested c = NDict fields ->
    Forall (fun kv => finite (snd kv)) fields ->
    finite c
| finite_sequence_of (c child : Asn1Container) :
    classify (asn1_type c) = KSequenceOf ->
    nested c = NNode child ->
    finite child ->
    finite c
| finite_leaf (c : Asn1Container) :
    classify (asn1_type c) <> KExpandable ->
    classify (asn1_type c) <> KSequence ->
    classify (asn1_type c) <> KChoice ->
    classify (asn1_type c) <> KSequenceOf ->
    finite c.

(** Every dict of the tree has distinct keys, as every Python dict has. *)
Inductive distinct_keys : Asn1Container -> Prop :=
| distinct_keys_intro (c : Asn1Container) :
    (forall fields, nested c = NDict fields -> NoDup (keys fields)) ->
    nested_all distinct_keys (nested c) ->
    distinct_keys c.

(** A flagged node of a tree with consistent flags. *)
Definition covered_and_consistent (c : Asn1Container) : Prop :=
  consistent c /\ fully_covered c = true.

(** ** Concrete trees with placeholders *)

(** An optional EXPANDABLE node. *)
Definition optional_expandable_node : Asn1Container :=
  new_container "Rec" "EXPANDABLE" true
    (NFactory (fun h => (null_node, ("Rec", 1%nat) :: h))) None.

(** A SEQUENCE with a mandatory INTEGER field and an optional EXPANDABLE
    field. *)
Definition record_with_optional_placeholder : Asn1Container :=
  new_container "Record" "SEQUENCE" false
    (NDict [("count", integer_node (Some [Some 0; Some 8]));
            ("next", optional_expandable_node)])
    None.

(** A CHOICE whose alternatives are all EXPANDABLE nodes. *)
Definition choice_of_placeholders : Asn1Container :=
  new_container "Alt" "CHOICE" false
    (NDict [("left", expandable_node); ("right", optional_expandable_node)])
    None.

(** ** Prototypes *)

(** The schema object of an EXPANDABLE node: its [get_proto]. *)
Definition Factory : Type := IdentHistory -> Asn1Container * IdentHistory.

(** The prototypes that a list of schema objects builds one after the
    other, each from the history the one before left. *)
Fixpoint build_protos (objs : list (string * Factory)) (h : IdentHistory)
  : Fields * IdentHistory :=
  match objs with
  | [] => ([], h)
  | (key, get_proto) :: rest =>
      let '(proto, h1) := get_proto h in
      let '(rest', h2) := build_protos rest h1 in
      ((key, proto) :: rest', h2)
  end.

(** [fields] are EXPANDABLE nodes holding the schema objects [objs], under
    the same keys. *)
Definition placeholders_for (fields : Fields) (objs : list (string * Factory))
  : Prop :=
  Forall2 (fun kv kf => fst kv = fst kf /\
                        asn1_type (snd kv) = "EXPANDABLE" /\
                        nested (snd kv) = NFactory (snd kf))
    fields objs.

(** ** The leaf kinds of [fuzz] *)

(** The computation of [return_val] for the kinds whose case of the first
    [match] calls no [fuzz] on a child; [None] for the constructed kinds and
    for EXPANDABLE. *)
Definition leaf_generator (k : Kind) (self : Asn1Container) : option (M Value) :=
  match k with
  | KInteger => Some (fuzz_integer self)
  | KEnumerated => Some (fuzz_enumerated self)
  | KBoolean => Some fuzz_boolean
  | KOctetString => Some (fuzz_octet_string self)
  | KBitString => Some (fuzz_bit_string self)
  | KCharString => Some (fuzz_char_string self)
  | KNumericString => Some (fuzz_numeric_string self)
  | KNull => Some (ret (VInt 0))
  | KOther => Some (ret VNone)
  | KExpandable | KSequence | KChoice | KSequenceOf => None
  end.

(** The characters of a str. *)
Definition chars (s : string) : list ascii := list_ascii_of_string s.

(** The digits that [generate_random_number] can produce. *)
Definition digits_0_to_8 : list ascii := list_ascii_of_string "012345678".

(** An IA5String node with constraint [r]. *)
Definition ia5_node (r : option (list PyInt)) : Asn1Container :=
  new_container "Str" "IA5String" false NNone r.

(** A NumericString, an OCTET STRING and a BIT STRING node. *)
Definition numeric_node (r : option (list PyInt)) : Asn1Container :=
  new_container "Num" "NumericString" false NNone r.

Definition octet_node (r : option (list PyInt)) : Asn1Container :=
  new_container "Oct" "OCTET STRING" false NNone r.

Definition bit_node (names : list string) (r : option (list PyInt))
  : Asn1Container :=
  new_container "Bits" "BIT STRING" false (NLabels names) r.

(** An ENUMERATED node with the labels [labels]. *)
Definition enumerated_node (labels : list string) : Asn1Container :=
  new_container "Enum" "ENUMERATED" false (NLabels labels) None.

(** ** [mandatory] and [feature_ide] *)

(** An [xml.etree] element: its tag, its attributes and its children. *)
Inductive Element : Type :=
| mkElement (tag : string) (attrib : list (string * string))
    (children : list Element).

Definition tag (e : Element) : string :=
  match e with mkElement t _ _ => t end.

Definition attrib (e : Element) : list (string * string) :=
  match e with mkElement _ a _ => a end.

Definition children (e : Element) : list Element :=
  match e with mkElement _ _ ch => ch end.

(** [et.SubElement(root, ...)] appends the new element to [root]. *)
Definition append_child (root child : Element) : Element :=
  mkElement (tag root) (attrib root) (children root ++ [child]).

(** [Asn1Container.mandatory] *)
Definition mandatory (self : Asn1Container) : string :=
  if negb (optional self) then "true" else "false".

(** The [match self.asn1_type] dispatch of [feature_ide]: OPEN_TYPE is
    not among the cases and falls to the default one. *)
Inductive FeatureKind : Type :=
| FAlt | FAnd | FSeqOf | FFeature.

Definition feature_kind (t : string) : FeatureKind :=
  if (t =? "CHOICE")%string || (t =? "ANY")%string then FAlt
  else if (t =? "SEQUENCE")%string then FAnd
  else if (t =? "SEQUENCE OF")%string then FSeqOf
  else FFeature.

Section FeatureLoop.

Variable rec : Asn1Container -> Element -> Outcome unit * Element.

(** Lines 319-320 and 323-324: every child adds its element to
    [newRoot]. *)
Fixpoint feature_fields (fields : Fields) (newRoot : Element)
  : Outcome unit * Element :=
  match fields with
  | [] => (Ok tt, newRoot)
  | (_, value) :: rest =>
      match rec value newRoot with
      | (Ok _, newRoot') => feature_fields rest newRoot'
      | (Raise e, newRoot') => (Raise e, newRoot')
      | (OutOfFuel, newRoot') => (OutOfFuel, newRoot')
      end
  end.

End FeatureLoop.

(** [Asn1Container.feature_ide]: returns [root] as the call leaves it.
    The element made by [et.SubElement] is a child of [root] from its
    creation on, so what the children add to it is in [root] also when
    the call raises.  [name_dict] is only handed down. *)
Fixpoint feature_ide {D : Type} (self : Asn1Container) (root : Element)
  (name_dict : D) : Outcome unit * Element :=
  let sub_element t name :=
    mkElement t [("mandatory", mandatory self); ("name", name)] [] in
  match feature_kind (asn1_type self) with
  | FAlt =>
      let newRoot := sub_element "alt" (unique_ident self) in
      match nested self with
      | NDict fields =>
          let '(r, newRoot') :=
            feature_fields (fun value e => feature_ide value e name_dict)
              fields newRoot in
          (r, append_child root newRoot')
      | _ => (Raise AttributeError, append_child root newRoot)
      end
  | FAnd =>
      let newRoot := sub_element "and" (unique_ident self) in
      match nested self with
      | NDict fields =>
          let '(r, newRoot') :=
            feature_fields (fun value e => feature_ide value e name_dict)
              fields newRoot in
          (r, append_child root newRoot')
      | _ => (Raise AttributeError, append_child root newRoot)
      end
  | FSeqOf =>
      let newRoot :=
        sub_element "and" (String.append "seq_" (unique_ident self)) in
      match nested self with
      | NNode child =>
          let '(r, newRoot') := feature_ide child newRoot name_dict in
          (r, append_child root newRoot')
      | _ => (Raise AttributeError, append_child root newRoot)
      end
  | FFeature =>
      (Ok tt, append_child root (sub_element "feature" (unique_ident self)))
  end.

(** The number of feature leaves of an XML tree. *)
Fixpoint count_features (e : Element) : Z :=
  match e with
  | mkElement t _ ch =>
      (if (t =? "feature")%string then 1 else 0) +
      fold_right (fun c acc => count_features c + acc) 0 ch
  end.

(** No OPEN_TYPE node in the tree. *)
Inductive no_open_type : Asn1Container -> Prop :=
| no_open_type_intro (c : Asn1Container) :
    asn1_type c <> "OPEN_TYPE" ->
    nested_all no_open_type (nested c) ->
    no_open_type c.

(** ** [apply_recursive_expansion] (test/test_fuzz.py) *)

(** Lines 18-19: [num_expansions] passes of [expand_once] over the
    prototype, with the one history. *)
Fixpoint expand_times (n : nat) (asn1_prototype : Asn1Container)
  (ident_history_guided : IdentHistory)
  : Outcome unit * Asn1Container * IdentHistory :=
  match n with
  | O => (Ok tt, asn1_prototype, ident_history_guided)
  | S n' =>
      match expand_once asn1_prototype ident_history_guided with
      | (Ok _, p, h) => expand_times n' p h
      | (Raise e, p, h) => (Raise e, p, h)
      | (OutOfFuel, p, h) => (OutOfFuel, p, h)
      end
  end.

(** [apply_recursive_expansion]: [asn1_structure] is the schema object,
    whose [get_proto] builds the prototype from an empty history; the
    result of [remove_expandable] is dropped. *)
Definition apply_recursive_expansion (asn1_structure : Factory)
  (num_expansions : Z) : Outcome Asn1Container :=
  let '(asn1_prototype, h) := asn1_structure [] in
  match expand_times (Z.to_nat num_expansions) asn1_prototype h with
  | (Ok _, p, _) =>
      match remove_expandable p with
      | (Ok _, p') => Ok p'
      | (Raise e, _) => Raise e
      | (OutOfFuel, _) => OutOfFuel
      end
  | (Raise e, _, _) => Raise e
  | (OutOfFuel, _, _) => OutOfFuel
  end.

(** The feature leaves below a list of elements. *)
Definition count_all (es : list Element) : Z :=
  fold_right (fun c acc => count_features c + acc) 0 es.

(** A schema object whose prototype is [finite_choice]. *)
Definition finite_choice_structure : Factory :=
  fun h => (finite_choice, ("Alt", 1%nat) :: h).

(** ** What [expand_once] leaves of a tree *)

(** The tree after a call of [expand_once] against the tree before it:
    a node that holds a dict is the old node with a dict of the same keys
    in the same order, in which every child is either the prototype that
    the schema object of an EXPANDABLE child built, or the old child after
    the call on it; any other node is the old node. *)
Inductive expand_frame : Asn1Container -> Asn1Container -> Prop :=
| expand_frame_same (c : Asn1Container) : expand_frame c c
| expand_frame_dict (c : Asn1Container) (fields fields' : Fields) :
    nested c = NDict fields ->
    Forall2
      (fun kv kv' =>
         fst kv' = fst kv /\
         (expand_frame (snd kv) (snd kv') \/
          (asn1_type (snd kv) = "EXPANDABLE" /\
           exists get_proto h,
             nested (snd kv) = NFactory get_proto /\
             snd kv' = fst (get_proto h))))
      fields fields' ->
    expand_frame c (set_nested (NDict fields') c).

(** A child of a dict after the call against the child before it. *)
Definition expand_field (kv kv' : string * Asn1Container) : Prop :=
  fst kv' = fst kv /\
  (expand_frame (snd kv) (snd kv') \/
   (asn1_type (snd kv) = "EXPANDABLE" /\
    exists get_proto h,
      nested (snd kv) = NFactory get_proto /\
      snd kv' = fst (get_proto h))).

(** ** Well-founded induction on trees *)

Lemma height_field (c : Asn1Container) (fields : Fields) (kv : string * Asn1Container) :
  nested c = NDict fields -> In kv fields -> (height (snd kv) < height c)%nat.
Proof.
  intros Hn Hin. destruct c as [i t o n r s f]; simpl in *. subst n.
  apply Nat.lt_succ_r.
  induction fields as [|x rest IH]; simpl in *; [contradiction|].
  destruct Hin as [->|Hin]; [lia|]. specialize (IH Hin). lia.
Qed.

Lemma height_child (c child : Asn1Container) :
  nested c = NNode child -> (height child < height c)%nat.
Proof.
  intros Hn. destruct c as [i t o n r s f]; simpl in *. subst n. lia.
Qed.

Lemma container_ind (P : Asn1Container -> Prop) :
  (forall c,
      (forall fields kv, nested c = NDict fields -> In kv fields -> P (snd kv)) ->
      (forall child, nested c = NNode child -> P child) ->
      P c) ->
  forall c, P c.
Proof.
  intros step.
  assert (H : forall n c, (height c < n)%nat -> P c).
  { induction n as [|n IH]; intros c Hc; [lia|].
    apply step.
    - intros fields kv Hn Hin. apply IH.
      pose proof (@height_field c fields kv Hn Hin). lia.
    - intros child Hn. apply IH.
      pose proof (@height_child c child Hn). lia. }
  intros c. apply (H (S (height c))). lia.
Qed.

(** ** Computations on the random source never exhaust fuel *)

Create HintDb total_db.

Lemma total_ret {A : Type} (a : A) : total (ret a).
Proof. intros g; discriminate. Qed.

Lemma total_raise {A : Type} (e : PyExc) : total (@raise A e).
Proof. intros g; discriminate. Qed.

Lemma total_lift {A : Type} (o : Outcome A) : answers o -> total (lift o).
Proof. intros H g; exact H. Qed.

Lemma total_bind {A B : Type} (m : M A) (f : A -> M B) :
  total m -> (forall a, total (f a)) -> total (bind m f).
Proof.
  intros Hm Hf g. unfold bind. specialize (Hm g).
  destruct (m g) as [[a|e|] g']; simpl in *;
    [apply Hf | discriminate | contradiction].
Qed.

Lemma total_randbelow (n : Z) : total (randbelow n).
Proof. intros g; discriminate. Qed.

Lemma answers_range_get (r : list PyInt) (i : nat) : answers (range_get r i).
Proof. unfold range_get, answers; destruct (nth_error r i); discriminate. Qed.

Lemma answers_py_len (n : Nested Asn1Container) : answers (py_len n).
Proof. destruct n; discriminate. Qed.

Lemma answers_py_max (a : PyInt) (b : Z) : answers (py_max a b).
Proof. destruct a; discriminate. Qed.

Lemma answers_py_add (a : PyInt) (b : Z) : answers (py_add a b).
Proof. destruct a; discriminate. Qed.

#[local] Hint Resolve total_ret total_raise total_lift total_bind total_randbelow
  answers_range_get answers_py_len answers_py_max answers_py_add : total_db.

Ltac total_step :=
  repeat first
    [ progress intros
    | apply total_bind
    | apply total_ret
    | apply total_raise
    | apply total_randbelow
    | apply total_lift
    | match goal with
      | |- total (if ?b then _ else _) => destruct b
      | |- total (match ?x with _ => _ end) => destruct x
      end ];
  auto with total_db.

Lemma total_randrange (start stop : PyInt) (step : Z) :
  total (randrange start stop step).
Proof. unfold randrange. total_step. Qed.

Lemma total_better_randrange (start stop : PyInt) (step : Z) :
  total (better_randrange start stop step).
Proof. unfold better_randrange. total_step. apply total_randrange. Qed.

Lemma total_choice {A : Type} (seq : list A) : total (choice seq).
Proof. unfold choice. total_step. Qed.

Lemma total_repeatM {A : Type} (n : nat) (m : M A) :
  total m -> total (repeatM n m).
Proof. intros Hm. induction n as [|n IH]; simpl; total_step. Qed.

#[local] Hint Resolve total_randrange total_better_randrange total_choice
  total_repeatM : total_db.

Lemma total_py_range_len (len : PyInt) : total (py_range_len len).
Proof. unfold py_range_len. total_step. Qed.

#[local] Hint Resolve total_py_range_len : total_db.

Lemma total_generate_random_ascii_string (len : PyInt) :
  total (generate_random_ascii_string len).
Proof. unfold generate_random_ascii_string. total_step. Qed.

Lemma total_generate_random_number (len : PyInt) :
  total (generate_random_number len).
Proof. unfold generate_random_number. total_step. Qed.

Lemma total_randbytes (n : PyInt) : total (randbytes n).
Proof. unfold randbytes. total_step. Qed.

#[local] Hint Resolve total_generate_random_ascii_string
  total_generate_random_number total_randbytes : total_db.

Lemma total_fuzz_integer (self : Asn1Container) : total (fuzz_integer self).
Proof. unfold fuzz_integer. total_step. Qed.

Lemma total_fuzz_enumerated (self : Asn1Container) : total (fuzz_enumerated self).
Proof. unfold fuzz_enumerated. total_step. Qed.

Lemma total_fuzz_boolean : total fuzz_boolean.
Proof. unfold fuzz_boolean. total_step. Qed.

Lemma total_fuzz_octet_string (self : Asn1Container) :
  total (fuzz_octet_string self).
Proof. unfold fuzz_octet_string. total_step. Qed.

Lemma total_fuzz_bit_string (self : Asn1Container) : total (fuzz_bit_string self).
Proof. unfold fuzz_bit_string, named_bits_value. total_step. Qed.

Lemma total_fuzz_char_string (self : Asn1Container) :
  total (fuzz_char_string self).
Proof. unfold fuzz_char_string. total_step. Qed.

Lemma total_fuzz_numeric_string (self : Asn1Container) :
  total (fuzz_numeric_string self).
Proof. unfold fuzz_numeric_string. total_step. Qed.

Lemma total_open_ended_count (m : Z) (self : Asn1Container) :
  total (open_ended_count m self).
Proof. unfold open_ended_count. total_step. Qed.

Lemma total_bounded_count (m : Z) (self : Asn1Container) (r : list PyInt) (x : Z) :
  total (bounded_count m self r x).
Proof. unfold bounded_count. total_step. Qed.

Lemma answers_force_at_least_one (self : Asn1Container) (r : list PyInt) :
  answers (force_at_least_one self r).
Proof.
  unfold force_at_least_one, answers, obind, range_get.
  repeat match goal with
         | |- context [if ?b then _ else _] => destruct b
         | |- context [match nth_error ?l ?i with _ => _ end] =>
             destruct (nth_error l i)
         end; discriminate.
Qed.

(** The computations on the random source are kept folded in the proofs
    about the tree. *)
Arguments randbelow : simpl never.
Arguments randrange : simpl never.
Arguments better_randrange : simpl never.
Arguments choice : simpl never.
Arguments open_ended_count : simpl never.
Arguments bounded_count : simpl never.
Arguments force_at_least_one : simpl never.
Arguments skip_field : simpl never.
Arguments select_key : simpl never.
Arguments fuzz_integer : simpl never.
Arguments fuzz_enumerated : simpl never.
Arguments fuzz_boolean : simpl never.
Arguments fuzz_octet_string : simpl never.
Arguments fuzz_bit_string : simpl never.
Arguments fuzz_char_string : simpl never.
Arguments fuzz_numeric_string : simpl never.

Lemma seq_of_count_answers (m : Z) (self : Asn1Container) (g : Rng) :
  answers (fst (fst (seq_of_count m self g))).
Proof.
  unfold seq_of_count, answers.
  destruct (range self) as [r|].
  - pose proof (@answers_range_get r 1) as H1.
    destruct (range_get r 1) as [[range1|]|e|]; simpl; try discriminate.
    + pose proof (@total_bounded_count m self r range1 g) as H.
      destruct (bounded_count m self r range1 g); exact H.
    + pose proof (@answers_force_at_least_one self r) as H2.
      destruct (force_at_least_one self r) as [self1|e|]; simpl; try discriminate.
      * pose proof (@total_open_ended_count m self1 g) as H.
        destruct (open_ended_count m self1 g); exact H.
      * exfalso; apply H2; reflexivity.
    + exfalso; apply H1; reflexivity.
  - destruct (m =? 1); simpl; [discriminate|].
    pose proof (@total_randrange (Some 1) (Some m) 1 g) as H.
    destruct (randrange (Some 1) (Some m) 1 g) as [[n|e|] g']; simpl in *;
      [discriminate | discriminate | exfalso; apply H; reflexivity].
Qed.

(** Computing the count of a SEQUENCE OF changes at most the [range]. *)
Lemma seq_of_count_tree (m : Z) (self : Asn1Container) (g : Rng) :
  exists r, snd (fst (seq_of_count m self g)) = set_range r self.
Proof.
  assert (Hself : self = set_range (range self) self) by (destruct self; reflexivity).
  unfold seq_of_count.
  destruct (range self) as [r|] eqn:Hr.
  - destruct (range_get r 1) as [[range1|]|e|]; simpl;
      try (eexists; exact Hself).
    + destruct (bounded_count m self r range1 g); simpl.
      eexists; exact Hself.
    + unfold force_at_least_one, obind.
      destruct (negb (fully_covered self)); simpl.
      * destruct (range_get r 0) as [r0|e|]; simpl;
          try (eexists; exact Hself).
        destruct (pyint_eqb r0 (Some 0)).
        -- destruct (range_get r 1) as [r1|e|]; simpl;
             try (eexists; exact Hself).
           destruct (range_get r 2) as [r2|e|]; simpl;
             try (eexists; exact Hself).
           destruct (open_ended_count m _ g); simpl. eexists; reflexivity.
        -- destruct (open_ended_count m self g); simpl.
           eexists; exact Hself.
      * destruct (open_ended_count m self g); simpl.
        eexists; exact Hself.
  - destruct (m =? 1); simpl.
    + eexists; exact Hself.
    + destruct (randrange (Some 1) (Some m) 1 g); simpl.
      eexists; exact Hself.
Qed.

(** ** What every call of [fuzz] preserves, given what the calls on the
    children preserve *)

Lemma header_eq_refl (c : Asn1Container) : header_eq c c.
Proof. repeat split. Qed.

Lemma header_eq_trans (a b c : Asn1Container) :
  header_eq a b -> header_eq b c -> header_eq a c.
Proof.
  unfold header_eq. intros (H1 & H2 & H3 & H4) (H5 & H6 & H7 & H8).
  repeat split; congruence.
Qed.

Lemma fields_rel_refl (Q : Asn1Container -> Asn1Container -> Prop) :
  (forall c, Q c c) -> forall fields, fields_rel Q fields fields.
Proof.
  intros HQ fields. induction fields as [|kv rest IH]; constructor; auto.
Qed.

Lemma nested_rel_refl (Q : Asn1Container -> Asn1Container -> Prop) :
  (forall c, Q c c) -> forall n, nested_rel Q n n.
Proof.
  intros HQ n. destruct n; constructor; auto.
  apply fields_rel_refl; assumption.
Qed.

Section Preservation.

Variable Q : Asn1Container -> Asn1Container -> Prop.
Hypothesis Q_refl : forall c, Q c c.
Hypothesis Q_trans : forall a b c, Q a b -> Q b c -> Q a c.

Variable rec : Asn1Container -> Rng -> Res.
Variable allowlist : option (list string).
Variable coverage_aware : bool.
Variable max_seq_of_count : Z.

Hypothesis rec_Q : forall c g, Q c (res_tree (rec c g)).

Lemma fuzz_fields_rel (fields : Fields) :
  forall self_covered retNested g,
    fields_rel Q fields
      (snd (fst (fuzz_fields rec allowlist coverage_aware self_covered
                   fields retNested g))).
Proof.
  induction fields as [|[key value] rest IH]; intros sc retNested g; simpl.
  - constructor.
  - destruct (skip_field allowlist coverage_aware sc value g) as [[[|]|e|] g1].
    + specialize (IH sc retNested g1).
      destruct (fuzz_fields rec allowlist coverage_aware sc rest retNested g1)
        as [[r rest'] g2]; simpl in *.
      constructor; [split; [reflexivity | apply Q_refl] | exact IH].
    + pose proof (rec_Q value g1) as Hv.
      destruct (rec value g1) as [[[v|e|] value'] g2]; unfold res_tree in Hv;
        simpl in *.
      * match goal with
        | |- context [fuzz_fields _ _ _ _ rest ?r g2] =>
            specialize (IH sc r g2);
            destruct (fuzz_fields rec allowlist coverage_aware sc rest r g2)
              as [[r' rest'] g3]
        end; simpl in *.
        constructor; [split; [reflexivity | exact Hv] | exact IH].
      * constructor; [split; [reflexivity | exact Hv]
                     | apply fields_rel_refl; exact Q_refl].
      * constructor; [split; [reflexivity | exact Hv]
                     | apply fields_rel_refl; exact Q_refl].
    + simpl. apply fields_rel_refl; exact Q_refl.
    + simpl. apply fields_rel_refl; exact Q_refl.
Qed.

Lemma fuzz_first_rel (p : string -> Asn1Container -> bool) (fields : Fields) :
  forall g, fields_rel Q fields (snd (fst (fuzz_first rec p fields g))).
Proof.
  induction fields as [|[key value] rest IH]; intros g; simpl.
  - constructor.
  - destruct (p key value).
    + pose proof (rec_Q value g) as Hv.
      destruct (rec value g) as [[r value'] g']; unfold res_tree in Hv;
        simpl in *.
      constructor; [split; [reflexivity | exact Hv]
                   | apply fields_rel_refl; exact Q_refl].
    + specialize (IH g).
      destruct (fuzz_first rec p rest g) as [[o rest'] g']; simpl in *.
      constructor; [split; [reflexivity | apply Q_refl] | exact IH].
Qed.

Lemma fuzz_choice_rel (fields : Fields) (g : Rng) :
  fields_rel Q fields
    (snd (fst (fuzz_choice rec allowlist coverage_aware fields g))).
Proof.
  unfold fuzz_choice. destruct allowlist as [al|].
  - pose proof (fuzz_first_rel
                  (fun _ value => mem_string (unique_ident value) al) fields g) as H.
    destruct (fuzz_first rec _ fields g) as [[[[key r]|] fields'] g'];
      simpl in *; exact H.
  - destruct (select_key (keys (nested_filtered coverage_aware fields)) g)
      as [[selectedKey|e|] g1]; simpl;
      try (apply fields_rel_refl; exact Q_refl).
    pose proof (fuzz_first_rel
                  (fun key _ => (key =? selectedKey)%string) fields g1) as H.
    destruct (fuzz_first rec _ fields g1) as [[[[key r]|] fields'] g'];
      simpl in *; exact H.
Qed.

Lemma fuzz_elems_rel (n : nat) :
  forall child ret g,
    Q child (snd (fst (fuzz_elems rec n child ret g))).
Proof.
  induction n as [|n IH]; intros child ret g; simpl.
  - apply Q_refl.
  - pose proof (rec_Q child g) as Hc.
    destruct (rec child g) as [[[v|e|] child'] g']; unfold res_tree in Hc;
      simpl in *; try exact Hc.
    eapply Q_trans; [exact Hc | apply IH].
Qed.

(** The first [match] leaves identity, kind, optionality and the flag of
    the node alone, and its children are the old ones after the recursive
    calls. *)
Lemma generate_rel (k : Kind) (self : Asn1Container) (g : Rng) :
  let self1 := res_tree (generate rec allowlist coverage_aware
                           max_seq_of_count k self g) in
  header_eq self self1 /\
  fully_covered self1 = fully_covered self /\
  nested_rel Q (nested self) (nested self1).
Proof.
  assert (Hsame : header_eq self self /\ fully_covered self = fully_covered self /\
                  nested_rel Q (nested self) (nested self)).
  { split; [apply header_eq_refl|]. split; [reflexivity|].
    apply nested_rel_refl; exact Q_refl. }
  unfold res_tree.
  destruct k; simpl; unfold scalar;
    try match goal with
      | |- context [let '(_, _) := ?m g in _] => destruct (m g); simpl
      end;
    try exact Hsame.
  - (* SEQUENCE *)
    destruct (nested self) as [|fields| | |] eqn:Hn; simpl;
      try (rewrite Hn; exact Hsame).
    pose proof (fuzz_fields_rel fields (fully_covered self) [] g) as H.
    destruct (fuzz_fields rec allowlist coverage_aware (fully_covered self)
                fields [] g) as [[r fields'] g']; simpl in *.
    repeat split. constructor; exact H.
  - (* CHOICE *)
    destruct (nested self) as [|fields| | |] eqn:Hn; simpl;
      try (rewrite Hn; exact Hsame).
    pose proof (fuzz_choice_rel fields g) as H.
    destruct (fuzz_choice rec allowlist coverage_aware fields g)
      as [[r fields'] g']; simpl in *.
    repeat split. constructor; exact H.
  - (* SEQUENCE OF *)
    unfold fuzz_sequence_of.
    destruct (seq_of_count_tree max_seq_of_count self g) as [r' Hr'].
    destruct (seq_of_count max_seq_of_count self g) as [[[[n|]|e|] self1] g1];
      simpl in *; subst self1; simpl;
      try (repeat split; apply nested_rel_refl; exact Q_refl).
    destruct (n <=? 0); simpl;
      try (repeat split; apply nested_rel_refl; exact Q_refl).
    destruct (nested self) as [| |child| |] eqn:Hn; simpl;
      try (repeat split; rewrite Hn; apply nested_rel_refl; exact Q_refl).
    pose proof (fuzz_elems_rel (Z.to_nat n) child [] g1) as H.
    destruct (fuzz_elems rec (Z.to_nat n) child [] g1) as [[r child'] g2];
      simpl in *.
    repeat split. constructor; exact H.
Qed.

End Preservation.

(** ** Properties of the tree relations *)

Lemma fields_rel_impl (Q Q' : Asn1Container -> Asn1Container -> Prop)
  (l l' : Fields) :
  (forall kv v', In kv l -> Q (snd kv) v' -> Q' (snd kv) v') ->
  fields_rel Q l l' -> fields_rel Q' l l'.
Proof.
  intros Himp H. induction H as [|kv kv' l l' [Hk Hv] Hrest IH].
  - constructor.
  - constructor.
    + split; [exact Hk | apply Himp; [left; reflexivity | exact Hv]].
    + apply IH. intros kv0 v' Hin. apply Himp. right; exact Hin.
Qed.

Lemma nested_rel_impl (Q Q' : Asn1Container -> Asn1Container -> Prop)
  (n n' : Nested Asn1Container) :
  (forall v v', Q v v' -> Q' v v') -> nested_rel Q n n' -> nested_rel Q' n n'.
Proof.
  intros Himp H. destruct H; constructor; auto.
  eapply fields_rel_impl; [|eassumption]. intros; auto.
Qed.

Lemma tree_rel_refl (R : Asn1Container -> Asn1Container -> Prop) :
  (forall c, R c c) -> forall c, tree_rel R c c.
Proof.
  intros HR c. induction c as [c IHf IHc] using container_ind.
  constructor; auto.
  destruct (nested c) as [|fields|child| |] eqn:Hn; constructor.
  - specialize (IHf fields).
    assert (H : forall kv, In kv fields -> tree_rel R (snd kv) (snd kv))
      by (intros kv Hin; eapply IHf; [reflexivity | exact Hin]).
    clear IHf IHc Hn. induction fields as [|kv rest IH]; constructor.
    + split; [reflexivity | apply H; left; reflexivity].
    + apply IH. intros kv0 Hin. apply H. right; exact Hin.
  - apply IHc. reflexivity.
Qed.

Lemma tree_rel_trans (R : Asn1Container -> Asn1Container -> Prop) :
  (forall a b c, R a b -> R b c -> R a c) ->
  forall a b c, tree_rel R a b -> tree_rel R b c -> tree_rel R a c.
Proof.
  intros HR a. induction a as [a IHf IHc] using container_ind.
  intros b c Hab Hbc.
  destruct Hab as [a b Hi1 Ht1 Ho1 Hs1 HR1 Hn1].
  destruct Hbc as [b c Hi2 Ht2 Ho2 Hs2 HR2 Hn2].
  constructor; try congruence; [eapply HR; eassumption|].
  destruct Hn1 as [|l l' Hl|v v' Hv|l|f]; try exact Hn2.
  - remember (NDict l') as nb eqn:Hnb.
    destruct Hn2 as [|l1 l2 Hl2| | |]; try discriminate.
    injection Hnb as ->. constructor.
    assert (H : forall kv, In kv l ->
                forall x y, tree_rel R (snd kv) x -> tree_rel R x y ->
                            tree_rel R (snd kv) y).
    { intros kv Hin x y. eapply IHf; [reflexivity | exact Hin]. }
    clear IHf IHc. revert l2 Hl2.
    induction Hl as [|kv kv' l l' [Hk Hv] Hrest IH]; intros l2 Hl2.
    + inversion Hl2; constructor.
    + inversion Hl2 as [|kv1 kv2 l1' l2' [Hk2 Hv2] Hrest2]; subst.
      constructor.
      * split; [congruence|]. eapply H; [left; reflexivity | exact Hv | exact Hv2].
      * apply IH; [|exact Hrest2]. intros kv0 Hin. apply H. right; exact Hin.
  - remember (NNode v') as nb eqn:Hnb.
    destruct Hn2 as [| |v1 v2 Hv2| |]; try discriminate.
    injection Hnb as ->. constructor.
    eapply IHc; [reflexivity | exact Hv | exact Hv2].
Qed.

Lemma tree_rel_impl (R R' : Asn1Container -> Asn1Container -> Prop) :
  (forall c c', R c c' -> R' c c') ->
  forall c c', tree_rel R c c' -> tree_rel R' c c'.
Proof.
  intros HR c. induction c as [c IHf IHc] using container_ind.
  intros c' H. destruct H as [c c' Hi Ht Ho Hs HRc Hn].
  constructor; auto.
  destruct Hn as [|l l' Hl|v v' Hv|l|f]; constructor.
  - eapply fields_rel_impl; [|exact Hl].
    intros kv v' Hin. eapply IHf; [reflexivity | exact Hin].
  - eapply IHc; [reflexivity | exact Hv].
Qed.

Lemma height_unfold (c : Asn1Container) :
  height c =
  match nested c with
  | NDict fields =>
      S (fold_right (fun kv acc => Nat.max (height (snd kv)) acc) O fields)
  | NNode child => S (height child)
  | _ => O
  end.
Proof. destruct c; reflexivity. Qed.

Lemma same_shape_height (c c' : Asn1Container) :
  same_shape c c' -> height c = height c'.
Proof.
  revert c'. induction c as [c IHf IHc] using container_ind.
  intros c' H. destruct H as [c c' _ _ _ _ _ Hn].
  rewrite (height_unfold c), (height_unfold c').
  destruct Hn as [|l l' Hl|v v' Hv|l|f]; try reflexivity.
  - f_equal.
    assert (H : forall kv, In kv l -> forall x, same_shape (snd kv) x ->
                                                height (snd kv) = height x)
      by (intros kv Hin; eapply IHf; [reflexivity | exact Hin]).
    clear IHf IHc.
    induction Hl as [|kv kv' l l' [Hk Hv] Hrest IH]; simpl; [reflexivity|].
    rewrite (H kv (or_introl eq_refl) _ Hv).
    rewrite IH; [reflexivity|]. intros kv0 Hin. apply H. right; exact Hin.
  - f_equal. eapply IHc; [reflexivity | exact Hv].
Qed.

(** ** The invariant of [fuzz] *)

Lemma consistent_refl_kept (c : Asn1Container) : coverage_kept c c.
Proof. apply tree_rel_refl. intros x Hx; exact Hx. Qed.

Lemma fuzz_inv_refl (c : Asn1Container) : fuzz_inv c c.
Proof.
  split.
  - apply tree_rel_refl. intros; exact I.
  - intros Hc. split; [apply consistent_refl_kept | exact Hc].
Qed.

Lemma fuzz_inv_trans (a b c : Asn1Container) :
  fuzz_inv a b -> fuzz_inv b c -> fuzz_inv a c.
Proof.
  intros [Hs1 Hc1] [Hs2 Hc2]. split.
  - eapply tree_rel_trans; [|exact Hs1|exact Hs2]. intros; exact I.
  - intros Ha. destruct (Hc1 Ha) as [Hk1 Hb]. destruct (Hc2 Hb) as [Hk2 Hc].
    split; [|exact Hc].
    eapply tree_rel_trans; [|exact Hk1|exact Hk2].
    unfold flag_kept. intros x y z Hxy Hyz Hx. auto.
Qed.

Lemma coverage_kept_flag (c c' : Asn1Container) :
  coverage_kept c c' -> fully_covered c = true -> fully_covered c' = true.
Proof. intros H. destruct H as [c c' _ _ _ _ HR _]. exact HR. Qed.

Lemma all_covered_fields_kept (l l' : Fields) :
  fields_rel coverage_kept l l' ->
  all_covered_fields l = true -> all_covered_fields l' = true.
Proof.
  unfold all_covered_fields.
  intros H. induction H as [|kv kv' l l' [Hk Hv] Hrest IH]; simpl; [auto|].
  intros Hall. apply andb_true_iff in Hall. destruct Hall as [H1 H2].
  apply andb_true_iff. split; [eapply coverage_kept_flag; eassumption | auto].
Qed.

Lemma children_covered_kept (c c' : Asn1Container) :
  asn1_type c = asn1_type c' ->
  nested_rel coverage_kept (nested c) (nested c') ->
  children_covered c = true -> children_covered c' = true.
Proof.
  intros Ht Hn. unfold children_covered. rewrite <- Ht.
  destruct Hn as [|l l' Hl|v v' Hv|l|f]; try (intros; assumption).
  - destruct (classify (asn1_type c)); try reflexivity;
      apply all_covered_fields_kept; exact Hl.
  - destruct (classify (asn1_type c)); try reflexivity.
    eapply coverage_kept_flag; exact Hv.
Qed.

Lemma nested_inv_consistent (n n' : Nested Asn1Container) :
  nested_rel fuzz_inv n n' -> nested_all consistent n ->
  nested_rel coverage_kept n n' /\ nested_all consistent n'.
Proof.
  intros Hrel Hall.
  destruct Hrel as [|l l' Hl|v v' [_ Hv]|l|f].
  - split; constructor.
  - inversion Hall as [|l0 Hl0| | |]; subst.
    assert (H : fields_rel coverage_kept l l' /\
                Forall (fun kv => consistent (snd kv)) l').
    { clear Hall. induction Hl as [|kv kv' l l' [Hk [_ Hv]] Hrest IH].
      - split; constructor.
      - inversion Hl0 as [|x xs Hx Hxs]; subst.
        destruct (Hv Hx) as [Hkept Hcons]. destruct (IH Hxs) as [IH1 IH2].
        split; constructor; auto. }
    destruct H as [H1 H2]. split; constructor; assumption.
  - inversion Hall as [| |v0 Hv0| |]; subst.
    destruct (Hv Hv0) as [Hkept Hcons]. split; constructor; assumption.
  - split; constructor.
  - split; constructor.
Qed.

(** A node whose children went through calls that keep the invariant, and
    whose flag is either untouched or recomputed from the children. *)
Lemma fuzz_inv_node (self self' : Asn1Container) :
  header_eq self self' ->
  nested_rel fuzz_inv (nested self) (nested self') ->
  (fully_covered self' = fully_covered self \/
   fully_covered self' = children_covered self') ->
  fuzz_inv self self'.
Proof.
  intros (Hi & Ht & Ho & Hs) Hn Hflag. split.
  - constructor; auto; [exact I|].
    eapply nested_rel_impl; [|exact Hn]. intros v v' [H _]; exact H.
  - intros Hc. destruct Hc as [self Hself Hall].
    destruct (nested_inv_consistent Hn Hall) as [Hkept Hall'].
    assert (Hch : children_covered self = true -> children_covered self' = true)
      by (apply children_covered_kept; assumption).
    split.
    + constructor; auto.
      intros Hcov. destruct Hflag as [Hf|Hf]; rewrite Hf; auto.
    + constructor; [|exact Hall'].
      intros Hcov. destruct Hflag as [Hf|Hf]; [|congruence].
      rewrite Hf in Hcov. auto.
Qed.

(** The second [match]: the flag is recomputed from the children. *)
Lemma update_coverage_spec (self : Asn1Container) :
  let self2 := snd (update_coverage (classify (asn1_type self)) self) in
  header_eq self self2 /\ nested self2 = nested self /\
  (fully_covered self2 = fully_covered self \/
   fully_covered self2 = children_covered self2).
Proof.
  unfold update_coverage, children_covered.
  destruct (classify (asn1_type self)) eqn:Hk; simpl;
    try (rewrite Hk; split; [repeat split | split; [reflexivity | right; reflexivity]]);
    destruct (nested self) eqn:Hn; simpl; rewrite ?Hk, ?Hn;
    (split; [repeat split | split; [reflexivity|]]);
    first [right; reflexivity | left; reflexivity].
Qed.

Section BodyInvariant.

Variable rec : Asn1Container -> Rng -> Res.
Variable allowlist : option (list string).
Variable coverage_aware : bool.
Variable max_seq_of_count : Z.

Hypothesis rec_inv : forall c g, fuzz_inv c (res_tree (rec c g)).

Lemma fuzz_body_inv (self : Asn1Container) (g : Rng) :
  fuzz_inv self
    (res_tree (fuzz_body rec allowlist coverage_aware max_seq_of_count self g)).
Proof.
  unfold fuzz_body, res_tree.
  pose proof (@generate_rel fuzz_inv fuzz_inv_refl fuzz_inv_trans rec allowlist
                coverage_aware max_seq_of_count rec_inv
                (classify (asn1_type self)) self g)
    as (Hh & Hf & Hn).
  unfold res_tree in *.
  destruct (generate rec allowlist coverage_aware max_seq_of_count
              (classify (asn1_type self)) self g) as [[[v|e|] self1] g1];
    simpl in *;
    try (apply fuzz_inv_node; [exact Hh | exact Hn | left; exact Hf]).
  assert (Ht : asn1_type self = asn1_type self1) by apply Hh.
  rewrite Ht.
  pose proof (update_coverage_spec self1) as (Hh2 & Hn2 & Hf2).
  destruct (update_coverage (classify (asn1_type self1)) self1)
    as [[u|e|] self2]; simpl in *;
    (apply fuzz_inv_node;
     [ eapply header_eq_trans; eassumption
     | rewrite Hn2; exact Hn
     | destruct Hf2 as [Hf2|Hf2];
       [left; congruence | right; exact Hf2] ]).
Qed.

End BodyInvariant.

Lemma fuzz_fuel_inv (fuel : nat) (al bl : option (list string)) (ca : bool)
  (m : Z) :
  forall self g, fuzz_inv self (res_tree (fuzz_fuel fuel al bl ca m self g)).
Proof.
  induction fuel as [|fuel IH]; intros self g; simpl.
  - apply fuzz_inv_refl.
  - apply fuzz_body_inv. exact IH.
Qed.

Lemma fuzz_fuel_height (fuel : nat) (al bl : option (list string)) (ca : bool)
  (m : Z) (self : Asn1Container) (g : Rng) :
  height (res_tree (fuzz_fuel fuel al bl ca m self g)) = height self.
Proof.
  symmetry. apply same_shape_height. apply fuzz_fuel_inv.
Qed.

(** ** The recursion budget does not matter *)

Section BodyExtensionality.

Variables rec1 rec2 : Asn1Container -> Rng -> Res.
Variable allowlist : option (list string).
Variable coverage_aware : bool.
Variable max_seq_of_count : Z.

(** The two recursive calls agree on a set of nodes that the calls do not
    leave. *)
Variable D : Asn1Container -> Prop.
Hypothesis agree : forall c g, D c -> rec1 c g = rec2 c g.
Hypothesis closed : forall c g, D c -> D (res_tree (rec1 c g)).

Lemma fuzz_fields_ext (fields : Fields) :
  Forall (fun kv => D (snd kv)) fields ->
  forall self_covered retNested g,
    fuzz_fields rec1 allowlist coverage_aware self_covered fields retNested g =
    fuzz_fields rec2 allowlist coverage_aware self_covered fields retNested g.
Proof.
  induction 1 as [|[key value] rest Hv Hrest IH]; intros sc retNested g;
    simpl in *; [reflexivity|].
  destruct (skip_field allowlist coverage_aware sc value g) as [[[|]|e|] g1];
    try reflexivity.
  - rewrite IH. reflexivity.
  - rewrite <- (agree g1 Hv).
    destruct (rec1 value g1) as [[[v|e|] value'] g2]; try reflexivity.
    rewrite IH. reflexivity.
Qed.

Lemma fuzz_first_ext (p : string -> Asn1Container -> bool) (fields : Fields) :
  Forall (fun kv => D (snd kv)) fields ->
  forall g, fuzz_first rec1 p fields g = fuzz_first rec2 p fields g.
Proof.
  induction 1 as [|[key value] rest Hv Hrest IH]; intros g; simpl in *;
    [reflexivity|].
  destruct (p key value).
  - rewrite <- (agree g Hv). reflexivity.
  - rewrite IH. reflexivity.
Qed.

Lemma fuzz_elems_ext (n : nat) :
  forall child ret g,
    D child ->
    fuzz_elems rec1 n child ret g = fuzz_elems rec2 n child ret g.
Proof.
  induction n as [|n IH]; intros child ret g Hd; simpl; [reflexivity|].
  rewrite <- (agree g Hd).
  pose proof (closed g Hd) as Hd'. unfold res_tree in Hd'.
  destruct (rec1 child g) as [[[v|e|] child'] g']; simpl in *;
    try reflexivity.
  apply IH. exact Hd'.
Qed.

Lemma generate_ext (k : Kind) (self : Asn1Container) (g : Rng) :
  nested_all D (nested self) ->
  generate rec1 allowlist coverage_aware max_seq_of_count k self g =
  generate rec2 allowlist coverage_aware max_seq_of_count k self g.
Proof.
  intros Hall. destruct k; simpl; try reflexivity.
  - destruct Hall as [|l Hl|v Hv|l|f]; try reflexivity.
    rewrite (fuzz_fields_ext Hl). reflexivity.
  - destruct Hall as [|l Hl|v Hv|l|f]; try reflexivity.
    unfold fuzz_choice. destruct allowlist as [al|].
    + rewrite (fuzz_first_ext _ Hl). reflexivity.
    + destruct (select_key (keys (nested_filtered coverage_aware l)) g)
        as [[selectedKey|e|] g1]; try reflexivity.
      rewrite (fuzz_first_ext _ Hl). reflexivity.
  - unfold fuzz_sequence_of.
    destruct (seq_of_count_tree max_seq_of_count self g) as [r' Hr'].
    destruct (seq_of_count max_seq_of_count self g) as [[[[n|]|e|] self1] g1];
      simpl in *; try reflexivity.
    subst self1. simpl.
    destruct (n <=? 0); [reflexivity|].
    destruct Hall as [|l Hl|v Hv|l|f]; try reflexivity.
    rewrite (fuzz_elems_ext (Z.to_nat n) [] g1 Hv). reflexivity.
Qed.

Lemma fuzz_body_ext (self : Asn1Container) (g : Rng) :
  nested_all D (nested self) ->
  fuzz_body rec1 allowlist coverage_aware max_seq_of_count self g =
  fuzz_body rec2 allowlist coverage_aware max_seq_of_count self g.
Proof.
  intros Hall. unfold fuzz_body.
  rewrite (@generate_ext (classify (asn1_type self)) self g Hall). reflexivity.
Qed.

End BodyExtensionality.

Lemma nested_all_below (self : Asn1Container) :
  nested_all (fun c => (height c < height self)%nat) (nested self).
Proof.
  destruct (nested self) as [|fields|child| |] eqn:Hn; constructor.
  - apply Forall_forall. intros kv Hin. eapply height_field; eassumption.
  - apply height_child; assumption.
Qed.

Lemma nested_all_impl (P P' : Asn1Container -> Prop) (n : Nested Asn1Container) :
  (forall c, P c -> P' c) -> nested_all P n -> nested_all P' n.
Proof.
  intros Himp H. destruct H; constructor; auto.
  eapply Forall_impl; [|eassumption]. intros kv; apply Himp.
Qed.

Lemma fuzz_fuel_irrelevant (al bl : option (list string)) (ca : bool) (m : Z) :
  forall n1 n2 self g,
    (height self < n1)%nat -> (height self < n2)%nat ->
    fuzz_fuel n1 al bl ca m self g = fuzz_fuel n2 al bl ca m self g.
Proof.
  induction n1 as [|n1 IH]; intros n2 self g H1 H2; [lia|].
  destruct n2 as [|n2]; [lia|]. simpl.
  apply fuzz_body_ext
    with (D := fun c => (height c < n1)%nat /\ (height c < n2)%nat).
  - intros c g0 [Hc1 Hc2]. apply IH; assumption.
  - intros c g0 Hc. rewrite fuzz_fuel_height. exact Hc.
  - eapply nested_all_impl; [|apply nested_all_below].
    simpl. intros c Hc. lia.
Qed.

(** [fuzz] satisfies the recursive equation of the Python method. *)
Lemma fuzz_equation (al bl : option (list string)) (ca : bool) (m : Z)
  (self : Asn1Container) (g : Rng) :
  fuzz al bl ca m self g = fuzz_body (fuzz al bl ca m) al ca m self g.
Proof.
  unfold fuzz at 1. simpl.
  apply fuzz_body_ext with (D := fun c => (height c < height self)%nat).
  - intros c g0 Hc. unfold fuzz. apply fuzz_fuel_irrelevant; lia.
  - intros c g0 Hc. rewrite fuzz_fuel_height. exact Hc.
  - apply nested_all_below.
Qed.

Lemma fuzz_inv_holds (al bl : option (list string)) (ca : bool) (m : Z)
  (self : Asn1Container) (g : Rng) :
  fuzz_inv self (res_tree (fuzz al bl ca m self g)).
Proof. apply fuzz_fuel_inv. Qed.

(** ** [fuzz] always answers *)

Section BodyAnswers.

Variable rec : Asn1Container -> Rng -> Res.
Variable allowlist : option (list string).
Variable coverage_aware : bool.
Variable max_seq_of_count : Z.

Variable D : Asn1Container -> Prop.
Hypothesis rec_answers : forall c g, D c -> answers (res_outcome (rec c g)).
Hypothesis closed : forall c g, D c -> D (res_tree (rec c g)).

Lemma skip_field_total (sc : bool) (value : Asn1Container) :
  total (skip_field allowlist coverage_aware sc value).
Proof. unfold skip_field. total_step. Qed.

Lemma select_key_total (l : list string) : total (select_key l).
Proof. unfold select_key. total_step. Qed.

Lemma fuzz_fields_answers (fields : Fields) :
  Forall (fun kv => D (snd kv)) fields ->
  forall self_covered retNested g,
    answers (fst (fst (fuzz_fields rec allowlist coverage_aware self_covered
                         fields retNested g))).
Proof.
  induction 1 as [|[key value] rest Hv Hrest IH]; intros sc retNested g;
    simpl in *; [discriminate|].
  pose proof (@skip_field_total sc value g) as Hs.
  destruct (skip_field allowlist coverage_aware sc value g) as [[[|]|e|] g1];
    simpl in *; try discriminate; try contradiction.
  - specialize (IH sc retNested g1).
    destruct (fuzz_fields rec allowlist coverage_aware sc rest retNested g1)
      as [[r rest'] g2]; exact IH.
  - pose proof (rec_answers g1 Hv) as Hr. unfold res_outcome in Hr.
    destruct (rec value g1) as [[[v|e|] value'] g2]; simpl in *;
      try discriminate; try contradiction.
    match goal with
    | |- context [fuzz_fields _ _ _ _ rest ?r g2] =>
        specialize (IH sc r g2);
        destruct (fuzz_fields rec allowlist coverage_aware sc rest r g2)
          as [[r' rest'] g3]
    end. exact IH.
Qed.

Lemma fuzz_first_answers (p : string -> Asn1Container -> bool)
  (fields : Fields) :
  Forall (fun kv => D (snd kv)) fields ->
  forall g key r,
    fst (fst (fuzz_first rec p fields g)) = Some (key, r) -> answers r.
Proof.
  induction 1 as [|[k value] rest Hv Hrest IH]; intros g key r; simpl in *;
    [discriminate|].
  destruct (p k value).
  - pose proof (rec_answers g Hv) as Hr. unfold res_outcome in Hr.
    destruct (rec value g) as [[r0 value'] g']; simpl in *.
    intros Heq; injection Heq as _ <-. exact Hr.
  - specialize (IH g key r).
    destruct (fuzz_first rec p rest g) as [[o rest'] g']; simpl in *.
    exact IH.
Qed.

Lemma fuzz_elems_answers (n : nat) :
  forall child ret g,
    D child -> answers (fst (fst (fuzz_elems rec n child ret g))).
Proof.
  induction n as [|n IH]; intros child ret g Hd; simpl; [discriminate|].
  pose proof (rec_answers g Hd) as Hr. pose proof (closed g Hd) as Hd'.
  unfold res_outcome, res_tree in *.
  destruct (rec child g) as [[[v|e|] child'] g']; simpl in *;
    try discriminate; try contradiction.
  apply IH. exact Hd'.
Qed.

Lemma fuzz_body_answers (self : Asn1Container) (g : Rng) :
  nested_all D (nested self) ->
  answers (res_outcome
             (fuzz_body rec allowlist coverage_aware max_seq_of_count self g)).
Proof.
  intros Hall. unfold fuzz_body, res_outcome.
  assert (Hgen : answers (fst (fst (generate rec allowlist coverage_aware
                    max_seq_of_count (classify (asn1_type self)) self g)))).
  { destruct (classify (asn1_type self)); simpl; unfold scalar;
      try discriminate;
      try match goal with
        | |- context [let '(_, _) := ?m g in _] =>
            let H := fresh in
            assert (H : total m) by auto using total_fuzz_integer,
              total_fuzz_enumerated, total_fuzz_boolean,
              total_fuzz_octet_string, total_fuzz_bit_string,
              total_fuzz_char_string, total_fuzz_numeric_string;
            specialize (H g); destruct (m g); exact H
        end.
    - destruct Hall as [|l Hl|v Hv|l|f]; try discriminate.
      pose proof (fuzz_fields_answers Hl (fully_covered self) [] g) as H.
      destruct (fuzz_fields rec allowlist coverage_aware (fully_covered self)
                  l [] g) as [[[r|e|] fields'] g']; simpl in *;
        try discriminate; contradiction.
    - destruct Hall as [|l Hl|v Hv|l|f]; try discriminate.
      unfold fuzz_choice. destruct allowlist as [al|].
      + pose proof (@fuzz_first_answers
                      (fun _ value => mem_string (unique_ident value) al)
                      l Hl g) as H.
        destruct (fuzz_first rec _ l g) as [[[[key r]|] fields'] g'];
          simpl in *; [|discriminate].
        specialize (H key r eq_refl).
        destruct r; simpl; try discriminate. contradiction.
      + pose proof (@select_key_total
                      (keys (nested_filtered coverage_aware l)) g) as Hs.
        destruct (select_key (keys (nested_filtered coverage_aware l)) g)
          as [[selectedKey|e|] g1]; simpl in *; try discriminate;
          try contradiction.
        pose proof (@fuzz_first_answers
                      (fun key _ => (key =? selectedKey)%string) l Hl g1) as H.
        destruct (fuzz_first rec _ l g1) as [[[[key r]|] fields'] g'];
          simpl in *; [|discriminate].
        specialize (H key r eq_refl).
        destruct r; simpl; try discriminate. contradiction.
    - unfold fuzz_sequence_of.
      pose proof (seq_of_count_answers max_seq_of_count self g) as Hc.
      destruct (seq_of_count_tree max_seq_of_count self g) as [r' Hr'].
      destruct (seq_of_count max_seq_of_count self g)
        as [[[[n|]|e|] self1] g1]; simpl in *; try discriminate;
        try contradiction.
      subst self1. simpl.
      destruct (n <=? 0); [discriminate|].
      destruct Hall as [|l Hl|v Hv|l|f]; try discriminate.
      pose proof (fuzz_elems_answers (Z.to_nat n) [] g1 Hv) as H.
      destruct (fuzz_elems rec (Z.to_nat n) v [] g1) as [[[r|e|] c'] g2];
        simpl in *; try discriminate. contradiction. }
  destruct (generate rec allowlist coverage_aware max_seq_of_count
              (classify (asn1_type self)) self g) as [[[v|e|] self1] g1];
    simpl in *; try discriminate; try contradiction.
  destruct (classify (asn1_type self)); simpl; try discriminate;
    destruct (nested self1); discriminate.
Qed.

End BodyAnswers.

Lemma fuzz_fuel_answers (al bl : option (list string)) (ca : bool) (m : Z) :
  forall fuel self g,
    (height self < fuel)%nat ->
    answers (res_outcome (fuzz_fuel fuel al bl ca m self g)).
Proof.
  induction fuel as [|fuel IH]; intros self g Hh; [lia|]. simpl.
  apply fuzz_body_answers with (D := fun c => (height c < fuel)%nat).
  - intros c g0 Hc. apply IH. exact Hc.
  - intros c g0 Hc. rewrite fuzz_fuel_height. exact Hc.
  - eapply nested_all_impl; [|apply nested_all_below].
    simpl. intros c Hc. lia.
Qed.

(** Every call of [fuzz] returns or raises: the budget [fuzz] gives itself
    is never exhausted. *)
Lemma fuzz_total (al bl : option (list string)) (ca : bool) (m : Z)
  (self : Asn1Container) (g : Rng) :
  res_outcome (fuzz al bl ca m self g) <> OutOfFuel.
Proof. apply fuzz_fuel_answers. lia. Qed.

(** ** The only change besides the flags *)

Lemma range_frame_refl (c : Asn1Container) : range_frame c c.
Proof. split; [reflexivity | left; reflexivity]. Qed.

Lemma range_frame_trans (a b c : Asn1Container) :
  range_frame a b -> range_frame b c -> range_frame a c.
Proof.
  intros [Ht1 H1] [Ht2 H2]. split; [congruence|].
  destruct H1 as [H1|(Hk1 & r & r2 & Hr & H0 & Hn1 & Hn2 & Hr')].
  - destruct H2 as [H2|(Hk2 & r & r2 & Hr & H0 & Hn1 & Hn2 & Hr')].
    + left; congruence.
    + right. split; [congruence|].
      exists r, r2. repeat split; congruence.
  - destruct H2 as [H2|(Hk2 & s & s2 & Hs & Hs0 & _)].
    + right. split; [exact Hk1|].
      exists r, r2. repeat split; congruence.
    + exfalso. rewrite Hr' in Hs. injection Hs as <-. discriminate Hs0.
Qed.

Lemma seq_of_count_range (m : Z) (self : Asn1Container) (g : Rng) :
  snd (fst (seq_of_count m self g)) = self \/
  exists r r2,
    range self = Some r /\ nth_error r 0 = Some (Some 0) /\
    nth_error r 1 = Some None /\ nth_error r 2 = Some r2 /\
    snd (fst (seq_of_count m self g)) = set_range (Some [Some 1; None; r2]) self.
Proof.
  unfold seq_of_count, force_at_least_one, obind, range_get.
  destruct (range self) as [r|] eqn:Hr.
  - destruct (nth_error r 1) as [[range1|]|] eqn:H1;
      [destruct (bounded_count m self r range1 g); left; reflexivity
      | | left; reflexivity].
    destruct (negb (fully_covered self));
      [|destruct (open_ended_count m self g); left; reflexivity].
    destruct (nth_error r 0) as [[z|]|] eqn:H0;
      cbv beta iota delta [pyint_eqb];
      try (left; reflexivity);
      try (destruct (open_ended_count m self g); left; reflexivity).
    destruct (z =? 0) eqn:Hz;
      [|destruct (open_ended_count m self g); left; reflexivity].
    apply Z.eqb_eq in Hz. subst z.
    destruct (nth_error r 2) as [r2|] eqn:H2; [|left; reflexivity].
    right. exists r, r2. repeat split; try assumption.
    match goal with
    | |- context [open_ended_count m ?c g] =>
        destruct (open_ended_count m c g)
    end. reflexivity.
  - destruct (m =? 1); [left; reflexivity|].
    destruct (randrange (Some 1) (Some m) 1 g); left; reflexivity.
Qed.

Section BodyFrame.

Variable rec : Asn1Container -> Rng -> Res.
Variable allowlist : option (list string).
Variable coverage_aware : bool.
Variable max_seq_of_count : Z.

Lemma generate_range (k : Kind) (self : Asn1Container) (g : Rng) :
  let self1 := res_tree (generate rec allowlist coverage_aware
                           max_seq_of_count k self g) in
  range self1 = range self \/
  (k = KSequenceOf /\
   exists r r2,
     range self = Some r /\ nth_error r 0 = Some (Some 0) /\
     nth_error r 1 = Some None /\ nth_error r 2 = Some r2 /\
     range self1 = Some [Some 1; None; r2]).
Proof.
  unfold res_tree.
  destruct k; simpl; unfold scalar;
    try match goal with
      | |- context [let '(_, _) := ?m g in _] => destruct (m g); simpl
      end;
    try (left; reflexivity).
  - destruct (nested self) as [|fields| | |]; simpl; try (left; reflexivity).
    destruct (fuzz_fields rec allowlist coverage_aware (fully_covered self)
                fields [] g) as [[r fields'] g']; simpl. left; reflexivity.
  - destruct (nested self) as [|fields| | |]; simpl; try (left; reflexivity).
    destruct (fuzz_choice rec allowlist coverage_aware fields g)
      as [[r fields'] g']; simpl. left; reflexivity.
  - unfold fuzz_sequence_of.
    assert (H : forall self1 : Asn1Container,
               (self1 = self \/
                exists r r2,
                  range self = Some r /\ nth_error r 0 = Some (Some 0) /\
                  nth_error r 1 = Some None /\ nth_error r 2 = Some r2 /\
                  self1 = set_range (Some [Some 1; None; r2]) self) ->
               forall n, range (set_nested n self1) = range self1 ->
               (range self1 = range self \/
                (KSequenceOf = KSequenceOf /\
                 exists r r2,
                   range self = Some r /\ nth_error r 0 = Some (Some 0) /\
                   nth_error r 1 = Some None /\ nth_error r 2 = Some r2 /\
                   range self1 = Some [Some 1; None; r2]))).
    { intros self1 [->|(r & r2 & Hr & H0 & H1 & H2 & ->)] n _.
      - left; reflexivity.
      - right. split; [reflexivity|]. exists r, r2. repeat split; assumption. }
    pose proof (seq_of_count_range max_seq_of_count self g) as Hc.
    destruct (seq_of_count max_seq_of_count self g) as [[[[n|]|e|] self1] g1];
      simpl in *; try (apply (H self1 Hc NNone); reflexivity).
    destruct (n <=? 0); simpl; [apply (H self1 Hc NNone); reflexivity|].
    destruct (nested self1) as [| |child| |]; simpl;
      try (apply (H self1 Hc NNone); reflexivity).
    destruct (fuzz_elems rec (Z.to_nat n) child [] g1) as [[r child'] g2];
      simpl. apply (H self1 Hc NNone); reflexivity.
Qed.

Hypothesis rec_frame : forall c g, tree_rel range_frame c (res_tree (rec c g)).

Lemma fuzz_body_frame (self : Asn1Container) (g : Rng) :
  tree_rel range_frame self
    (res_tree (fuzz_body rec allowlist coverage_aware max_seq_of_count self g)).
Proof.
  assert (Hrefl : forall c, tree_rel range_frame c c)
    by (apply tree_rel_refl; exact range_frame_refl).
  assert (Htrans : forall a b c, tree_rel range_frame a b ->
                                 tree_rel range_frame b c ->
                                 tree_rel range_frame a c)
    by (apply tree_rel_trans; exact range_frame_trans).
  unfold fuzz_body, res_tree.
  pose proof (@generate_rel (tree_rel range_frame) Hrefl Htrans rec allowlist
                coverage_aware max_seq_of_count rec_frame
                (classify (asn1_type self)) self g) as (Hh & _ & Hn).
  pose proof (generate_range (classify (asn1_type self)) self g) as Hr.
  unfold res_tree in *.
  destruct (generate rec allowlist coverage_aware max_seq_of_count
              (classify (asn1_type self)) self g) as [[o self1] g1];
    simpl in *.
  assert (Hframe : range_frame self self1).
  { destruct Hh as (_ & Ht & _). split; [symmetry; exact Ht|].
    destruct Hr as [Hr|[Hk Hr]]; [left; exact Hr | right].
    split; assumption. }
  assert (Hres : forall self2,
             header_eq self1 self2 -> nested self2 = nested self1 ->
             range self2 = range self1 -> tree_rel range_frame self self2).
  { intros self2 (Hi2 & Ht2 & Ho2 & Hs2) Hn2 Hr2.
    destruct Hh as (Hi & Ht & Ho & Hs).
    constructor; try congruence.
    destruct Hframe as [Hft Hfr]. split; [congruence|].
    rewrite Hr2. exact Hfr. }
  destruct o as [v|e|];
    try (apply Hres; [apply header_eq_refl | reflexivity | reflexivity]).
  pose proof (update_coverage_spec self1) as (Hh2 & Hn2 & _).
  assert (Ht : asn1_type self = asn1_type self1) by apply Hh.
  rewrite Ht.
  assert (Hr2 : range (snd (update_coverage (classify (asn1_type self1)) self1))
                = range self1).
  { unfold update_coverage.
    destruct (classify (asn1_type self1)); simpl; try reflexivity;
      destruct (nested self1); reflexivity. }
  destruct (update_coverage (classify (asn1_type self1)) self1)
    as [[u|e|] self2]; simpl in *; apply Hres; assumption.
Qed.

End BodyFrame.

(** Besides the flags, a call of [fuzz] changes nothing in the tree but the
    minimum of open-ended SEQUENCE OF constraints: every node keeps its
    place, identity, kind, optionality, member count and children, and its
    constraint unless [range_frame] says otherwise. *)
Lemma fuzz_frame (al bl : option (list string)) (ca : bool) (m : Z)
  (self : Asn1Container) (g : Rng) :
  tree_rel range_frame self (res_tree (fuzz al bl ca m self g)).
Proof.
  unfold fuzz. generalize (S (height self)) as fuel. intros fuel.
  revert self g. induction fuel as [|fuel IH]; intros self g; simpl.
  - apply tree_rel_refl. exact range_frame_refl.
  - apply fuzz_body_frame. exact IH.
Qed.

(** ** INTEGER *)

Lemma randbelow_bounds (n : Z) (g : Rng) :
  0 < n ->
  exists v, randbelow n g = (Ok v, advance g) /\ 0 <= v < n.
Proof.
  intros Hn. unfold randbelow. eexists. split; [reflexivity|].
  apply Z.mod_pos_bound. exact Hn.
Qed.

Lemma randrange_bounds (lo hi : Z) (g : Rng) :
  lo < hi ->
  exists v, randrange (Some lo) (Some hi) 1 g = (Ok v, advance g) /\ lo <= v < hi.
Proof.
  intros Hlt. unfold randrange. simpl.
  assert (Hw : (0 <? hi - lo) = true) by (apply Z.ltb_lt; lia). rewrite Hw.
  destruct (@randbelow_bounds (hi - lo) g) as [v [Hv Hb]]; [lia|].
  unfold bind. rewrite Hv. unfold ret. eexists. split; [reflexivity|]. lia.
Qed.

Lemma randrange_empty (lo hi : Z) (g : Rng) :
  hi <= lo -> randrange (Some lo) (Some hi) 1 g = (Raise ValueError, g).
Proof.
  intros Hle. unfold randrange. simpl.
  assert (Hw : (0 <? hi - lo) = false) by (apply Z.ltb_ge; lia). rewrite Hw.
  reflexivity.
Qed.

(** The call on a leaf node of kind INTEGER, in terms of [fuzz_integer]. *)
Lemma fuzz_integer_node (al bl : option (list string)) (ca : bool) (m : Z)
  (self : Asn1Container) (g : Rng) :
  asn1_type self = "INTEGER" ->
  fuzz al bl ca m self g =
  match fuzz_integer self g with
  | (Ok v, g') => (Ok v, set_fully_covered true self, g')
  | (Raise e, g') => (Raise e, self, g')
  | (OutOfFuel, g') => (OutOfFuel, self, g')
  end.
Proof.
  intros Ht. rewrite fuzz_equation. unfold fuzz_body. rewrite Ht.
  change (classify "INTEGER") with KInteger. simpl. unfold scalar.
  destruct (fuzz_integer self g) as [[v|e|] g']; reflexivity.
Qed.

(** C1, amended.  For every INTEGER node, [fuzz] returns an integer [v] and
    marks the node covered, where: with no constraint, [0 <= v < 128]; with
    constraint [(min, None)] and [min < 128], [min <= v < 128]; with
    constraint [(min, max)] and [min = max], [v = min] and no random draw
    is made; with [min < max], [min <= v < max]. *)
Theorem fuzz_integer_in_range (al bl : option (list string)) (ca : bool)
  (m : Z) (self : Asn1Container) (g : Rng) :
  asn1_type self = "INTEGER" ->
  (range self = None ->
   exists v g', fuzz al bl ca m self g
                = (Ok (VInt v), set_fully_covered true self, g')
                /\ 0 <= v < 128) /\
  (forall mn rest, range self = Some (Some mn :: None :: rest) -> mn < 128 ->
   exists v g', fuzz al bl ca m self g
                = (Ok (VInt v), set_fully_covered true self, g')
                /\ mn <= v < 128) /\
  (forall mn rest, range self = Some (Some mn :: Some mn :: rest) ->
   fuzz al bl ca m self g = (Ok (VInt mn), set_fully_covered true self, g)) /\
  (forall mn mx rest, range self = Some (Some mn :: Some mx :: rest) -> mn < mx ->
   exists v g', fuzz al bl ca m self g
                = (Ok (VInt v), set_fully_covered true self, g')
                /\ mn <= v < mx).
Proof.
  intros Ht. rewrite (fuzz_integer_node al bl ca m self g Ht).
  unfold fuzz_integer. repeat split.
  - intros Hr. rewrite Hr.
    destruct (@randrange_bounds 0 128 g) as [v [Hv Hb]]; [lia|].
    unfold bind. rewrite Hv. exists v, (advance g). split; [reflexivity | exact Hb].
  - intros mn rest Hr Hlt. rewrite Hr.
    destruct (@randrange_bounds mn 128 g) as [v [Hv Hb]]; [lia|].
    unfold bind, lift, range_get; simpl. rewrite Hv.
    exists v, (advance g). split; [reflexivity | exact Hb].
  - intros mn rest Hr. rewrite Hr.
    unfold bind, lift, range_get; simpl. rewrite Z.eqb_refl. reflexivity.
  - intros mn mx rest Hr Hlt. rewrite Hr.
    destruct (@randrange_bounds mn mx g) as [v [Hv Hb]]; [lia|].
    unfold bind, lift, range_get; simpl.
    assert (Hne : (mn =? mx) = false) by (apply Z.eqb_neq; lia). rewrite Hne.
    rewrite Hv. exists v, (advance g). split; [reflexivity | exact Hb].
Qed.

Lemma fuzz_integer_in_range_witness :
  asn1_type (integer_node (Some [Some 5; Some 9])) = "INTEGER" /\
  exists v g',
    fuzz None None false 1 (integer_node (Some [Some 5; Some 9])) (constant_rng 6)
    = (Ok (VInt v),
       set_fully_covered true (integer_node (Some [Some 5; Some 9])), g')
    /\ 5 <= v < 9.
Proof.
  split; [reflexivity|].
  destruct (@fuzz_integer_in_range None None false 1
              (integer_node (Some [Some 5; Some 9])) (constant_rng 6) eq_refl)
    as (_ & _ & _ & H).
  apply (H 5 9 [] eq_refl). lia.
Defined.

(** C1 as stated fails: an INTEGER node with constraint [(128, None)] makes
    [fuzz] raise ValueError instead of returning a [v] with
    [128 <= v < 128]. *)
Lemma fuzz_integer_open_range_counterexample :
  fuzz None None false 1 (integer_node (Some [Some 128; None])) (constant_rng 0)
  = (Raise ValueError, integer_node (Some [Some 128; None]), constant_rng 0) /\
  ~ (exists v,
        res_outcome (fuzz None None false 1
                       (integer_node (Some [Some 128; None])) (constant_rng 0))
        = Ok (VInt v)).
Proof.
  assert (H : fuzz None None false 1 (integer_node (Some [Some 128; None]))
                (constant_rng 0)
              = (Raise ValueError, integer_node (Some [Some 128; None]),
                 constant_rng 0)) by (vm_compute; reflexivity).
  split; [exact H|]. rewrite H. intros [v Hv]. discriminate Hv.
Qed.

(** ** EXPANDABLE *)

(** C9.  For every EXPANDABLE node and every choice of arguments, [fuzz]
    raises ValueError: it returns no value, draws nothing and leaves the
    node as it is. *)
Theorem fuzz_expandable_raises (al bl : option (list string)) (ca : bool)
  (m : Z) (self : Asn1Container) (g : Rng) :
  asn1_type self = "EXPANDABLE" ->
  fuzz al bl ca m self g = (Raise ValueError, self, g).
Proof.
  intros Ht. rewrite fuzz_equation. unfold fuzz_body. rewrite Ht.
  reflexivity.
Qed.

Lemma fuzz_expandable_raises_witness :
  asn1_type expandable_node = "EXPANDABLE" /\
  fuzz None None true 3 expandable_node (constant_rng 2)
  = (Raise ValueError, expandable_node, constant_rng 2).
Proof.
  split; [reflexivity|]. apply fuzz_expandable_raises. reflexivity.
Defined.

(** ** The blocklist *)

(** C10.  Two calls of [fuzz] that differ only in the blocklist, on the
    same node with the same generator, return the same value and leave the
    same tree and the same generator. *)
Theorem fuzz_blocklist_irrelevant (al bl1 bl2 : option (list string))
  (ca : bool) (m : Z) (self : Asn1Container) (g : Rng) :
  fuzz al bl1 ca m self g = fuzz al bl2 ca m self g.
Proof.
  unfold fuzz. generalize (S (height self)) as fuel. intros fuel.
  revert self g. induction fuel as [|fuel IH]; intros self g; simpl.
  - reflexivity.
  - apply fuzz_body_ext with (D := fun _ => True); auto.
    destruct (nested self); constructor; auto.
    apply Forall_forall. auto.
Qed.

(** ** SEQUENCE OF *)

(** The count of a bounded SEQUENCE OF [(0, 5, 1)] that is not covered:
    [max_seq_of_count] itself up to 5, ValueError above. *)
Lemma seq_of_count_0_5_1 (m : Z) (self : Asn1Container) (g : Rng) :
  range self = Some [Some 0; Some 5; Some 1] ->
  fully_covered self = false ->
  1 <= m ->
  seq_of_count m self g =
  if m <=? 5 then (Ok (Some m), self, g) else (Raise ValueError, self, g).
Proof.
  intros Hr Hf Hm. unfold seq_of_count. rewrite Hr. simpl.
  unfold bounded_count, bind, lift, range_get, py_add; simpl.
  rewrite Hf. simpl. unfold better_randrange.
  replace (Z.max 1 m) with m by lia.
  destruct (m <=? 5) eqn:Hle.
  - apply Z.leb_le in Hle. replace (Z.min 5 m) with m by lia.
    simpl. rewrite Z.eqb_refl. reflexivity.
  - apply Z.leb_gt in Hle. replace (Z.min 5 m) with 5 by lia.
    simpl. assert (Hne : (m =? 5) = false) by (apply Z.eqb_neq; lia).
    rewrite Hne. unfold bind. rewrite randrange_empty by lia. reflexivity.
Qed.

(** Above the declared maximum the call raises, whatever the child is. *)
Lemma fuzz_sequence_of_0_5_1_above_max (al bl : option (list string))
  (ca : bool) (m : Z) (self : Asn1Container) (g : Rng) :
  asn1_type self = "SEQUENCE OF" ->
  range self = Some [Some 0; Some 5; Some 1] ->
  fully_covered self = false ->
  5 < m ->
  fuzz al bl ca m self g = (Raise ValueError, self, g).
Proof.
  intros Ht Hr Hf Hm. rewrite fuzz_equation. unfold fuzz_body. rewrite Ht.
  change (classify "SEQUENCE OF") with KSequenceOf.
  unfold generate, fuzz_sequence_of.
  rewrite (@seq_of_count_0_5_1 m self g Hr Hf) by lia.
  assert (Hle : (m <=? 5) = false) by (apply Z.leb_gt; lia).
  rewrite Hle. reflexivity.
Qed.

(** C3, at the failing input.  A SEQUENCE OF node with constraint
    [(0, 5, 1)], not covered, called with [coverage_aware = True] and
    [max_seq_of_count = 6]: the call raises ValueError (the draw
    [randrange(6, 5, 1)] is over an empty range) and returns no list. *)
Theorem fuzz_sequence_of_0_5_1_raises :
  fully_covered (sequence_of_node null_node (Some [Some 0; Some 5; Some 1]))
  = false /\
  fuzz None None true 6
    (sequence_of_node null_node (Some [Some 0; Some 5; Some 1])) (constant_rng 0)
  = (Raise ValueError,
     sequence_of_node null_node (Some [Some 0; Some 5; Some 1]),
     constant_rng 0).
Proof. split; [reflexivity | vm_compute; reflexivity]. Qed.

(** Up to the declared maximum the same node yields exactly
    [max_seq_of_count] elements. *)
Example fuzz_sequence_of_0_5_1_within_max :
  res_outcome
    (fuzz None None true 3
       (sequence_of_node null_node (Some [Some 0; Some 5; Some 1]))
       (constant_rng 0))
  = Ok (VList [VInt 0; VInt 0; VInt 0]).
Proof. vm_compute; reflexivity. Qed.

(** C4, at the failing input.  An open-ended SEQUENCE OF node with
    constraint [(0, None, None)], not covered: after one call of [fuzz] its
    [range] is [(1, None, None)]; the call changed the constraint of the
    node, not only its flag. *)
Theorem fuzz_open_sequence_of_overwrites_range :
  range (sequence_of_node null_node (Some [Some 0; None; None]))
  = Some [Some 0; None; None] /\
  res_outcome
    (fuzz None None false 1
       (sequence_of_node null_node (Some [Some 0; None; None])) (constant_rng 0))
  = Ok (VList [VInt 0]) /\
  range
    (res_tree
       (fuzz None None false 1
          (sequence_of_node null_node (Some [Some 0; None; None]))
          (constant_rng 0)))
  = Some [Some 1; None; None].
Proof. repeat split; vm_compute; reflexivity. Qed.

(** The overwritten minimum stays: once the node is covered, a call with
    the original constraint could return the empty list, the call on the
    node as the first call left it cannot. *)
Example fuzz_open_sequence_of_minimum_stays :
  let first := fuzz None None false 1
                 (sequence_of_node null_node (Some [Some 0; None; None]))
                 (constant_rng 0) in
  fully_covered (res_tree first) = true /\
  res_outcome (fuzz None None false 1 (res_tree first) (res_rng first))
  = Ok (VList [VInt 0]) /\
  res_outcome
    (fuzz None None false 1
       (set_range (Some [Some 0; None; None]) (res_tree first)) (res_rng first))
  = Ok (VList []).
Proof. repeat split; vm_compute; reflexivity. Qed.

(** What [fuzz] does keep of every node: identity, kind, optionality,
    member count and children. *)
Lemma fuzz_keeps_shape (al bl : option (list string)) (ca : bool) (m : Z)
  (self : Asn1Container) (g : Rng) :
  same_shape self (res_tree (fuzz al bl ca m self g)).
Proof. apply fuzz_inv_holds. Qed.

(** ** [expand_once] *)

Lemma expand_once_unfold (self : Asn1Container) (h : IdentHistory) :
  expand_once self h =
  match classify (asn1_type self) with
  | KChoice | KSequence =>
      match nested self with
      | NDict fields =>
          let '(r, fields', h') := expand_fields expand_once fields h in
          (r, set_nested (NDict fields') self, h')
      | _ => (Raise AttributeError, self, h)
      end
  | _ => (Ok tt, self, h)
  end.
Proof. destruct self; reflexivity. Qed.

(** [expand_once] has no case for SEQUENCE OF: the node and everything
    below it stay as they are. *)
Lemma expand_once_sequence_of (self : Asn1Container) (h : IdentHistory) :
  asn1_type self = "SEQUENCE OF" -> expand_once self h = (Ok tt, self, h).
Proof. intros Ht. rewrite expand_once_unfold, Ht. reflexivity. Qed.

(** C2, at the failing input.  One pass of [expand_once] over the SEQUENCE
    replaces the EXPANDABLE field by the prototype of its schema object,
    and visits the SEQUENCE OF field without expanding anything: its element
    child is still the EXPANDABLE node. *)
Theorem expand_once_skips_sequence_of_child :
  let after := snd (fst (expand_once record_with_placeholders [])) in
  fst (fst (expand_once record_with_placeholders [])) = Ok tt /\
  node_at [SKey "next"] record_with_placeholders = Some expandable_node /\
  node_at [SKey "next"] after = Some null_node /\
  node_at [SKey "items"; SElem] record_with_placeholders = Some expandable_node /\
  node_at [SKey "items"; SElem] after = Some expandable_node.
Proof. repeat split. Qed.

(** ** [remove_expandable] *)

Lemma remove_expandable_unfold (self : Asn1Container) :
  remove_expandable self =
  match classify (asn1_type self) with
  | KExpandable => (Ok false, self)
  | KChoice =>
      match nested self with
      | NDict fields =>
          match prune_choice remove_expandable fields [] with
          | (Ok keys_to_remove, fields1) =>
              let '(r, fields2) := delete_keys keys_to_remove fields1 in
              (omap (fun _ => true) r, set_nested (NDict fields2) self)
          | (Raise e, fields1) => (Raise e, set_nested (NDict fields1) self)
          | (OutOfFuel, fields1) => (OutOfFuel, set_nested (NDict fields1) self)
          end
      | _ => (Raise AttributeError, self)
      end
  | KSequence =>
      match nested self with
      | NDict fields =>
          match prune_sequence remove_expandable fields [] true with
          | (Ok (keys_to_remove, result), fields1) =>
              let '(r, fields2) := delete_keys keys_to_remove fields1 in
              (omap (fun _ => result) r, set_nested (NDict fields2) self)
          | (Raise e, fields1) => (Raise e, set_nested (NDict fields1) self)
          | (OutOfFuel, fields1) => (OutOfFuel, set_nested (NDict fields1) self)
          end
      | _ => (Raise AttributeError, self)
      end
  | KSequenceOf =>
      match nested self with
      | NNone => (Ok false, self)
      | NNode child =>
          let '(r, child') := remove_expandable child in
          (r, set_nested (NNode child') self)
      | _ => (Raise AttributeError, self)
      end
  | _ => (Ok true, self)
  end.
Proof. destruct self; reflexivity. Qed.

Lemma set_nested_same (self : Asn1Container) (n : Nested Asn1Container) :
  nested self = n -> set_nested n self = self.
Proof. intros <-. destruct self; reflexivity. Qed.

Lemma prune_choice_noop (rec : Asn1Container -> Outcome bool * Asn1Container)
  (fields : Fields) :
  (forall kv, In kv fields -> rec (snd kv) = (Ok true, snd kv)) ->
  forall keys_to_remove,
    prune_choice rec fields keys_to_remove = (Ok keys_to_remove, fields).
Proof.
  induction fields as [|[key value] rest IH]; intros Hrec acc; simpl;
    [reflexivity|].
  pose proof (Hrec (key, value) (or_introl eq_refl)) as Hv. simpl in Hv.
  rewrite Hv. simpl.
  rewrite IH; [reflexivity|]. intros kv Hin. apply Hrec. right; exact Hin.
Qed.

Lemma prune_sequence_noop (rec : Asn1Container -> Outcome bool * Asn1Container)
  (fields : Fields) :
  (forall kv, In kv fields -> rec (snd kv) = (Ok true, snd kv)) ->
  forall keys_to_remove result,
    prune_sequence rec fields keys_to_remove result
    = (Ok (keys_to_remove, result), fields).
Proof.
  induction fields as [|[key value] rest IH]; intros Hrec acc result; simpl;
    [reflexivity|].
  pose proof (Hrec (key, value) (or_introl eq_refl)) as Hv. simpl in Hv.
  rewrite Hv. simpl.
  rewrite IH; [reflexivity|]. intros kv Hin. apply Hrec. right; exact Hin.
Qed.

(** C7, amended.  For every tree that contains no EXPANDABLE node and in
    which every SEQUENCE OF node has its element child (and every SEQUENCE,
    CHOICE, OPEN_TYPE or ANY node its dict of children),
    [remove_expandable] returns True and leaves the tree as it is. *)
Theorem remove_expandable_noop (self : Asn1Container) :
  placeholder_free self -> well_formed self ->
  remove_expandable self = (Ok true, self).
Proof.
  induction self as [self IHf IHc] using container_ind.
  intros Hfree Hwf.
  destruct Hfree as [self Hne Hfree]. destruct Hwf as [self Hch Hwf].
  rewrite remove_expandable_unfold. unfold has_children in Hch.
  destruct (classify (asn1_type self)) eqn:Hk; try reflexivity.
  - exfalso. apply Hne. unfold classify in Hk.
    repeat match type of Hk with
           | (if ?b then _ else _) = _ =>
               let E := fresh "E" in destruct b eqn:E; try discriminate Hk
           end.
    apply String.eqb_eq. assumption.
  - destruct Hch as [fields Hn]. rewrite Hn in *.
    inversion Hfree as [|l Hl| | |]; inversion Hwf as [|l' Hl'| | |]; subst.
    rewrite prune_sequence_noop.
    + simpl. rewrite set_nested_same by exact Hn. reflexivity.
    + intros kv Hin. rewrite Forall_forall in Hl, Hl'.
      eapply IHf; [reflexivity | exact Hin | apply Hl; exact Hin
                  | apply Hl'; exact Hin].
  - destruct Hch as [fields Hn]. rewrite Hn in *.
    inversion Hfree as [|l Hl| | |]; inversion Hwf as [|l' Hl'| | |]; subst.
    rewrite prune_choice_noop.
    + simpl. rewrite set_nested_same by exact Hn. reflexivity.
    + intros kv Hin. rewrite Forall_forall in Hl, Hl'.
      eapply IHf; [reflexivity | exact Hin | apply Hl; exact Hin
                  | apply Hl'; exact Hin].
  - destruct Hch as [child Hn]. rewrite Hn in *.
    inversion Hfree as [| |v Hv| |]; inversion Hwf as [| |v' Hv'| |]; subst.
    rewrite (IHc child eq_refl Hv Hv').
    rewrite set_nested_same by exact Hn. reflexivity.
Qed.

Lemma remove_expandable_noop_witness :
  placeholder_free finite_choice /\ well_formed finite_choice /\
  remove_expandable finite_choice = (Ok true, finite_choice).
Proof.
  assert (Hfree : placeholder_free finite_choice).
  { repeat (constructor; simpl; try discriminate). }
  assert (Hwf : well_formed finite_choice).
  { repeat match goal with
           | |- well_formed _ => constructor
           | |- has_children _ =>
               vm_compute; first [exact I | eexists; reflexivity]
           | |- nested_all _ _ => simpl; constructor
           | |- Forall _ _ => constructor
           end. }
  split; [exact Hfree|]. split; [exact Hwf|].
  apply (remove_expandable_noop Hfree Hwf).
Defined.

(** C7 as stated fails: a SEQUENCE OF node without element child contains no
    EXPANDABLE node, yet [remove_expandable] returns False on it; and a
    SEQUENCE that holds such a node as an optional field loses the field. *)
Lemma remove_expandable_childless_counterexample :
  placeholder_free
    (new_container "List" "SEQUENCE OF" true NNone None) /\
  remove_expandable (new_container "List" "SEQUENCE OF" true NNone None)
  = (Ok false, new_container "List" "SEQUENCE OF" true NNone None) /\
  placeholder_free
    (new_container "Record" "SEQUENCE" false
       (NDict [("list", new_container "List" "SEQUENCE OF" true NNone None)])
       None) /\
  remove_expandable
    (new_container "Record" "SEQUENCE" false
       (NDict [("list", new_container "List" "SEQUENCE OF" true NNone None)])
       None)
  = (Ok true, new_container "Record" "SEQUENCE" false (NDict []) None).
Proof.
  split; [repeat (constructor; simpl; try discriminate)|].
  split; [reflexivity|].
  split; [repeat (constructor; simpl; try discriminate) | reflexivity].
Qed.

(** ** SEQUENCE with an allowlist *)

Lemma fuzz_fields_allowlist_skips (rec : Asn1Container -> Rng -> Res)
  (ident : string) (ca sc : bool) (fields : Fields) :
  (forall kv, In kv fields -> unique_ident (snd kv) <> ident) ->
  forall retNested g,
    fuzz_fields rec (Some [ident]) ca sc fields retNested g
    = (Ok retNested, fields, g).
Proof.
  induction fields as [|[key value] rest IH]; intros Hne retNested g; simpl;
    [reflexivity|].
  unfold skip_field. simpl.
  assert (Hv : (unique_ident value =? ident)%string = false).
  { apply String.eqb_neq. apply (Hne (key, value)). left; reflexivity. }
  rewrite String.eqb_sym in Hv. rewrite Hv. simpl.
  rewrite IH; [reflexivity|]. intros kv Hin. apply Hne. right; exact Hin.
Qed.

Lemma fuzz_fields_allowlist_single (rec : Asn1Container -> Rng -> Res)
  (ident : string) (ca sc : bool) (pre post : Fields) (key : string)
  (child : Asn1Container) (g : Rng) :
  unique_ident child = ident ->
  (forall kv, In kv (pre ++ post) -> unique_ident (snd kv) <> ident) ->
  fuzz_fields rec (Some [ident]) ca sc (pre ++ (key, child) :: post) [] g
  = (match res_outcome (rec child g) with
     | Ok v => Ok (if is_none v then [] else [(key, v)])
     | Raise e => Raise e
     | OutOfFuel => OutOfFuel
     end,
     pre ++ (key, res_tree (rec child g)) :: post,
     res_rng (rec child g)).
Proof.
  intros Hid Hne.
  induction pre as [|[k value] pre IH]; simpl.
  - unfold skip_field. simpl. rewrite Hid, String.eqb_refl. simpl.
    unfold res_outcome, res_tree, res_rng.
    destruct (rec child g) as [[[v|e|] child'] g']; simpl; try reflexivity.
    rewrite fuzz_fields_allowlist_skips.
    + destruct (is_none v); reflexivity.
    + intros kv Hin. apply Hne. simpl. exact Hin.
  - unfold skip_field. simpl.
    assert (Hv : (unique_ident value =? ident)%string = false).
    { apply String.eqb_neq. apply (Hne (k, value)). left; reflexivity. }
    rewrite String.eqb_sym in Hv. rewrite Hv. simpl.
    rewrite IH; [reflexivity|]. intros kv Hin. apply Hne. right; exact Hin.
Qed.

(** C5, amended.  For every SEQUENCE node and every allowlist that holds
    exactly one identity, the identity of exactly one of its fields, [fuzz]
    calls [fuzz] on that field only and returns what that call raises or,
    when it returns, a mapping with no other field, which holds the field
    exactly when the call on the field returned a value other than None;
    whatever the optional flags and [coverage_aware] are. *)
Theorem fuzz_sequence_allowlist_single (bl : option (list string)) (ca : bool)
  (m : Z) (self : Asn1Container) (g : Rng) (pre post : Fields) (key : string)
  (child : Asn1Container) (ident : string) :
  asn1_type self = "SEQUENCE" ->
  nested self = NDict (pre ++ (key, child) :: post) ->
  unique_ident child = ident ->
  (forall kv, In kv (pre ++ post) -> unique_ident (snd kv) <> ident) ->
  let sub := fuzz (Some [ident]) bl ca m child g in
  exists self',
    nested self' = NDict (pre ++ (key, res_tree sub) :: post) /\
    fuzz (Some [ident]) bl ca m self g
    = (match res_outcome sub with
       | Ok v => Ok (VDict (if is_none v then [] else [(key, v)]))
       | Raise e => Raise e
       | OutOfFuel => OutOfFuel
       end,
       self', res_rng sub).
Proof.
  intros Ht Hn Hid Hne sub. rewrite fuzz_equation. unfold fuzz_body.
  rewrite Ht. change (classify "SEQUENCE") with KSequence.
  unfold generate. rewrite Hn.
  rewrite (@fuzz_fields_allowlist_single (fuzz (Some [ident]) bl ca m) ident ca
             (fully_covered self) pre post key child g Hid Hne).
  fold sub. destruct (res_outcome sub) as [v|e|]; simpl;
    (eexists; split; [|reflexivity]; reflexivity).
Qed.

Lemma fuzz_sequence_allowlist_single_witness :
  exists self',
    nested self'
    = NDict [("count",
              res_tree (fuzz (Some ["Int"]) None true 1
                          (integer_node (Some [Some 0; Some 8])) (constant_rng 3)));
             ("alt", new_container "Alt" "CHOICE" true
                       (NDict [("none", null_node)]) None)] /\
    fuzz (Some ["Int"]) None true 1 record_with_choice (constant_rng 3)
    = (Ok (VDict [("count", VInt 3)]), self',
       res_rng (fuzz (Some ["Int"]) None true 1
                  (integer_node (Some [Some 0; Some 8])) (constant_rng 3))).
Proof.
  apply (@fuzz_sequence_allowlist_single None true 1 record_with_choice
           (constant_rng 3) []
           [("alt", new_container "Alt" "CHOICE" true
                      (NDict [("none", null_node)]) None)]
           "count" (integer_node (Some [Some 0; Some 8])) "Int").
  - reflexivity.
  - reflexivity.
  - reflexivity.
  - simpl. intros kv [<-|[]]. simpl. discriminate.
Defined.

(** C5 as stated fails: with the allowlist holding the identity of the
    CHOICE field only, the call on the CHOICE finds none of its alternatives
    in the allowlist and returns None, and the SEQUENCE returns the empty
    mapping: the named field is not in it. *)
Lemma fuzz_sequence_allowlist_counterexample :
  res_outcome (fuzz (Some ["Alt"]) None false 1 record_with_choice (constant_rng 0))
  = Ok (VDict []) /\
  ~ (exists v,
        res_outcome
          (fuzz (Some ["Alt"]) None false 1 record_with_choice (constant_rng 0))
        = Ok (VDict [("alt", v)])).
Proof.
  assert (H : res_outcome
                (fuzz (Some ["Alt"]) None false 1 record_with_choice
                   (constant_rng 0)) = Ok (VDict []))
    by (vm_compute; reflexivity).
  split; [exact H|]. rewrite H. intros [v Hv]. discriminate Hv.
Qed.

(** ** CHOICE with coverage awareness *)

Lemma choice_in {A : Type} (seq : list A) (g : Rng) :
  seq <> [] -> exists x, choice seq g = (Ok x, advance g) /\ In x seq.
Proof.
  intros Hne. destruct seq as [|a rest]; [contradiction|].
  unfold choice, bind, randbelow, ret.
  eexists. split; [reflexivity|].
  set (i := Z.to_nat (Z.of_nat (tape g (pos g)) mod Z.of_nat (List.length (a :: rest)))).
  destruct (nth_in_or_default i (a :: rest) a) as [Hin|Hd]; [exact Hin|].
  rewrite Hd. left; reflexivity.
Qed.

Lemma select_key_in (possible_choices : list string) (g : Rng) :
  possible_choices <> [] ->
  exists key g1,
    select_key possible_choices g = (Ok key, g1) /\ In key possible_choices.
Proof.
  intros Hne. unfold select_key.
  destruct (1 <? List.length possible_choices)%nat.
  - destruct (@choice_in string possible_choices g Hne) as [x [Hx Hin]].
    exists x, (advance g).
    split; assumption.
  - destruct possible_choices as [|k rest]; [contradiction|].
    exists k, g. split; [reflexivity | left; reflexivity].
Qed.

(** With [coverage_aware] and an uncovered child, every candidate is an
    uncovered child. *)
Lemma nested_filtered_uncovered (fields : Fields) :
  (exists kv, In kv fields /\ fully_covered (snd kv) = false) ->
  nested_filtered true fields = uncovered fields /\ uncovered fields <> [].
Proof.
  intros [kv [Hin Hf]]. unfold nested_filtered.
  assert (Hu : In kv (uncovered fields)).
  { unfold uncovered. apply filter_In. split; [exact Hin|]. rewrite Hf.
    reflexivity. }
  destruct (uncovered fields) as [|x rest] eqn:Hx; [contradiction|].
  simpl. split; [reflexivity | discriminate].
Qed.

Lemma uncovered_key (fields : Fields) (key : string) :
  In key (keys (uncovered fields)) ->
  exists child, In (key, child) fields /\ fully_covered child = false.
Proof.
  unfold keys, uncovered. intros Hin. apply in_map_iff in Hin.
  destruct Hin as [[k child] [Hk Hin]]. simpl in Hk. subst k.
  apply filter_In in Hin. destruct Hin as [Hin Hf]. simpl in Hf.
  exists child. split; [exact Hin|]. destruct (fully_covered child);
    [discriminate | reflexivity].
Qed.

(** [self.nested[key].fuzz(...)] on a dict: the child stored under the key
    is the one that is called, and it is updated in place. *)
Lemma fuzz_first_key (rec : Asn1Container -> Rng -> Res) (fields : Fields)
  (key : string) (child : Asn1Container) (g : Rng) :
  NoDup (keys fields) -> In (key, child) fields ->
  fuzz_first rec (fun k _ => (k =? key)%string) fields g
  = (Some (key, res_outcome (rec child g)),
     dict_set key (res_tree (rec child g)) fields,
     res_rng (rec child g)).
Proof.
  induction fields as [|[k v] rest IH]; intros Hnd Hin; [contradiction|].
  simpl in *. inversion Hnd as [|x xs Hnotin Hnd']; subst.
  destruct (k =? key)%string eqn:Hk.
  - apply String.eqb_eq in Hk. subst k.
    destruct Hin as [Heq|Hin].
    + injection Heq as Hv. subst v. unfold res_outcome, res_tree, res_rng.
      destruct (rec child g) as [[r c'] g']; reflexivity.
    + exfalso. apply Hnotin. unfold keys in *. apply in_map_iff.
      exists (key, child). split; [reflexivity | exact Hin].
  - destruct Hin as [Heq|Hin].
    + injection Heq as Hk' Hv. subst k.
      rewrite String.eqb_refl in Hk. discriminate.
    + rewrite (IH Hnd' Hin). reflexivity.
Qed.

Lemma classify_choice (t : string) :
  t = "CHOICE" \/ t = "OPEN_TYPE" \/ t = "ANY" -> classify t = KChoice.
Proof. intros [Ht | [Ht | Ht]]; rewrite Ht; reflexivity. Qed.

(** The call on a CHOICE, OPEN_TYPE or ANY node that has an uncovered
    child, with [coverage_aware] and without allowlist. *)
Lemma fuzz_choice_uncovered_first (bl : option (list string)) (m : Z)
  (self : Asn1Container) (g : Rng) (fields : Fields) :
  asn1_type self = "CHOICE" \/ asn1_type self = "OPEN_TYPE" \/
  asn1_type self = "ANY" ->
  nested self = NDict fields ->
  NoDup (keys fields) ->
  (exists kv, In kv fields /\ fully_covered (snd kv) = false) ->
  exists key child g1,
    In (key, child) fields /\ fully_covered child = false /\
    select_key (keys (nested_filtered true fields)) g = (Ok key, g1) /\
    let sub := fuzz None bl true m child g1 in
    let fields' := dict_set key (res_tree sub) fields in
    fuzz None bl true m self g
    = (pair_result key (res_outcome sub),
       match res_outcome sub with
       | Ok _ => set_fully_covered (all_covered_fields fields')
                   (set_nested (NDict fields') self)
       | _ => set_nested (NDict fields') self
       end,
       res_rng sub).
Proof.
  intros Ht Hn Hnd Hex.
  destruct (@nested_filtered_uncovered fields Hex) as [Hnf Hne].
  assert (Hkeys : keys (uncovered fields) <> []).
  { unfold keys. destruct (uncovered fields); [contradiction | discriminate]. }
  destruct (@select_key_in (keys (uncovered fields)) g Hkeys)
    as [key [g1 [Hsel Hin]]].
  destruct (@uncovered_key fields key Hin) as [child [Hinf Hf]].
  exists key, child, g1. split; [exact Hinf|]. split; [exact Hf|].
  rewrite Hnf. split; [exact Hsel|].
  intros sub fields'. rewrite fuzz_equation. unfold fuzz_body.
  rewrite (classify_choice Ht). unfold generate. rewrite Hn.
  unfold fuzz_choice. rewrite Hnf, Hsel.
  rewrite (@fuzz_first_key (fuzz None bl true m) fields key child g1 Hnd Hinf).
  fold sub. fold fields'.
  destruct (res_outcome sub) as [v|e|]; reflexivity.
Qed.

Lemma fuzz_boolean_leaf (al bl : option (list string)) (ca : bool) (m : Z)
  (f : bool) (g : Rng) :
  exists v,
    fuzz al bl ca m (set_fully_covered f boolean_node) g
    = (Ok (VBool v), set_fully_covered true boolean_node, advance g).
Proof.
  rewrite fuzz_equation. unfold fuzz_body.
  change (classify (asn1_type (set_fully_covered f boolean_node))) with KBoolean.
  unfold generate, scalar, fuzz_boolean, bind.
  destruct (@choice_in bool [true; false] g) as [v [Hv _]]; [discriminate|].
  rewrite Hv. exists v. reflexivity.
Qed.

Lemma fuzz_null_leaf (al bl : option (list string)) (ca : bool) (m : Z)
  (f : bool) (g : Rng) :
  fuzz al bl ca m (set_fully_covered f null_node) g
  = (Ok (VInt 0), set_fully_covered true null_node, g).
Proof. rewrite fuzz_equation. reflexivity. Qed.

Lemma fuzz_unit_integer_leaf (al bl : option (list string)) (ca : bool) (m : Z)
  (f : bool) (g : Rng) :
  fuzz al bl ca m (set_fully_covered f (integer_node (Some [Some 0; Some 1]))) g
  = (Ok (VInt 0),
     set_fully_covered true (integer_node (Some [Some 0; Some 1])), advance g).
Proof.
  rewrite fuzz_integer_node by reflexivity.
  unfold fuzz_integer. simpl. unfold bind, lift, range_get. simpl.
  rewrite Z.mod_1_r. reflexivity.
Qed.

(** One call on the scenario while an alternative is uncovered: it selects
    an uncovered alternative and covers it. *)
Lemma three_scalars_step (f a b c : bool) (g : Rng) :
  a && b && c = false ->
  (a = false /\
   exists v g', fuzz None None true 1 (three_scalars f a b c) g
                = (Ok (VTuple [VStr "A"; v]),
                   three_scalars (b && c) true b c, g')) \/
  (b = false /\
   exists v g', fuzz None None true 1 (three_scalars f a b c) g
                = (Ok (VTuple [VStr "B"; v]),
                   three_scalars (a && c) a true c, g')) \/
  (c = false /\
   exists v g', fuzz None None true 1 (three_scalars f a b c) g
                = (Ok (VTuple [VStr "C"; v]),
                   three_scalars (a && b) a b true, g')).
Proof.
  intros Habc.
  destruct (@fuzz_choice_uncovered_first None 1 (three_scalars f a b c) g
              [("A", set_fully_covered a boolean_node);
               ("B", set_fully_covered b null_node);
               ("C", set_fully_covered c (integer_node (Some [Some 0; Some 1])))])
    as (key & child & g1 & Hin & Hf & _ & Heq).
  - left; reflexivity.
  - reflexivity.
  - repeat constructor; simpl; intuition discriminate.
  - destruct a; [destruct b; [destruct c; [discriminate|]|]|].
    + eexists; split; [right; right; left; reflexivity | reflexivity].
    + eexists; split; [right; left; reflexivity | reflexivity].
    + eexists; split; [left; reflexivity | reflexivity].
  - simpl in Heq. rewrite Heq. clear Heq.
    destruct Hin as [E|[E|[E|[]]]]; injection E as <- <-; simpl in Hf.
    + left. split; [exact Hf|].
      destruct (fuzz_boolean_leaf None None true 1 a g1) as [v Hv].
      rewrite Hv. exists (VBool v), (advance g1).
      destruct b, c; reflexivity.
    + right; left. split; [exact Hf|].
      rewrite fuzz_null_leaf. exists (VInt 0), g1.
      destruct a, c; reflexivity.
    + right; right. split; [exact Hf|].
      rewrite fuzz_unit_integer_leaf. exists (VInt 0), (advance g1).
      destruct a, b; reflexivity.
Qed.

(** The scenario of C8: from the uncovered CHOICE, three consecutive calls
    with [coverage_aware = True] and no allowlist select three distinct
    alternatives, whatever the random draws are, and leave every
    alternative and the node covered. *)
Lemma three_scalars_exhausted (g : Rng) :
  let c1 := fuzz None None true 1 (three_scalars false false false false) g in
  let c2 := fuzz None None true 1 (res_tree c1) (res_rng c1) in
  let c3 := fuzz None None true 1 (res_tree c2) (res_rng c2) in
  exists k1 k2 k3 v1 v2 v3,
    res_outcome c1 = Ok (VTuple [VStr k1; v1]) /\
    res_outcome c2 = Ok (VTuple [VStr k2; v2]) /\
    res_outcome c3 = Ok (VTuple [VStr k3; v3]) /\
    NoDup [k1; k2; k3] /\
    res_tree c3 = three_scalars true true true true.
Proof.
  intros c1 c2 c3. subst c1 c2 c3.
  destruct (@three_scalars_step false false false false g eq_refl)
    as [[_ (v1 & g1 & E1)] | [[_ (v1 & g1 & E1)] | [_ (v1 & g1 & E1)]]];
    rewrite E1; cbn [res_tree res_rng res_outcome fst snd andb];
    match goal with
    | |- context [fuzz None None true 1 (three_scalars ?f ?a ?b ?c) ?gen] =>
        destruct (@three_scalars_step f a b c gen eq_refl)
          as [[H2 (v2 & g2 & E2)] | [[H2 (v2 & g2 & E2)] | [H2 (v2 & g2 & E2)]]]
    end;
    try discriminate H2;
    rewrite E2; cbn [res_tree res_rng res_outcome fst snd andb];
    match goal with
    | |- context [fuzz None None true 1 (three_scalars ?f ?a ?b ?c) ?gen] =>
        destruct (@three_scalars_step f a b c gen eq_refl)
          as [[H3 (v3 & g3 & E3)] | [[H3 (v3 & g3 & E3)] | [H3 (v3 & g3 & E3)]]]
    end;
    try discriminate H3;
    rewrite E3; cbn [res_tree res_rng res_outcome fst snd andb];
    do 6 eexists;
    (split; [reflexivity|]); (split; [reflexivity|]); (split; [reflexivity|]);
    (split; [|reflexivity]);
    repeat constructor; simpl; intuition discriminate.
Qed.

(** When a key is selected, one number is drawn if there are several
    candidates and none if there is one. *)
Lemma select_key_rng (possible_choices : list string) (g g1 : Rng)
  (key : string) :
  select_key possible_choices g = (Ok key, g1) ->
  g1 = if (1 <? List.length possible_choices)%nat then advance g else g.
Proof.
  unfold select_key. intros H.
  destruct (1 <? List.length possible_choices)%nat eqn:Hlen.
  - destruct possible_choices as [|k rest]; [discriminate Hlen|].
    destruct (@choice_in string (k :: rest) g) as [x [Hx _]]; [discriminate|].
    rewrite Hx in H. injection H as _ <-. reflexivity.
  - destruct possible_choices as [|k rest]; [discriminate H|].
    injection H as _ <-. reflexivity.
Qed.

(** C8.  For every CHOICE, OPEN_TYPE or ANY node that has at least one
    child whose flag is false, [fuzz] with [coverage_aware = True] and no
    allowlist selects a key whose child is not covered at the time of the
    call (drawing one number if several children are uncovered, none if
    one is), calls [fuzz] on that child only, returns the pair of that key
    and the child's value (or raises what the child's call raises), and,
    when the child's call returns, recomputes the flag of the node from
    its children.  This holds in every state of the tree, hence at every
    call of a run: a covered child is not selected while an uncovered one
    exists.  In the scenario of a CHOICE with the three scalar children
    A: BOOLEAN, B: NULL, C: INTEGER (0, 1), all uncovered, three
    consecutive calls return three pairs with three distinct keys,
    whatever the random draws are, and leave every child and the node
    covered. *)
Theorem fuzz_choice_selects_uncovered :
  (forall (bl : option (list string)) (m : Z) (self : Asn1Container)
          (g : Rng) (fields : Fields),
      asn1_type self = "CHOICE" \/ asn1_type self = "OPEN_TYPE" \/
      asn1_type self = "ANY" ->
      nested self = NDict fields ->
      NoDup (keys fields) ->
      (exists kv, In kv fields /\ fully_covered (snd kv) = false) ->
      exists key child,
        In (key, child) fields /\ fully_covered child = false /\
        let g1 := if (1 <? List.length (uncovered fields))%nat
                  then advance g else g in
        let sub := fuzz None bl true m child g1 in
        let fields' := dict_set key (res_tree sub) fields in
        fuzz None bl true m self g
        = (pair_result key (res_outcome sub),
           match res_outcome sub with
           | Ok _ => set_fully_covered (all_covered_fields fields')
                       (set_nested (NDict fields') self)
           | _ => set_nested (NDict fields') self
           end,
           res_rng sub)) /\
  (forall g : Rng,
      let c1 := fuzz None None true 1 (three_scalars false false false false) g in
      let c2 := fuzz None None true 1 (res_tree c1) (res_rng c1) in
      let c3 := fuzz None None true 1 (res_tree c2) (res_rng c2) in
      exists k1 k2 k3 v1 v2 v3,
        res_outcome c1 = Ok (VTuple [VStr k1; v1]) /\
        res_outcome c2 = Ok (VTuple [VStr k2; v2]) /\
        res_outcome c3 = Ok (VTuple [VStr k3; v3]) /\
        NoDup [k1; k2; k3] /\
        res_tree c3 = three_scalars true true true true).
Proof.
  split.
  - intros bl m self g fields Ht Hn Hnd Hex.
    destruct (@fuzz_choice_uncovered_first bl m self g fields Ht Hn Hnd Hex)
      as (key & child & g1 & Hin & Hf & Hsel & Heq).
    exists key, child. split; [exact Hin|]. split; [exact Hf|].
    apply select_key_rng in Hsel.
    destruct (@nested_filtered_uncovered fields Hex) as [Hnf _].
    rewrite Hnf in Hsel. unfold keys in Hsel. rewrite length_map in Hsel.
    subst g1. exact Heq.
  - exact three_scalars_exhausted.
Qed.

Lemma fuzz_choice_selects_uncovered_witness :
  exists key child,
    In (key, child)
      [("A", set_fully_covered false boolean_node);
       ("B", set_fully_covered true null_node);
       ("C", set_fully_covered false (integer_node (Some [Some 0; Some 1])))] /\
    fully_covered child = false /\
    let g1 := advance (constant_rng 1) in
    let sub := fuzz None None true 1 child g1 in
    let fields' :=
      dict_set key (res_tree sub)
        [("A", set_fully_covered false boolean_node);
         ("B", set_fully_covered true null_node);
         ("C", set_fully_covered false (integer_node (Some [Some 0; Some 1])))] in
    fuzz None None true 1 (three_scalars false false true false) (constant_rng 1)
    = (pair_result key (res_outcome sub),
       match res_outcome sub with
       | Ok _ => set_fully_covered (all_covered_fields fields')
                   (set_nested (NDict fields')
                      (three_scalars false false true false))
       | _ => set_nested (NDict fields') (three_scalars false false true false)
       end,
       res_rng sub).
Proof.
  apply (proj1 fuzz_choice_selects_uncovered None 1
           (three_scalars false false true false) (constant_rng 1)
           [("A", set_fully_covered false boolean_node);
            ("B", set_fully_covered true null_node);
            ("C", set_fully_covered false (integer_node (Some [Some 0; Some 1])))]).
  - left; reflexivity.
  - reflexivity.
  - repeat constructor; simpl; intuition discriminate.
  - eexists; split; [left; reflexivity | reflexivity].
Defined.

(** ** Coverage over a run of calls *)

Lemma uncovered_tree_consistent (c : Asn1Container) :
  uncovered_tree c -> consistent c.
Proof.
  induction c as [c IHf IHc] using container_ind.
  intros H. destruct H as [c Hf Hn]. constructor.
  - rewrite Hf. discriminate.
  - destruct Hn as [|l Hl|v Hv|l|f]; constructor.
    + rewrite Forall_forall in *. intros kv Hin.
      eapply IHf; [reflexivity | exact Hin | apply Hl; exact Hin].
    + apply (IHc v eq_refl Hv).
Qed.

Lemma fields_rel_dict_get (Q : Asn1Container -> Asn1Container -> Prop)
  (l l' : Fields) (key : string) (v : Asn1Container) :
  fields_rel Q l l' -> dict_get key l = Some v ->
  exists v', dict_get key l' = Some v' /\ Q v v'.
Proof.
  intros H. induction H as [|[k x] [k' x'] l l' [Hk Hx] Hrest IH]; simpl;
    [discriminate|].
  simpl in Hk, Hx. subst k'.
  destruct (k =? key)%string.
  - intros Heq. injection Heq as <-. exists x'. split; [reflexivity | exact Hx].
  - exact IH.
Qed.

Lemma coverage_kept_node_at (p : list Step) :
  forall t t' n,
    coverage_kept t t' -> node_at p t = Some n ->
    exists n', node_at p t' = Some n' /\ coverage_kept n n'.
Proof.
  induction p as [|s p IH]; intros t t' n Hk Hn; simpl in *.
  - injection Hn as <-. exists t'. split; [reflexivity | exact Hk].
  - destruct Hk as [t t' _ _ _ _ _ Hnest].
    destruct s as [key|]; destruct Hnest as [|l l' Hl|v v' Hv|l|f];
      try discriminate.
    + destruct (dict_get key l) as [x|] eqn:Hx; [|discriminate].
      destruct (fields_rel_dict_get key Hl Hx) as [x' [Hx' Hxx]].
      rewrite Hx'. eapply IH; eassumption.
    + eapply IH; eassumption.
Qed.

Lemma coverage_kept_ident (c c' : Asn1Container) :
  coverage_kept c c' -> unique_ident c' = unique_ident c.
Proof. intros H. destruct H as [c c' Hi _ _ _ _ _]. symmetry; exact Hi. Qed.

Lemma fuzz_calls_inv (calls : list Call) :
  forall self g,
    consistent self ->
    coverage_kept self (fst (fuzz_calls calls self g)) /\
    consistent (fst (fuzz_calls calls self g)).
Proof.
  induction calls as [|c rest IH]; intros self g Hc; simpl.
  - split; [apply consistent_refl_kept | exact Hc].
  - destruct (fuzz_inv_holds (call_allowlist c) (call_blocklist c)
                (call_coverage_aware c) (call_max_seq_of_count c) self g)
      as [_ Hinv].
    destruct (Hinv Hc) as [Hk1 Hc1].
    destruct (IH _ (res_rng (fuzz (call_allowlist c) (call_blocklist c)
                               (call_coverage_aware c)
                               (call_max_seq_of_count c) self g)) Hc1)
      as [Hk2 Hc2].
    split; [|exact Hc2].
    eapply tree_rel_trans; [|exact Hk1|exact Hk2].
    unfold flag_kept. intros x y z Hxy Hyz Hx. auto.
Qed.

(** In a tree whose flags are consistent, every node whose flag is true is
    still in its place, with its flag true, after any run of calls of [fuzz]
    on the tree, with any arguments and whether the calls return or raise;
    and the flags are consistent again. *)
Lemma fuzz_calls_keep_coverage (calls : list Call) (self : Asn1Container)
  (g : Rng) :
  consistent self ->
  consistent (fst (fuzz_calls calls self g)) /\
  forall p n,
    node_at p self = Some n -> fully_covered n = true ->
    exists n',
      node_at p (fst (fuzz_calls calls self g)) = Some n' /\
      unique_ident n' = unique_ident n /\
      fully_covered n' = true.
Proof.
  intros Hc. destruct (fuzz_calls_inv calls g Hc) as [Hk Hc'].
  split; [exact Hc'|].
  intros p n Hn Hf.
  destruct (coverage_kept_node_at p Hk Hn) as [n' [Hn' Hkn]].
  exists n'. split; [exact Hn'|]. split.
  - apply coverage_kept_ident. exact Hkn.
  - eapply coverage_kept_flag; eassumption.
Qed.

(** C6.  Start from a tree as construction leaves it (no flag set) and call
    [fuzz] on it any number of times, with any arguments, whether the calls
    return or raise.  Every node whose flag is true after these calls is
    still in its place, with its flag true, after any further calls of
    [fuzz] on the tree.  No [reset_coverage] takes place in between. *)
Theorem fuzz_coverage_monotone (calls1 calls2 : list Call)
  (self : Asn1Container) (g : Rng) :
  uncovered_tree self ->
  let s1 := fuzz_calls calls1 self g in
  let s2 := fuzz_calls calls2 (fst s1) (snd s1) in
  forall p n,
    node_at p (fst s1) = Some n -> fully_covered n = true ->
    exists n',
      node_at p (fst s2) = Some n' /\
      unique_ident n' = unique_ident n /\
      fully_covered n' = true.
Proof.
  intros Hu s1 s2 p n Hn Hf.
  assert (Hc1 : consistent (fst s1)).
  { apply fuzz_calls_inv. apply uncovered_tree_consistent. exact Hu. }
  destruct (@fuzz_calls_keep_coverage calls2 (fst s1) (snd s1) Hc1) as [_ H].
  apply (H p n Hn Hf).
Qed.

Lemma three_scalars_uncovered : uncovered_tree (three_scalars false false false false).
Proof.
  constructor; [reflexivity|]. simpl. constructor.
  repeat constructor.
Defined.

Lemma fuzz_coverage_monotone_witness :
  exists n',
    node_at [SKey "A"]
      (fst (fuzz_calls [mkCall None None true 1; mkCall (Some ["Int"]) None false 4]
              (fst (fuzz_calls [mkCall None None true 1]
                      (three_scalars false false false false) (constant_rng 0)))
              (snd (fuzz_calls [mkCall None None true 1]
                      (three_scalars false false false false) (constant_rng 0)))))
    = Some n' /\
    unique_ident n' = "Bool" /\
    fully_covered n' = true.
Proof.
  apply (@fuzz_coverage_monotone
           [mkCall None None true 1]
           [mkCall None None true 1; mkCall (Some ["Int"]) None false 4]
           (three_scalars false false false false) (constant_rng 0)
           three_scalars_uncovered
           [SKey "A"] (set_fully_covered true boolean_node)).
  - vm_compute; reflexivity.
  - reflexivity.
Defined.

(** Every tree as construction leaves it is in such a state, hence so is
    every tree reached from it by calls of [fuzz]. *)
Lemma fuzz_calls_consistent_from_construction (calls : list Call)
  (self : Asn1Container) (g : Rng) :
  uncovered_tree self -> consistent (fst (fuzz_calls calls self g)).
Proof.
  intros H. apply fuzz_calls_inv. apply uncovered_tree_consistent. exact H.
Qed.

(** Why [reset_coverage] is excluded: after a reset of an inner node, a
    later call can take the flag of its parent back.  Here the optional
    field is reset and then skipped by the next call on the SEQUENCE. *)
Example reset_coverage_breaks_monotonicity :
  let record := new_container "Record" "SEQUENCE" false
                  (NDict [("opt", new_container "Null" "NULL" true NNone None)])
                  None in
  let covered := fst (fuzz_calls [mkCall None None true 1] record (constant_rng 1)) in
  let reset := set_nested
                 (NDict [("opt", reset_coverage
                                   (new_container "Null" "NULL" true NNone None))])
                 covered in
  fully_covered covered = true /\
  fully_covered reset = true /\
  fully_covered (fst (fuzz_calls [mkCall None None false 1] reset (constant_rng 0)))
  = false.
Proof. repeat split; vm_compute; reflexivity. Qed.

(** ** [coverage] *)

Lemma coverage_unfold (self : Asn1Container) :
  coverage self =
  match classify (asn1_type self) with
  | KChoice | KSequence =>
      match nested self with
      | NDict fields =>
          omap (fun tc => PyList2 (fst tc) (snd tc))
            (coverage_fields coverage fields 0 0)
      | _ => Raise AttributeError
      end
  | KSequenceOf =>
      match nested self with
      | NNode child => coverage child
      | _ => Raise AttributeError
      end
  | _ => Ok (PyTuple2 1 (int_of_bool (fully_covered self)))
  end.
Proof. destruct self; reflexivity. Qed.

(** A property of the running sums that every child keeps holds of the
    sums the loop ends with. *)
Lemma coverage_fields_inv (rec : Asn1Container -> Outcome CoverageResult)
  (P : Z -> Z -> Prop) (fields : Fields) :
  (forall kv cv, In kv fields -> rec (snd kv) = Ok cv ->
                 forall t c, P t c -> P (t + item0 cv) (c + item1 cv)) ->
  forall t c t' c',
    P t c -> coverage_fields rec fields t c = Ok (t', c') -> P t' c'.
Proof.
  induction fields as [|[key value] rest IH]; intros Hstep t c t' c' HP Hrun;
    simpl in Hrun.
  - injection Hrun as <- <-. exact HP.
  - destruct (rec value) as [cv|e|] eqn:Hv; try discriminate.
    eapply IH; [|eapply (Hstep (key, value) cv); [left; reflexivity|exact Hv|exact HP]|exact Hrun].
    intros kv cv' Hin. apply Hstep. right; exact Hin.
Qed.

(** What [coverage] returns for a property [P] of (total, covered) that
    leaves have and sums keep. *)
Lemma coverage_inv (P : Z -> Z -> Prop) (good : Asn1Container -> Prop) :
  P 0 0 ->
  (forall a b x y, P a b -> P x y -> P (a + x) (b + y)) ->
  (forall c, good c -> P 1 (int_of_bool (fully_covered c))) ->
  (forall c fields kv,
      classify (asn1_type c) = KSequence \/ classify (asn1_type c) = KChoice ->
      good c -> nested c = NDict fields -> In kv fields -> good (snd kv)) ->
  (forall c child,
      classify (asn1_type c) = KSequenceOf ->
      good c -> nested c = NNode child -> good child) ->
  forall self cv,
    good self -> coverage self = Ok cv -> P (item0 cv) (item1 cv).
Proof.
  intros P0 Padd Pleaf Gf Gc self.
  induction self as [self IHf IHc] using container_ind.
  intros cv Hg Hcov. rewrite coverage_unfold in Hcov.
  assert (Hdict : forall fields,
            classify (asn1_type self) = KSequence \/
            classify (asn1_type self) = KChoice ->
            nested self = NDict fields ->
            omap (fun tc => PyList2 (fst tc) (snd tc))
              (coverage_fields coverage fields 0 0) = Ok cv ->
            P (item0 cv) (item1 cv)).
  { intros fields Hk Hn Hrun.
    destruct (coverage_fields coverage fields 0 0) as [[t c]|e|] eqn:Hf;
      try discriminate.
    simpl in Hrun. injection Hrun as <-. simpl.
    eapply (@coverage_fields_inv coverage P fields); [|exact P0|exact Hf].
    intros kv cv' Hin Hkv t0 c0 Htc. apply Padd; [exact Htc|].
    eapply IHf; [exact Hn | exact Hin | eapply Gf; eassumption | exact Hkv]. }
  destruct (classify (asn1_type self)) eqn:Hk;
    try (injection Hcov as <-; simpl; apply Pleaf; exact Hg).
  - destruct (nested self) as [|fields| | |] eqn:Hn; try discriminate.
    eapply Hdict; [left; reflexivity | reflexivity | exact Hcov].
  - destruct (nested self) as [|fields| | |] eqn:Hn; try discriminate.
    eapply Hdict; [right; reflexivity | reflexivity | exact Hcov].
  - destruct (nested self) as [| |child| |] eqn:Hn; try discriminate.
    eapply IHc; [reflexivity | eapply Gc; [exact Hk | exact Hg | exact Hn]
                | exact Hcov].
Qed.

(** X1.  Whenever [coverage] returns, the covered count it reports lies
    between 0 and the total. *)
Theorem coverage_bounds (self : Asn1Container) (cv : CoverageResult) :
  coverage self = Ok cv -> 0 <= item1 cv <= item0 cv.
Proof.
  intros Hcov.
  apply (@coverage_inv (fun t c => 0 <= c <= t) (fun _ => True))
    with (self := self); auto.
  - lia.
  - intros; lia.
  - intros c _. destruct (fully_covered c); simpl; lia.
Qed.

Lemma coverage_bounds_witness :
  coverage (three_scalars false false true false) = Ok (PyList2 3 1) /\
  0 <= 1 <= 3.
Proof.
  split; [reflexivity|].
  apply (@coverage_bounds (three_scalars false false true false) (PyList2 3 1)).
  reflexivity.
Defined.

Lemma uncovered_tree_flag (c : Asn1Container) :
  uncovered_tree c -> fully_covered c = false.
Proof. intros H; destruct H; assumption. Qed.

Lemma nested_all_field (P : Asn1Container -> Prop) (c : Asn1Container)
  (fields : Fields) (kv : string * Asn1Container) :
  nested_all P (nested c) -> nested c = NDict fields -> In kv fields ->
  P (snd kv).
Proof.
  intros H Hn Hin. rewrite Hn in H. inversion H as [|l Hl| | |]; subst.
  rewrite Forall_forall in Hl. apply Hl. exact Hin.
Qed.

Lemma nested_all_child (P : Asn1Container -> Prop) (c child : Asn1Container) :
  nested_all P (nested c) -> nested c = NNode child -> P child.
Proof.
  intros H Hn. rewrite Hn in H. inversion H; subst. assumption.
Qed.

(** X2.  On a tree as construction leaves it, [coverage] reports no
    covered element. *)
Theorem coverage_of_uncovered_tree (self : Asn1Container) (cv : CoverageResult) :
  uncovered_tree self -> coverage self = Ok cv -> item1 cv = 0.
Proof.
  intros Hu Hcov.
  apply (@coverage_inv (fun _ c => c = 0) uncovered_tree) with (self := self);
    auto.
  - intros; lia.
  - intros c Hc. rewrite (uncovered_tree_flag Hc). reflexivity.
  - intros c fields kv _ Hc Hn Hin. destruct Hc as [c _ Hall].
    eapply nested_all_field; eassumption.
  - intros c child _ Hc Hn. destruct Hc as [c _ Hall].
    eapply nested_all_child; eassumption.
Qed.

Lemma coverage_of_uncovered_tree_witness :
  coverage (three_scalars false false false false) = Ok (PyList2 3 0) /\
  item1 (PyList2 3 0) = 0.
Proof.
  split; [reflexivity|].
  apply (@coverage_of_uncovered_tree (three_scalars false false false false)
           (PyList2 3 0) three_scalars_uncovered).
  reflexivity.
Defined.

Lemma covered_and_consistent_field (c : Asn1Container) (fields : Fields)
  (kv : string * Asn1Container) :
  classify (asn1_type c) = KSequence \/ classify (asn1_type c) = KChoice ->
  covered_and_consistent c -> nested c = NDict fields -> In kv fields ->
  covered_and_consistent (snd kv).
Proof.
  intros Hk [Hc Hf] Hn Hin. destruct Hc as [c Hch Hall]. split.
  - eapply nested_all_field; eassumption.
  - specialize (Hch Hf). unfold children_covered in Hch. rewrite Hn in Hch.
    assert (Hall' : all_covered_fields fields = true)
      by (destruct Hk as [Hk|Hk]; rewrite Hk in Hch; exact Hch).
    unfold all_covered_fields in Hall'. rewrite forallb_forall in Hall'.
    apply Hall'. exact Hin.
Qed.

Lemma covered_and_consistent_child (c child : Asn1Container) :
  classify (asn1_type c) = KSequenceOf ->
  covered_and_consistent c -> nested c = NNode child ->
  covered_and_consistent child.
Proof.
  intros Hk [Hc Hf] Hn. destruct Hc as [c Hch Hall]. split.
  - eapply nested_all_child; eassumption.
  - specialize (Hch Hf). unfold children_covered in Hch.
    rewrite Hk, Hn in Hch. exact Hch.
Qed.

(** X3.  In a tree with consistent flags, a node whose flag is true reports
    full coverage: the covered count [coverage] returns equals the total. *)
Theorem coverage_of_covered_node (self : Asn1Container) (cv : CoverageResult) :
  consistent self -> fully_covered self = true ->
  coverage self = Ok cv -> item1 cv = item0 cv.
Proof.
  intros Hc Hf Hcov.
  apply (@coverage_inv (fun t c => c = t) covered_and_consistent)
    with (self := self); auto.
  - intros; lia.
  - intros c [_ Hcf]. rewrite Hcf. reflexivity.
  - intros c fields kv Hk Hg Hn Hin.
    eapply covered_and_consistent_field; eassumption.
  - intros c child Hk Hg Hn.
    eapply covered_and_consistent_child; eassumption.
  - split; assumption.
Qed.

Lemma three_scalars_covered_consistent :
  consistent (three_scalars true true true true).
Proof.
  constructor; [intros _; reflexivity|]. simpl. constructor.
  repeat constructor; simpl; intros _; reflexivity.
Defined.

Lemma coverage_of_covered_node_witness :
  coverage (three_scalars true true true true) = Ok (PyList2 3 3) /\
  item1 (PyList2 3 3) = item0 (PyList2 3 3).
Proof.
  split; [reflexivity|].
  apply (@coverage_of_covered_node (three_scalars true true true true)
           (PyList2 3 3) three_scalars_covered_consistent);
    reflexivity.
Defined.

(** [coverage] on two trees of the same shape whose flags are related node
    by node: the totals agree and the covered counts are related. *)
Lemma coverage_rel (R : Asn1Container -> Asn1Container -> Prop)
  (rel : Z -> Z -> Prop) :
  rel 0 0 ->
  (forall a b x y, rel a b -> rel x y -> rel (a + x) (b + y)) ->
  (forall c c', R c c' ->
                rel (int_of_bool (fully_covered c)) (int_of_bool (fully_covered c'))) ->
  forall t t' cv,
    tree_rel R t t' -> coverage t = Ok cv ->
    exists cv',
      coverage t' = Ok cv' /\ item0 cv' = item0 cv /\ rel (item1 cv) (item1 cv').
Proof.
  intros R0 Radd Rleaf t.
  induction t as [t IHf IHc] using container_ind.
  intros t' cv Hrel Hcov.
  destruct Hrel as [t t' _ Ht _ _ HR Hn].
  rewrite coverage_unfold in Hcov. rewrite coverage_unfold. rewrite <- Ht.
  assert (Hdict : forall l l',
            nested t = NDict l ->
            fields_rel (tree_rel R) l l' ->
            omap (fun tc => PyList2 (fst tc) (snd tc))
              (coverage_fields coverage l 0 0) = Ok cv ->
            exists cv',
              omap (fun tc => PyList2 (fst tc) (snd tc))
                (coverage_fields coverage l' 0 0) = Ok cv' /\
              item0 cv' = item0 cv /\ rel (item1 cv) (item1 cv')).
  { intros l l' Hnl Hl Hrun.
    assert (Hgen : forall a b b',
               rel b b' ->
               forall tc, coverage_fields coverage l a b = Ok tc ->
               exists tc', coverage_fields coverage l' a b' = Ok tc' /\
                           fst tc' = fst tc /\ rel (snd tc) (snd tc')).
    { assert (IH : forall kv, In kv l ->
                 forall x cv0, tree_rel R (snd kv) x -> coverage (snd kv) = Ok cv0 ->
                 exists cv', coverage x = Ok cv' /\ item0 cv' = item0 cv0 /\
                             rel (item1 cv0) (item1 cv'))
        by (intros kv Hin; eapply IHf; eassumption).
      clear IHf IHc Hrun Hnl.
      induction Hl as [|[k v] [k' v'] l l' [Hk Hv] Hrest IHl];
        intros a b b' Hb tc Htc; simpl in *.
      - injection Htc as <-. eexists; split; [reflexivity|]. split; auto.
      - destruct (coverage v) as [cv0|e|] eqn:Hcv; try discriminate.
        destruct (IH (k, v) (or_introl eq_refl) v' cv0 Hv Hcv)
          as (cv1 & Hcv1 & H0 & H1).
        rewrite Hcv1, H0.
        eapply IHl; [|apply Radd; eassumption|exact Htc].
        intros kv Hin. apply IH. right; exact Hin. }
    destruct (coverage_fields coverage l 0 0) as [tc|e|] eqn:Hf;
      try discriminate.
    simpl in Hrun. injection Hrun as <-.
    destruct (Hgen 0 0 0 R0 tc Hf) as (tc' & Htc' & H0 & H1).
    rewrite Htc'. simpl. eexists; split; [reflexivity|]. simpl. auto. }
  destruct (classify (asn1_type t)) eqn:Hk;
    try (injection Hcov as <-; eexists; split; [reflexivity|]; simpl;
         split; [reflexivity | apply Rleaf; exact HR]).
  - destruct Hn as [|l l' Hl|v v' Hv|l|f]; try discriminate.
    eapply Hdict; [reflexivity | exact Hl | exact Hcov].
  - destruct Hn as [|l l' Hl|v v' Hv|l|f]; try discriminate.
    eapply Hdict; [reflexivity | exact Hl | exact Hcov].
  - destruct Hn as [|l l' Hl|v v' Hv|l|f]; try discriminate.
    eapply IHc; [reflexivity | exact Hv | exact Hcov].
Qed.

(** X4.  A call of [fuzz] never changes the total that [coverage] reports,
    and on a tree with consistent flags it never lowers the covered
    count; this holds whether the call returns or raises. *)
Theorem fuzz_coverage_counts (al bl : option (list string)) (ca : bool)
  (m : Z) (self : Asn1Container) (g : Rng) (cv : CoverageResult) :
  coverage self = Ok cv ->
  exists cv',
    coverage (res_tree (fuzz al bl ca m self g)) = Ok cv' /\
    item0 cv' = item0 cv /\
    (consistent self -> item1 cv <= item1 cv').
Proof.
  intros Hcov.
  destruct (fuzz_inv_holds al bl ca m self g) as [Hshape Hkept].
  destruct (@coverage_rel any_change (fun _ _ => True) I
              (fun _ _ _ _ _ _ => I) (fun _ _ _ => I)
              self _ cv Hshape Hcov) as (cv' & Hcv' & H0 & _).
  exists cv'. split; [exact Hcv'|]. split; [exact H0|].
  intros Hc. destruct (Hkept Hc) as [Hk _].
  destruct (@coverage_rel flag_kept Z.le (Z.le_refl 0)
              (fun a b x y H1 H2 => Z.add_le_mono a b x y H1 H2)) with
    (t := self) (t' := res_tree (fuzz al bl ca m self g)) (cv := cv)
    as (cv2 & Hcv2 & _ & Hle); auto.
  - intros c c' Hcc. unfold flag_kept in Hcc.
    destruct (fully_covered c); [rewrite Hcc by reflexivity; simpl; lia|].
    destruct (fully_covered c'); simpl; lia.
  - rewrite Hcv' in Hcv2. injection Hcv2 as <-. exact Hle.
Qed.

Lemma fuzz_coverage_counts_witness :
  exists cv',
    coverage (res_tree (fuzz None None true 1
                          (three_scalars false false true false) (constant_rng 0)))
    = Ok cv' /\
    item0 cv' = 3 /\
    (consistent (three_scalars false false true false) -> 1 <= item1 cv').
Proof.
  apply (@fuzz_coverage_counts None None true 1
           (three_scalars false false true false) (constant_rng 0) (PyList2 3 1)).
  reflexivity.
Defined.

Lemma classify_composite_coverage (self : Asn1Container) (b : bool) :
  classify (asn1_type self) = KSequence \/
  classify (asn1_type self) = KChoice \/
  classify (asn1_type self) = KSequenceOf ->
  coverage (set_fully_covered b self) = coverage self.
Proof.
  intros Hk. rewrite !coverage_unfold. simpl.
  destruct Hk as [Hk|[Hk|Hk]]; rewrite Hk; reflexivity.
Qed.

(** X5.  [reset_coverage] is shallow: on a SEQUENCE, CHOICE, OPEN_TYPE, ANY
    or SEQUENCE OF node it changes nothing below the node, so a fully
    covered node still reports full coverage after it has been reset. *)
Theorem reset_coverage_keeps_counts (self : Asn1Container) (cv : CoverageResult) :
  classify (asn1_type self) = KSequence \/
  classify (asn1_type self) = KChoice \/
  classify (asn1_type self) = KSequenceOf ->
  consistent self -> fully_covered self = true ->
  coverage (reset_coverage self) = Ok cv ->
  nested (reset_coverage self) = nested self /\
  fully_covered (reset_coverage self) = false /\
  item1 cv = item0 cv.
Proof.
  intros Hk Hc Hf Hcov. split; [reflexivity|]. split; [reflexivity|].
  unfold reset_coverage in Hcov.
  rewrite (classify_composite_coverage self false Hk) in Hcov.
  apply (@coverage_inv (fun t c => c = t) covered_and_consistent)
    with (self := self); auto.
  - intros; lia.
  - intros c [_ Hcf]. rewrite Hcf. reflexivity.
  - intros c fields kv Hk' Hg Hn Hin.
    eapply covered_and_consistent_field; eassumption.
  - intros c child Hk' Hg Hn.
    eapply covered_and_consistent_child; eassumption.
  - split; assumption.
Qed.

Lemma reset_coverage_keeps_counts_witness :
  nested (reset_coverage (three_scalars true true true true))
  = nested (three_scalars true true true true) /\
  fully_covered (reset_coverage (three_scalars true true true true)) = false /\
  item1 (PyList2 3 3) = item0 (PyList2 3 3).
Proof.
  apply (@reset_coverage_keeps_counts (three_scalars true true true true)
           (PyList2 3 3)).
  - right; left; reflexivity.
  - exact three_scalars_covered_consistent.
  - reflexivity.
  - reflexivity.
Defined.

(** ** What [remove_expandable] leaves *)

Lemma dict_del_spec {A : Type} (k : string) (d d' : list (string * A)) :
  NoDup (keys d) -> dict_del k d = Some d' ->
  NoDup (keys d') /\
  forall k' v, In (k', v) d' -> In (k', v) d /\ k' <> k.
Proof.
  revert d'. induction d as [|[k0 v0] rest IH]; intros d' Hnd Hdel;
    simpl in *; [discriminate|].
  inversion Hnd as [|x xs Hnotin Hnd']; subst.
  destruct (k0 =? k)%string eqn:Hk.
  - injection Hdel as <-. apply String.eqb_eq in Hk. subst k0.
    split; [exact Hnd'|]. intros k' v Hin. split; [right; exact Hin|].
    intros ->. apply Hnotin. unfold keys. apply in_map_iff.
    exists (k, v). split; [reflexivity | exact Hin].
  - destruct (dict_del k rest) as [rest'|] eqn:Hrest; [|discriminate].
    injection Hdel as <-. destruct (IH rest' Hnd' eq_refl) as [Hnd'' Hin'].
    apply String.eqb_neq in Hk. split.
    + simpl. constructor; [|exact Hnd''].
      intros Hin. apply Hnotin. unfold keys in *. apply in_map_iff in Hin.
      destruct Hin as [[k1 v1] [Hk1 Hin1]]. simpl in Hk1. subst k1.
      apply in_map_iff. exists (k0, v1). split; [reflexivity|].
      apply (Hin' k0 v1 Hin1).
    + intros k' v [Heq|Hin].
      * injection Heq as <- <-. split; [left; reflexivity | exact Hk].
      * destruct (Hin' k' v Hin) as [H1 H2]. split; [right; exact H1 | exact H2].
Qed.

Lemma delete_keys_spec (ks : list string) :
  forall d d',
    NoDup (keys d) -> delete_keys ks d = (Ok tt, d') ->
    forall k v, In (k, v) d' -> In (k, v) d /\ ~ In k ks.
Proof.
  induction ks as [|k0 ks IH]; intros d d' Hnd Hdel k v Hin; simpl in *.
  - injection Hdel as <-. split; [exact Hin | intros []].
  - destruct (dict_del k0 d) as [d1|] eqn:Hd1; [|discriminate].
    destruct (@dict_del_spec _ k0 d d1 Hnd Hd1) as [Hnd1 Hin1].
    destruct (IH d1 d' Hnd1 Hdel k v Hin) as [H1 H2].
    destruct (Hin1 k v H1) as [H3 H4].
    split; [exact H3|]. intros [Heq|Hks]; [apply H4; symmetry; exact Heq | exact (H2 Hks)].
Qed.

Lemma prune_choice_spec (rec : Asn1Container -> Outcome bool * Asn1Container)
  (fields : Fields) :
  forall acc ks fields1,
    prune_choice rec fields acc = (Ok ks, fields1) ->
    keys fields1 = keys fields /\
    (forall k, In k acc -> In k ks) /\
    forall k c', In (k, c') fields1 ->
      exists c, In (k, c) fields /\ (rec c = (Ok true, c') \/ In k ks).
Proof.
  induction fields as [|[key value] rest IH]; intros acc ks fields1 Hrun;
    simpl in Hrun.
  - injection Hrun as <- <-. repeat split; auto. intros k c' [].
  - destruct (rec value) as [[b|e|] value'] eqn:Hv; try discriminate.
    destruct (prune_choice rec rest (if b then acc else (acc ++ [key])%list))
      as [r rest'] eqn:Hrest.
    injection Hrun as -> <-.
    destruct (IH _ _ _ Hrest) as (Hkeys & Hacc & Hin).
    assert (Hacc' : forall k, In k acc -> In k ks).
    { intros k Hk. apply Hacc. destruct b; [exact Hk|].
      apply in_or_app. left; exact Hk. }
    split; [simpl; rewrite Hkeys; reflexivity|]. split; [exact Hacc'|].
    intros k c' [Heq|Hk].
    + injection Heq as <- <-. exists value. split; [left; reflexivity|].
      destruct b; [left; exact Hv|]. right. apply Hacc.
      apply in_or_app. right; left; reflexivity.
    + destruct (Hin k c' Hk) as [c [Hc Hor]].
      exists c. split; [right; exact Hc | exact Hor].
Qed.

Lemma prune_sequence_spec (rec : Asn1Container -> Outcome bool * Asn1Container)
  (fields : Fields) :
  forall acc res ks result fields1,
    prune_sequence rec fields acc res = (Ok (ks, result), fields1) ->
    keys fields1 = keys fields /\
    (forall k, In k acc -> In k ks) /\
    (result = true -> res = true) /\
    forall k c', In (k, c') fields1 ->
      exists c, In (k, c) fields /\
                (rec c = (Ok true, c') \/ In k ks \/ result = false).
Proof.
  induction fields as [|[key value] rest IH];
    intros acc res ks result fields1 Hrun; simpl in Hrun.
  - injection Hrun as <- <- <-. repeat split; auto. intros k c' [].
  - destruct (rec value) as [[b|e|] value'] eqn:Hv; try discriminate.
    assert (Hcases : exists acc' res',
               (if b then prune_sequence rec rest acc res
                else if optional value'
                     then prune_sequence rec rest (acc ++ [key])%list res
                     else prune_sequence rec rest acc false)
               = prune_sequence rec rest acc' res' /\
               (forall k, In k acc -> In k acc') /\
               (res' = true -> res = true) /\
               (b = true \/ In key acc' \/ res' = false)).
    { destruct b; [|destruct (optional value')].
      - exists acc, res. repeat split; auto.
      - exists (acc ++ [key])%list, res. repeat split; auto.
        + intros k Hk. apply in_or_app. left; exact Hk.
        + right; left. apply in_or_app. right; left; reflexivity.
      - exists acc, false. repeat split; auto. discriminate. }
    destruct Hcases as (acc' & res' & Heq & Hacc1 & Hres1 & Hthis).
    rewrite Heq in Hrun.
    destruct (prune_sequence rec rest acc' res') as [r rest'] eqn:Hrest.
    injection Hrun as -> <-.
    destruct (IH _ _ _ _ _ Hrest) as (Hkeys & Hacc & Hres & Hin).
    split; [simpl; rewrite Hkeys; reflexivity|].
    split; [intros k Hk; apply Hacc; apply Hacc1; exact Hk|].
    split; [intros Hr; apply Hres1; apply Hres; exact Hr|].
    intros k c' [Hhead|Hk].
    + injection Hhead as <- <-. exists value. split; [left; reflexivity|].
      destruct Hthis as [Hb|[Hk|Hr]].
      * left. rewrite Hb in Hv. exact Hv.
      * right; left. apply Hacc. exact Hk.
      * right; right. destruct result; [|reflexivity].
        specialize (Hres eq_refl). congruence.
    + destruct (Hin k c' Hk) as [c [Hc Hor]].
      exists c. split; [right; exact Hc | exact Hor].
Qed.

Lemma distinct_keys_dict (c : Asn1Container) (fields : Fields) :
  distinct_keys c -> nested c = NDict fields -> NoDup (keys fields).
Proof. intros H Hn. destruct H as [c Hd _]. apply Hd. exact Hn. Qed.

Lemma distinct_keys_field (c : Asn1Container) (fields : Fields)
  (kv : string * Asn1Container) :
  distinct_keys c -> nested c = NDict fields -> In kv fields ->
  distinct_keys (snd kv).
Proof.
  intros H Hn Hin. destruct H as [c _ Hall].
  eapply nested_all_field; eassumption.
Qed.

Lemma distinct_keys_child (c child : Asn1Container) :
  distinct_keys c -> nested c = NNode child -> distinct_keys child.
Proof.
  intros H Hn. destruct H as [c _ Hall].
  eapply nested_all_child; eassumption.
Qed.

(** When [remove_expandable] reports success, no EXPANDABLE node can be
    reached in the tree it leaves. *)
Lemma remove_expandable_sound (self : Asn1Container) :
  distinct_keys self ->
  forall self', remove_expandable self = (Ok true, self') -> finite self'.
Proof.
  induction self as [self IHf IHc] using container_ind.
  intros Hd self' Hrun. rewrite remove_expandable_unfold in Hrun.
  destruct (classify (asn1_type self)) eqn:Hk;
    try (injection Hrun as <-; apply finite_leaf; rewrite Hk; discriminate);
    try discriminate.
  - destruct (nested self) as [|fields| | |] eqn:Hn; try discriminate.
    destruct (prune_sequence remove_expandable fields [] true)
      as [[[ks result]|e|] fields1] eqn:Hp; try discriminate.
    destruct (delete_keys ks fields1) as [[[]|e|] fields2] eqn:Hdel;
      try discriminate.
    simpl in Hrun. injection Hrun as -> <-.
    destruct (@prune_sequence_spec remove_expandable fields [] true ks _ fields1 Hp)
      as (Hkeys & _ & _ & Hin).
    apply finite_dict with (fields := fields2);
      [left; exact Hk | reflexivity|].
    apply Forall_forall. intros [k c'] Hkc.
    assert (Hnd : NoDup (keys fields1))
      by (rewrite Hkeys; eapply distinct_keys_dict; [exact Hd | exact Hn]).
    destruct (@delete_keys_spec ks fields1 fields2 Hnd Hdel k c' Hkc) as [H1 H2].
    destruct (Hin k c' H1) as [c [Hc [Hok|[Hks|Hf]]]];
      [|contradiction|discriminate].
    simpl. eapply (IHf fields (k, c)); [reflexivity | exact Hc | | exact Hok].
    eapply (@distinct_keys_field self fields (k, c)); [exact Hd | exact Hn | exact Hc].
  - destruct (nested self) as [|fields| | |] eqn:Hn; try discriminate.
    destruct (prune_choice remove_expandable fields [])
      as [[ks|e|] fields1] eqn:Hp; try discriminate.
    destruct (delete_keys ks fields1) as [[[]|e|] fields2] eqn:Hdel;
      try discriminate.
    simpl in Hrun. injection Hrun as <-.
    destruct (@prune_choice_spec remove_expandable fields [] ks fields1 Hp)
      as (Hkeys & _ & Hin).
    apply finite_dict with (fields := fields2);
      [right; exact Hk | reflexivity|].
    apply Forall_forall. intros [k c'] Hkc.
    assert (Hnd : NoDup (keys fields1))
      by (rewrite Hkeys; eapply distinct_keys_dict; [exact Hd | exact Hn]).
    destruct (@delete_keys_spec ks fields1 fields2 Hnd Hdel k c' Hkc) as [H1 H2].
    destruct (Hin k c' H1) as [c [Hc [Hok|Hks]]]; [|contradiction].
    simpl. eapply (IHf fields (k, c)); [reflexivity | exact Hc | | exact Hok].
    eapply (@distinct_keys_field self fields (k, c)); [exact Hd | exact Hn | exact Hc].
  - destruct (nested self) as [| |child| |] eqn:Hn; try discriminate.
    destruct (remove_expandable child) as [r child'] eqn:Hc.
    injection Hrun as -> <-.
    apply finite_sequence_of with (child := child');
      [exact Hk | reflexivity|].
    eapply IHc; [reflexivity | | exact Hc].
    eapply distinct_keys_child; [exact Hd | exact Hn].
Qed.

(** On a tree from which no EXPANDABLE node can be reached,
    [remove_expandable] succeeds and removes nothing. *)
Lemma remove_expandable_finite (self : Asn1Container) :
  finite self -> remove_expandable self = (Ok true, self).
Proof.
  induction self as [self IHf IHc] using container_ind.
  intros Hfin. rewrite remove_expandable_unfold.
  destruct Hfin as [c fields Hk Hn Hall|c child Hk Hn Hchild|c H1 H2 H3 H4].
  - rewrite Forall_forall in Hall.
    assert (Hrec : forall kv, In kv fields ->
                     remove_expandable (snd kv) = (Ok true, snd kv))
      by (intros kv Hin; eapply IHf; [exact Hn | exact Hin | apply Hall; exact Hin]).
    destruct Hk as [Hk|Hk]; rewrite Hk, Hn.
    + rewrite (@prune_sequence_noop remove_expandable fields Hrec). simpl.
      rewrite (@set_nested_same c _ Hn). reflexivity.
    + rewrite (@prune_choice_noop remove_expandable fields Hrec). simpl.
      rewrite (@set_nested_same c _ Hn). reflexivity.
  - rewrite Hk, Hn. rewrite (IHc child Hn Hchild).
    rewrite (@set_nested_same c _ Hn). reflexivity.
  - destruct (classify (asn1_type c)); try reflexivity; contradiction.
Qed.

(** X6.  In a tree whose dicts have distinct keys, success of
    [remove_expandable] means what it says: in the tree it leaves, no
    EXPANDABLE node is reachable through dict children and SEQUENCE OF
    element children. *)
Theorem remove_expandable_success_finite (self self' : Asn1Container) :
  distinct_keys self ->
  remove_expandable self = (Ok true, self') ->
  finite self'.
Proof. intros Hd Hrun. eapply remove_expandable_sound; eassumption. Qed.

(** X7.  A second [remove_expandable] after a successful one succeeds
    again and changes nothing. *)
Theorem remove_expandable_idempotent (self self' : Asn1Container) :
  distinct_keys self ->
  remove_expandable self = (Ok true, self') ->
  remove_expandable self' = (Ok true, self').
Proof.
  intros Hd Hrun. apply remove_expandable_finite.
  eapply remove_expandable_sound; eassumption.
Qed.

Ltac solve_distinct_keys :=
  repeat match goal with
         | |- distinct_keys _ => constructor
         | |- forall fields, _ = NDict fields -> NoDup (keys fields) =>
             let f := fresh "fields" in
             let H := fresh "H" in
             intros f H; simpl in H;
             first [discriminate H
                   | injection H as <-; repeat constructor; simpl;
                     intuition discriminate]
         | |- nested_all _ _ => simpl; constructor
         | |- Forall _ _ => constructor
         end.

Lemma record_with_optional_placeholder_distinct :
  distinct_keys record_with_optional_placeholder.
Proof. solve_distinct_keys. Defined.

Lemma remove_expandable_success_finite_witness :
  remove_expandable record_with_optional_placeholder
  = (Ok true,
     new_container "Record" "SEQUENCE" false
       (NDict [("count", integer_node (Some [Some 0; Some 8]))]) None) /\
  finite (new_container "Record" "SEQUENCE" false
            (NDict [("count", integer_node (Some [Some 0; Some 8]))]) None).
Proof.
  split; [reflexivity|].
  apply (@remove_expandable_success_finite record_with_optional_placeholder _
           record_with_optional_placeholder_distinct).
  reflexivity.
Defined.

Lemma remove_expandable_idempotent_witness :
  remove_expandable
    (new_container "Record" "SEQUENCE" false
       (NDict [("count", integer_node (Some [Some 0; Some 8]))]) None)
  = (Ok true,
     new_container "Record" "SEQUENCE" false
       (NDict [("count", integer_node (Some [Some 0; Some 8]))]) None).
Proof.
  apply (@remove_expandable_idempotent record_with_optional_placeholder _
           record_with_optional_placeholder_distinct).
  reflexivity.
Defined.

Lemma classify_expandable (t : string) :
  t = "EXPANDABLE" -> classify t = KExpandable.
Proof. intros ->. reflexivity. Qed.

Lemma remove_expandable_placeholder (c : Asn1Container) :
  asn1_type c = "EXPANDABLE" -> remove_expandable c = (Ok false, c).
Proof.
  intros Ht. rewrite remove_expandable_unfold, (classify_expandable Ht).
  reflexivity.
Qed.

Lemma prune_choice_all_fail (rec : Asn1Container -> Outcome bool * Asn1Container)
  (fields : Fields) :
  (forall kv, In kv fields -> rec (snd kv) = (Ok false, snd kv)) ->
  forall acc,
    prune_choice rec fields acc = (Ok (acc ++ keys fields), fields).
Proof.
  induction fields as [|[key value] rest IH]; intros Hrec acc; simpl.
  - rewrite app_nil_r. reflexivity.
  - pose proof (Hrec (key, value) (or_introl eq_refl)) as Hv. simpl in Hv.
    rewrite Hv. rewrite IH by (intros kv Hin; apply Hrec; right; exact Hin).
    rewrite <- app_assoc. reflexivity.
Qed.

Lemma delete_keys_all (fields : Fields) :
  delete_keys (keys fields) fields = (Ok tt, []).
Proof.
  induction fields as [|[key value] rest IH]; simpl; [reflexivity|].
  rewrite String.eqb_refl. exact IH.
Qed.

(** X8.  A CHOICE, OPEN_TYPE or ANY node all of whose alternatives are
    EXPANDABLE nodes is pruned to a node without alternatives, and
    [remove_expandable] reports success; a later [fuzz] without allowlist
    on that node raises IndexError and draws nothing. *)
Theorem remove_expandable_empties_choice (self : Asn1Container)
  (fields : Fields) :
  classify (asn1_type self) = KChoice ->
  nested self = NDict fields ->
  (forall kv, In kv fields -> asn1_type (snd kv) = "EXPANDABLE") ->
  remove_expandable self = (Ok true, set_nested (NDict []) self) /\
  forall bl ca m g,
    fuzz None bl ca m (set_nested (NDict []) self) g
    = (Raise IndexError, set_nested (NDict []) self, g).
Proof.
  intros Hk Hn Hall. split.
  - rewrite remove_expandable_unfold, Hk, Hn.
    rewrite (@prune_choice_all_fail remove_expandable fields).
    + simpl. rewrite delete_keys_all. reflexivity.
    + intros kv Hin. apply remove_expandable_placeholder. apply Hall. exact Hin.
  - intros bl ca m g. rewrite fuzz_equation. unfold fuzz_body. simpl.
    rewrite Hk. simpl. unfold fuzz_choice, nested_filtered.
    destruct ca; reflexivity.
Qed.

Lemma remove_expandable_empties_choice_witness :
  remove_expandable choice_of_placeholders
  = (Ok true, set_nested (NDict []) choice_of_placeholders) /\
  forall bl ca m g,
    fuzz None bl ca m (set_nested (NDict []) choice_of_placeholders) g
    = (Raise IndexError, set_nested (NDict []) choice_of_placeholders, g).
Proof.
  apply (@remove_expandable_empties_choice choice_of_placeholders
           [("left", expandable_node); ("right", optional_expandable_node)]).
  - reflexivity.
  - reflexivity.
  - intros kv [<-|[<-|[]]]; reflexivity.
Defined.

Lemma prune_sequence_mandatory_fail
  (rec : Asn1Container -> Outcome bool * Asn1Container) (fields : Fields)
  (key : string) (c : Asn1Container) :
  In (key, c) fields ->
  (exists c', rec c = (Ok false, c') /\ optional c' = false) ->
  forall acc res ks result fields1,
    prune_sequence rec fields acc res = (Ok (ks, result), fields1) ->
    result = false.
Proof.
  intros Hin Hfail.
  induction fields as [|[k v] rest IH]; intros acc res ks result fields1 Hrun;
    [contradiction|].
  simpl in Hrun. destruct Hin as [Heq|Hin].
  - injection Heq as -> ->. destruct Hfail as [c' [Hc Hopt]].
    rewrite Hc, Hopt in Hrun.
    destruct (prune_sequence rec rest acc false) as [r rest'] eqn:Hrest.
    injection Hrun as -> _.
    destruct (@prune_sequence_spec rec rest acc false ks result rest' Hrest)
      as (_ & _ & Hres & _).
    destruct result; [|reflexivity]. specialize (Hres eq_refl). discriminate.
  - destruct (rec v) as [[b|e|] v'] eqn:Hv; try discriminate.
    destruct b; [|destruct (optional v')];
      match type of Hrun with
      | (let '(_, _) := ?p in _) = _ => destruct p as [r rest'] eqn:Hrest
      end;
      injection Hrun as -> _; eapply IH; eassumption.
Qed.

(** X9.  A SEQUENCE that holds an EXPANDABLE node as a mandatory field is
    never pruned successfully: whatever its other fields are,
    [remove_expandable] does not return True on it. *)
Theorem remove_expandable_mandatory_placeholder (self : Asn1Container)
  (fields : Fields) (key : string) (c : Asn1Container) :
  classify (asn1_type self) = KSequence ->
  nested self = NDict fields ->
  In (key, c) fields ->
  asn1_type c = "EXPANDABLE" -> optional c = false ->
  fst (remove_expandable self) <> Ok true.
Proof.
  intros Hk Hn Hin Ht Hopt. rewrite remove_expandable_unfold, Hk, Hn.
  destruct (prune_sequence remove_expandable fields [] true)
    as [[[ks result]|e|] fields1] eqn:Hp; simpl; try discriminate.
  assert (Hr : result = false).
  { eapply (@prune_sequence_mandatory_fail remove_expandable fields key c Hin);
      [|exact Hp].
    exists c. split; [apply remove_expandable_placeholder; exact Ht | exact Hopt]. }
  subst result.
  destruct (delete_keys ks fields1) as [[[]|e|] fields2]; simpl; discriminate.
Qed.

Lemma remove_expandable_mandatory_placeholder_witness :
  fst (remove_expandable record_with_placeholders) <> Ok true.
Proof.
  apply (@remove_expandable_mandatory_placeholder record_with_placeholders
           [("items", sequence_of_node expandable_node None);
            ("next", expandable_node)] "next" expandable_node).
  - reflexivity.
  - reflexivity.
  - right; left; reflexivity.
  - reflexivity.
  - reflexivity.
Defined.

(** ** What [expand_once] does *)

Lemma finite_not_expandable (c : Asn1Container) :
  finite c -> (asn1_type c =? "EXPANDABLE")%string = false.
Proof.
  intros Hfin. destruct (asn1_type c =? "EXPANDABLE")%string eqn:He;
    [|reflexivity].
  apply String.eqb_eq in He. exfalso.
  destruct Hfin as [c fields Hk Hn Hall|c child Hk Hn Hchild|c H1 H2 H3 H4];
    rewrite He in *.
  - destruct Hk as [Hk|Hk]; discriminate Hk.
  - discriminate Hk.
  - apply H1. reflexivity.
Qed.

Lemma expand_fields_noop
  (rec : Asn1Container -> IdentHistory
         -> Outcome unit * Asn1Container * IdentHistory)
  (fields : Fields) (h : IdentHistory) :
  (forall kv, In kv fields ->
              (asn1_type (snd kv) =? "EXPANDABLE")%string = false /\
              rec (snd kv) h = (Ok tt, snd kv, h)) ->
  expand_fields rec fields h = (Ok tt, fields, h).
Proof.
  induction fields as [|[key value] rest IH]; intros Hall; simpl;
    [reflexivity|].
  destruct (Hall (key, value) (or_introl eq_refl)) as [Hne Hrec].
  simpl in Hne, Hrec. rewrite Hne, Hrec. simpl.
  rewrite IH; [reflexivity|]. intros kv Hin. apply Hall. right; exact Hin.
Qed.

(** A pass of [expand_once] over a tree without reachable EXPANDABLE
    node. *)
Lemma expand_once_noop (self : Asn1Container) (h : IdentHistory) :
  finite self -> expand_once self h = (Ok tt, self, h).
Proof.
  induction self as [self IHf IHc] using container_ind.
  intros Hfin. rewrite expand_once_unfold.
  destruct Hfin as [c fields Hk Hn Hall|c child Hk Hn Hchild|c H1 H2 H3 H4].
  - rewrite Forall_forall in Hall.
    assert (Hrun : expand_fields expand_once fields h = (Ok tt, fields, h)).
    { apply expand_fields_noop. intros kv Hin. split.
      - apply finite_not_expandable. apply Hall. exact Hin.
      - eapply IHf; [exact Hn | exact Hin | apply Hall; exact Hin]. }
    destruct Hk as [Hk|Hk]; rewrite Hk, Hn, Hrun;
      rewrite (@set_nested_same c _ Hn); reflexivity.
  - rewrite Hk. reflexivity.
  - destruct (classify (asn1_type c)); try reflexivity; contradiction.
Qed.

(** X10.  On a tree from which no EXPANDABLE node can be reached,
    [expand_once] changes nothing: it returns, and leaves the tree and the
    identifier history as they were. *)
Theorem expand_once_finite (self : Asn1Container) (h : IdentHistory) :
  finite self -> expand_once self h = (Ok tt, self, h).
Proof. apply expand_once_noop. Qed.

Lemma expand_once_finite_witness :
  finite finite_choice /\
  expand_once finite_choice [("Alt", 2%nat)]
  = (Ok tt, finite_choice, [("Alt", 2%nat)]).
Proof.
  assert (Hfin : finite finite_choice).
  { apply finite_dict with
      (fields := [("none", null_node);
                  ("flags", sequence_of_node boolean_node None)]);
      [right; reflexivity | reflexivity|].
    apply Forall_cons; [|apply Forall_cons; [|apply Forall_nil]].
    - apply finite_leaf; simpl; discriminate.
    - apply finite_sequence_of with (child := boolean_node);
        [reflexivity | reflexivity|].
      apply finite_leaf; simpl; discriminate. }
  split; [exact Hfin|]. apply expand_once_finite. exact Hfin.
Defined.

Lemma expand_fields_placeholders
  (rec : Asn1Container -> IdentHistory
         -> Outcome unit * Asn1Container * IdentHistory)
  (fields : Fields) (objs : list (string * Factory)) :
  placeholders_for fields objs ->
  forall h,
    expand_fields rec fields h
    = (Ok tt, fst (build_protos objs h), snd (build_protos objs h)).
Proof.
  induction 1 as [|[key value] [key' get_proto] fields objs (Hk & Ht & Hn) Hrest IH];
    intros h; simpl in *; [reflexivity|].
  subst key'. rewrite Ht, Hn. simpl.
  destruct (get_proto h) as [proto h1]. rewrite IH.
  destruct (build_protos objs h1) as [rest' h2]. reflexivity.
Qed.

(** X11.  One pass of [expand_once] over a SEQUENCE, CHOICE, OPEN_TYPE or
    ANY node whose children are all EXPANDABLE nodes with a schema object
    replaces every child by the prototype of its object, under the same key
    and in dict order; each [get_proto] receives the history the previous
    one left, and the new subtrees are not visited in this pass. *)
Theorem expand_once_builds_protos (self : Asn1Container) (fields : Fields)
  (objs : list (string * Factory)) (h : IdentHistory) :
  classify (asn1_type self) = KSequence \/ classify (asn1_type self) = KChoice ->
  nested self = NDict fields ->
  placeholders_for fields objs ->
  expand_once self h
  = (Ok tt, set_nested (NDict (fst (build_protos objs h))) self,
     snd (build_protos objs h)).
Proof.
  intros Hk Hn Hp. rewrite expand_once_unfold.
  destruct Hk as [Hk|Hk]; rewrite Hk, Hn;
    rewrite (@expand_fields_placeholders expand_once fields objs Hp h);
    reflexivity.
Qed.

Lemma expand_once_builds_protos_witness :
  expand_once choice_of_placeholders []
  = (Ok tt,
     set_nested (NDict [("left", null_node); ("right", null_node)])
       choice_of_placeholders,
     [("Rec", 1%nat); ("Rec", 1%nat)]).
Proof.
  apply (@expand_once_builds_protos choice_of_placeholders
           [("left", expandable_node); ("right", optional_expandable_node)]
           [("left", fun h => (null_node, ("Rec", 1%nat) :: h));
            ("right", fun h => (null_node, ("Rec", 1%nat) :: h))] []).
  - right; reflexivity.
  - reflexivity.
  - repeat constructor.
Defined.

Lemma expand_fields_keys
  (rec : Asn1Container -> IdentHistory
         -> Outcome unit * Asn1Container * IdentHistory)
  (fields : Fields) :
  forall h, keys (snd (fst (expand_fields rec fields h))) = keys fields.
Proof.
  induction fields as [|[key value] rest IH]; intros h; simpl; [reflexivity|].
  destruct ((asn1_type value =? "EXPANDABLE")%string
            && negb (is_nnone (nested value))).
  - destruct (nested value) as [| | | |get_proto]; try reflexivity.
    destruct (get_proto h) as [proto h1]. specialize (IH h1).
    destruct (expand_fields rec rest h1) as [[r rest'] h2]. simpl in *.
    rewrite IH. reflexivity.
  - destruct (rec value h) as [[[u|e|] value'] h1]; try reflexivity.
    specialize (IH h1).
    destruct (expand_fields rec rest h1) as [[r rest'] h2]. simpl in *.
    rewrite IH. reflexivity.
Qed.

Lemma expand_field_refl (fields : Fields) : Forall2 expand_field fields fields.
Proof.
  induction fields as [|kv rest IH]; constructor; [|exact IH].
  split; [reflexivity | left; apply expand_frame_same].
Qed.

Lemma expand_fields_frame
  (rec : Asn1Container -> IdentHistory
         -> Outcome unit * Asn1Container * IdentHistory)
  (fields : Fields) :
  (forall kv, In kv fields ->
     forall h, expand_frame (snd kv) (snd (fst (rec (snd kv) h)))) ->
  forall h, Forall2 expand_field fields (snd (fst (expand_fields rec fields h))).
Proof.
  induction fields as [|[key value] rest IH]; intros Hrec h; simpl;
    [constructor|].
  assert (Hrest : forall h1,
             Forall2 expand_field rest
               (snd (fst (expand_fields rec rest h1))))
    by (apply IH; intros kv Hin; apply Hrec; right; exact Hin).
  destruct ((asn1_type value =? "EXPANDABLE")%string
            && negb (is_nnone (nested value))) eqn:Hexp.
  - destruct (nested value) as [| | | |get_proto] eqn:Hn;
      try apply (expand_field_refl ((key, value) :: rest)).
    destruct (get_proto h) as [proto h1] eqn:Hp. specialize (Hrest h1).
    destruct (expand_fields rec rest h1) as [[r rest'] h2]. simpl in *.
    constructor; [|exact Hrest].
    split; [reflexivity|]. right. simpl.
    apply andb_true_iff in Hexp. destruct Hexp as [Ht _].
    apply String.eqb_eq in Ht. split; [exact Ht|].
    exists get_proto, h. rewrite Hp. split; [exact Hn | reflexivity].
  - pose proof (Hrec (key, value) (or_introl eq_refl) h) as Hv. simpl in Hv.
    destruct (rec value h) as [[[u|e|] value'] h1]; simpl in Hv.
    + specialize (Hrest h1).
      destruct (expand_fields rec rest h1) as [[r rest'] h2]. simpl in *.
      constructor; [|exact Hrest]. split; [reflexivity | left; exact Hv].
    + simpl. constructor; [|apply expand_field_refl].
      split; [reflexivity | left; exact Hv].
    + simpl. constructor; [|apply expand_field_refl].
      split; [reflexivity | left; exact Hv].
Qed.

(** X12.  Whether it returns or raises, [expand_once] never adds, removes,
    renames or reorders a field, at any depth: every node the call visits
    keeps its identity, kind, optionality, constraint, member count and
    flag, and its dict keeps its keys in their order; a child of a dict
    is either the prototype built by the schema object of the EXPANDABLE
    child it replaces, or the old child, of which the same holds. *)
Theorem expand_once_keeps_keys (self : Asn1Container) (h : IdentHistory) :
  expand_frame self (snd (fst (expand_once self h))).
Proof.
  revert h. induction self as [self IHf IHc] using container_ind.
  intros h. rewrite expand_once_unfold.
  assert (Hdict : forall fields,
            nested self = NDict fields ->
            expand_frame self
              (snd (fst (let '(r, fields', h') :=
                           expand_fields expand_once fields h in
                         (r, set_nested (NDict fields') self, h'))))).
  { intros fields Hn.
    pose proof (@expand_fields_frame expand_once fields
                  (fun kv Hin h0 => IHf fields kv Hn Hin h0) h) as Hall.
    destruct (expand_fields expand_once fields h) as [[r fields'] h'].
    simpl in *. apply expand_frame_dict with (fields := fields);
      [exact Hn | exact Hall]. }
  destruct (classify (asn1_type self)); try apply expand_frame_same;
    destruct (nested self) as [|fields| | |] eqn:Hn;
    try apply expand_frame_same; apply Hdict; reflexivity.
Qed.

(** ** [fuzz] on the leaf kinds *)

Lemma total_leaf_generator (k : Kind) (self : Asn1Container) (gen : M Value) :
  leaf_generator k self = Some gen -> total gen.
Proof.
  destruct k; simpl; intros H; try discriminate; injection H as <-;
    auto using total_fuzz_integer, total_fuzz_enumerated, total_fuzz_boolean,
      total_fuzz_octet_string, total_fuzz_bit_string, total_fuzz_char_string,
      total_fuzz_numeric_string, total_ret.
Qed.

(** The call on a node of a leaf kind, in terms of the computation of its
    value. *)
Lemma fuzz_leaf (al bl : option (list string)) (ca : bool) (m : Z)
  (self : Asn1Container) (g : Rng) (gen : M Value) :
  leaf_generator (classify (asn1_type self)) self = Some gen ->
  fuzz al bl ca m self g =
  match gen g with
  | (Ok v, g') => (Ok v, set_fully_covered true self, g')
  | (Raise e, g') => (Raise e, self, g')
  | (OutOfFuel, g') => (OutOfFuel, self, g')
  end.
Proof.
  intros Hgen. rewrite fuzz_equation. unfold fuzz_body.
  destruct (classify (asn1_type self)); simpl in Hgen; try discriminate;
    injection Hgen as <-; simpl; unfold scalar;
    try match goal with
      | |- context [let '(_, _) := ?m g in _] =>
          destruct (m g) as [[v|e|] g']; reflexivity
      end;
    reflexivity.
Qed.

(** X13.  On a node of any kind other than SEQUENCE, CHOICE, OPEN_TYPE, ANY,
    SEQUENCE OF and EXPANDABLE (unknown kinds included), a call of [fuzz]
    either returns, and then the node is the old one with its flag set,
    or raises, and then the node is untouched. *)
Theorem fuzz_leaf_covered_or_untouched (al bl : option (list string))
  (ca : bool) (m : Z) (self : Asn1Container) (g : Rng) :
  classify (asn1_type self) <> KSequence ->
  classify (asn1_type self) <> KChoice ->
  classify (asn1_type self) <> KSequenceOf ->
  classify (asn1_type self) <> KExpandable ->
  (exists v,
      res_outcome (fuzz al bl ca m self g) = Ok v /\
      res_tree (fuzz al bl ca m self g) = set_fully_covered true self) \/
  (exists e,
      res_outcome (fuzz al bl ca m self g) = Raise e /\
      res_tree (fuzz al bl ca m self g) = self).
Proof.
  intros H1 H2 H3 H4.
  destruct (leaf_generator (classify (asn1_type self)) self) as [gen|] eqn:Hgen;
    [|destruct (classify (asn1_type self)); simpl in Hgen;
      try discriminate; contradiction].
  rewrite (fuzz_leaf al bl ca m self g Hgen).
  pose proof (total_leaf_generator _ _ Hgen g) as Htot.
  destruct (gen g) as [[v|e|] g']; simpl in *.
  - left. exists v. split; reflexivity.
  - right. exists e. split; reflexivity.
  - contradiction.
Qed.

Lemma fuzz_leaf_covered_or_untouched_witness :
  (exists v,
      res_outcome (fuzz None None false 1 boolean_node (constant_rng 1)) = Ok v /\
      res_tree (fuzz None None false 1 boolean_node (constant_rng 1))
      = set_fully_covered true boolean_node) \/
  (exists e,
      res_outcome (fuzz None None false 1 boolean_node (constant_rng 1)) = Raise e /\
      res_tree (fuzz None None false 1 boolean_node (constant_rng 1))
      = boolean_node).
Proof.
  apply fuzz_leaf_covered_or_untouched; simpl; discriminate.
Defined.

(** *** [better_randrange] *)

(** X14.  [better_randrange(start, stop, step)] with a positive step:
    for [start == stop] it returns [start] and draws nothing; for
    [start < stop] it returns [start + step * k] for some [k >= 0], below
    [stop]; for [start > stop] it raises ValueError. *)
Theorem better_randrange_stepped (start stop step : Z) (g : Rng) :
  0 < step ->
  (start = stop ->
   better_randrange (Some start) (Some stop) step g = (Ok (Some start), g)) /\
  (start < stop ->
   exists k,
     better_randrange (Some start) (Some stop) step g
     = (Ok (Some (start + step * k)), advance g) /\
     0 <= k /\ start + step * k < stop) /\
  (stop < start ->
   better_randrange (Some start) (Some stop) step g = (Raise ValueError, g)).
Proof.
  intros Hstep. unfold better_randrange. simpl. repeat split.
  - intros ->. rewrite Z.eqb_refl. reflexivity.
  - intros Hlt.
    assert (Hne : (start =? stop) = false) by (apply Z.eqb_neq; lia).
    rewrite Hne. unfold randrange, bind, ret.
    destruct (step =? 1) eqn:H1.
    + apply Z.eqb_eq in H1. subst step.
      assert (Hw : (0 <? stop - start) = true) by (apply Z.ltb_lt; lia).
      rewrite Hw.
      destruct (@randbelow_bounds (stop - start) g) as [v [Hv Hb]]; [lia|].
      unfold bind, ret. rewrite Hv. exists v.
      split; [f_equal; f_equal; f_equal; lia|]. lia.
    + assert (H0 : (step =? 0) = false) by (apply Z.eqb_neq; lia).
      assert (Hp : (0 <? step) = true) by (apply Z.ltb_lt; lia).
      rewrite H0, Hp.
      assert (Hn : 0 < (stop - start + step - 1) / step).
      { apply Z.div_str_pos. lia. }
      assert (Hle : ((stop - start + step - 1) / step <=? 0) = false)
        by (apply Z.leb_gt; exact Hn).
      rewrite Hle.
      destruct (@randbelow_bounds ((stop - start + step - 1) / step) g)
        as [v [Hv Hb]]; [exact Hn|].
      rewrite Hv. exists v. split; [reflexivity|]. split; [lia|].
      assert (Hv1 : v + 1 <= (stop - start + step - 1) / step) by lia.
      assert (Hm : step * ((stop - start + step - 1) / step)
                   <= stop - start + step - 1)
        by (apply Z.mul_div_le; lia).
      nia.
  - intros Hgt.
    assert (Hne : (start =? stop) = false) by (apply Z.eqb_neq; lia).
    rewrite Hne. unfold randrange, bind.
    destruct (step =? 1) eqn:H1.
    + assert (Hw : (0 <? stop - start) = false) by (apply Z.ltb_ge; lia).
      rewrite Hw. reflexivity.
    + assert (H0 : (step =? 0) = false) by (apply Z.eqb_neq; lia).
      assert (Hp : (0 <? step) = true) by (apply Z.ltb_lt; lia).
      rewrite H0, Hp.
      assert (Hle : ((stop - start + step - 1) / step <=? 0) = true).
      { apply Z.leb_le.
        assert (H : (stop - start + step - 1) / step < 1); [|lia].
        apply Z.div_lt_upper_bound; lia. }
      rewrite Hle. reflexivity.
Qed.

Lemma better_randrange_stepped_witness :
  exists k,
    better_randrange (Some 2) (Some 11) 3 (constant_rng 5)
    = (Ok (Some (2 + 3 * k)), advance (constant_rng 5)) /\
    0 <= k /\ 2 + 3 * k < 11.
Proof.
  destruct (@better_randrange_stepped 2 11 3 (constant_rng 5)) as (_ & H & _);
    [lia|].
  apply H. lia.
Defined.

(** *** Strings and bytes *)

Lemma repeatM_ok {A : Type} (P : A -> Prop) (m : M A) :
  (forall g, exists x g', m g = (Ok x, g') /\ P x) ->
  forall n g,
    exists l g', repeatM n m g = (Ok l, g') /\ List.length l = n /\ Forall P l.
Proof.
  intros Hm. induction n as [|n IH]; intros g; simpl.
  - exists [], g. repeat split. constructor.
  - destruct (Hm g) as (x & g1 & Hx & HP).
    destruct (IH g1) as (l & g2 & Hl & Hlen & Hall).
    unfold bind. rewrite Hx, Hl. unfold ret.
    exists (x :: l), g2. repeat split.
    + simpl. rewrite Hlen. reflexivity.
    + constructor; assumption.
Qed.

Lemma string_of_list_length (cs : list ascii) :
  String.length (string_of_list_ascii cs) = List.length cs.
Proof. induction cs as [|c cs IH]; simpl; [reflexivity | rewrite IH; reflexivity]. Qed.

(** [generate_random_ascii_string(n)] for an int [n]: [max(n, 0)]
    characters, each an upper-case letter or a digit. *)
Lemma generate_random_ascii_string_ok (n : Z) (g : Rng) :
  exists s g',
    generate_random_ascii_string (Some n) g = (Ok s, g') /\
    String.length s = Z.to_nat n /\
    Forall (fun c => In c alphabet) (chars s).
Proof.
  unfold generate_random_ascii_string, py_range_len.
  destruct (@repeatM_ok ascii (fun c => In c alphabet) (choice alphabet))
    with (n := Z.to_nat n) (g := g) as (l & g' & Hl & Hlen & Hall).
  { intros g0. destruct (@choice_in ascii alphabet g0) as [x [Hx Hin]];
      [discriminate|].
    exists x, (advance g0). split; assumption. }
  unfold bind at 1. unfold ret at 1. unfold bind at 1. rewrite Hl.
  unfold ret. exists (string_of_list_ascii l), g'. split; [reflexivity|].
  split.
  - rewrite string_of_list_length. exact Hlen.
  - unfold chars. rewrite list_ascii_of_string_of_list_ascii. exact Hall.
Qed.

Lemma digit_char_in (d : Z) : 0 <= d < 9 -> In (digit_char d) digits_0_to_8.
Proof.
  intros Hd.
  assert (H : d = 0 \/ d = 1 \/ d = 2 \/ d = 3 \/ d = 4 \/ d = 5 \/
              d = 6 \/ d = 7 \/ d = 8) by lia.
  repeat (destruct H as [->|H]; [vm_compute; tauto|]).
  subst d. vm_compute; tauto.
Qed.

(** [generate_random_number(n)] for an int [n]: [max(n, 0)] characters,
    each one of the digits 0 to 8. *)
Lemma generate_random_number_ok (n : Z) (g : Rng) :
  exists s g',
    generate_random_number (Some n) g = (Ok s, g') /\
    String.length s = Z.to_nat n /\
    Forall (fun c => In c digits_0_to_8) (chars s).
Proof.
  unfold generate_random_number, py_range_len.
  destruct (@repeatM_ok Z (fun d => 0 <= d < 9) (randrange (Some 0) (Some 9) 1))
    with (n := Z.to_nat n) (g := g) as (l & g' & Hl & Hlen & Hall).
  { intros g0. destruct (@randrange_bounds 0 9 g0) as [v [Hv Hb]]; [lia|].
    exists v, (advance g0). split; assumption. }
  unfold bind at 1. unfold ret at 1. unfold bind at 1. rewrite Hl.
  unfold ret. exists (string_of_list_ascii (map digit_char l)), g'.
  split; [reflexivity|]. split.
  - rewrite string_of_list_length, length_map. exact Hlen.
  - unfold chars. rewrite list_ascii_of_string_of_list_ascii.
    apply Forall_map. eapply Forall_impl; [|exact Hall].
    intros d Hd. apply digit_char_in. exact Hd.
Qed.

(** [random.randbytes(n)] for [0 <= n < 2 ** 28]: [n] bytes. *)
Lemma randbytes_ok (n : Z) (g : Rng) :
  0 <= n < 268435456 ->
  exists bs g',
    randbytes (Some n) g = (Ok bs, g') /\ Z.of_nat (List.length bs) = n.
Proof.
  intros Hn. unfold randbytes.
  assert (Hlo : (n * 8 <? -2147483648) = false) by (apply Z.ltb_ge; lia).
  assert (Hhi : (2147483647 <? n * 8) = false) by (apply Z.ltb_ge; lia).
  rewrite Hlo, Hhi. cbn [orb].
  assert (Hlt : (n <? 0) = false) by (apply Z.ltb_ge; lia). rewrite Hlt.
  destruct (@repeatM_ok Z (fun _ => True) (randbelow 256))
    with (n := Z.to_nat n) (g := g) as (l & g' & Hl & Hlen & _).
  { intros g0. exists (Z.of_nat (tape g0 (pos g0)) mod 256), (advance g0).
    split; [reflexivity | exact I]. }
  unfold bind, ret. rewrite Hl. exists (map byte_of_Z l), g'.
  split; [reflexivity|]. rewrite length_map, Hlen. lia.
Qed.

(** [random.randbytes(n)] from [n = 2 ** 28] on: OverflowError, nothing
    drawn. *)
Lemma randbytes_overflow (n : Z) (g : Rng) :
  268435456 <= n -> randbytes (Some n) g = (Raise OverflowError, g).
Proof.
  intros Hn. unfold randbytes.
  assert (Hhi : (2147483647 <? n * 8) = true) by (apply Z.ltb_lt; lia).
  rewrite Hhi, orb_true_r. reflexivity.
Qed.

Lemma classify_char_string (t : string) :
  t = "IA5String" \/ t = "UTF8String" -> classify t = KCharString.
Proof. intros [Ht | Ht]; rewrite Ht; reflexivity. Qed.

(** The call on an IA5String or UTF8String node whose length has been
    settled to [n]. *)
Lemma fuzz_char_string_of_length (al bl : option (list string)) (ca : bool)
  (m : Z) (self : Asn1Container) (g g1 : Rng) (n : Z) :
  classify (asn1_type self) = KCharString ->
  fuzz_char_string self g
  = (s <- generate_random_ascii_string (Some n) ;; ret (VStr s)) g1 ->
  exists s g',
    fuzz al bl ca m self g = (Ok (VStr s), set_fully_covered true self, g') /\
    String.length s = Z.to_nat n /\
    Forall (fun c => In c alphabet) (chars s).
Proof.
  intros Hk Hgen.
  rewrite (@fuzz_leaf al bl ca m self g (fuzz_char_string self))
    by (rewrite Hk; reflexivity).
  rewrite Hgen.
  destruct (generate_random_ascii_string_ok n g1) as (s & g' & Hs & Hlen & Hall).
  unfold bind. rewrite Hs. unfold ret.
  exists s, g'. split; [reflexivity|]. split; assumption.
Qed.

Arguments generate_random_ascii_string : simpl never.
Arguments generate_random_number : simpl never.
Arguments randbytes : simpl never.

(** Evaluate the next [self.range[i]] of a computation. *)
Ltac step_range :=
  unfold bind at 1; unfold lift at 1; unfold range_get at 1; simpl.

(** X15.  For every IA5String or UTF8String node, [fuzz] returns a str of
    upper-case letters and digits and marks the node covered; without
    constraint the str has exactly 128 characters, with [(min, max)] and
    [0 <= min == max] exactly [min], and with [0 <= min < max] at least
    [min] and fewer than [max]. *)
Theorem fuzz_char_string_length (al bl : option (list string)) (ca : bool)
  (m : Z) (self : Asn1Container) (g : Rng) :
  asn1_type self = "IA5String" \/ asn1_type self = "UTF8String" ->
  (range self = None ->
   exists s g',
     fuzz al bl ca m self g = (Ok (VStr s), set_fully_covered true self, g') /\
     String.length s = 128%nat /\
     Forall (fun c => In c alphabet) (chars s)) /\
  (forall mn rest,
      range self = Some (Some mn :: Some mn :: rest) -> 0 <= mn ->
      exists s g',
        fuzz al bl ca m self g = (Ok (VStr s), set_fully_covered true self, g') /\
        Z.of_nat (String.length s) = mn /\
        Forall (fun c => In c alphabet) (chars s)) /\
  (forall mn mx rest,
      range self = Some (Some mn :: Some mx :: rest) -> 0 <= mn < mx ->
      exists s g',
        fuzz al bl ca m self g = (Ok (VStr s), set_fully_covered true self, g') /\
        mn <= Z.of_nat (String.length s) < mx /\
        Forall (fun c => In c alphabet) (chars s)).
Proof.
  intros Ht. pose proof (classify_char_string Ht) as Hk. repeat split.
  - intros Hr.
    destruct (@fuzz_char_string_of_length al bl ca m self g g 128 Hk)
      as (s & g' & Hf & Hlen & Hall).
    { unfold fuzz_char_string. rewrite Hr. reflexivity. }
    exists s, g'. split; [exact Hf|]. split; [exact Hlen | exact Hall].
  - intros mn rest Hr Hmn.
    destruct (@fuzz_char_string_of_length al bl ca m self g g mn Hk)
      as (s & g' & Hf & Hlen & Hall).
    { unfold fuzz_char_string. rewrite Hr.
      do 2 step_range. rewrite Z.eqb_refl. reflexivity. }
    exists s, g'. split; [exact Hf|]. split; [lia | exact Hall].
  - intros mn mx rest Hr Hmn.
    destruct (@randrange_bounds mn mx g) as [n [Hn Hb]]; [lia|].
    destruct (@fuzz_char_string_of_length al bl ca m self g (advance g) n Hk)
      as (s & g' & Hf & Hlen & Hall).
    { unfold fuzz_char_string. rewrite Hr.
      do 2 step_range.
      assert (Hne : (mn =? mx) = false) by (apply Z.eqb_neq; lia).
      rewrite Hne. unfold bind at 1. rewrite Hn. reflexivity. }
    exists s, g'. split; [exact Hf|]. split; [lia | exact Hall].
Qed.

Lemma fuzz_char_string_length_witness :
  exists s g',
    fuzz None None false 1 (ia5_node (Some [Some 3; Some 6])) (constant_rng 7)
    = (Ok (VStr s), set_fully_covered true (ia5_node (Some [Some 3; Some 6])), g') /\
    3 <= Z.of_nat (String.length s) < 6 /\
    Forall (fun c => In c alphabet) (chars s).
Proof.
  destruct (@fuzz_char_string_length None None false 1
              (ia5_node (Some [Some 3; Some 6])) (constant_rng 7))
    as (_ & _ & H); [left; reflexivity|].
  apply (H 3 6 [] eq_refl). lia.
Defined.

(** X16.  For an IA5String or UTF8String node with the open-ended
    constraint [(min, None)], the length is drawn by
    [random.randrange(min, None)], that is below [min]: for [min > 0] the
    returned str has fewer than [min] characters, and for [min <= 0] the
    call raises ValueError. *)
Theorem fuzz_char_string_open_ended (al bl : option (list string)) (ca : bool)
  (m : Z) (self : Asn1Container) (g : Rng) (mn : Z) (rest : list PyInt) :
  asn1_type self = "IA5String" \/ asn1_type self = "UTF8String" ->
  range self = Some (Some mn :: None :: rest) ->
  (0 < mn ->
   exists s g',
     fuzz al bl ca m self g = (Ok (VStr s), set_fully_covered true self, g') /\
     Z.of_nat (String.length s) < mn) /\
  (mn <= 0 -> fuzz al bl ca m self g = (Raise ValueError, self, g)).
Proof.
  intros Ht Hr. pose proof (classify_char_string Ht) as Hk. split.
  - intros Hmn.
    destruct (@randbelow_bounds mn g Hmn) as [n [Hn Hb]].
    destruct (@fuzz_char_string_of_length al bl ca m self g (advance g) n Hk)
      as (s & g' & Hf & Hlen & Hall).
    { unfold fuzz_char_string. rewrite Hr.
      do 2 step_range. unfold bind at 1. unfold randrange. simpl.
      assert (Hp : (0 <? mn) = true) by (apply Z.ltb_lt; lia).
      rewrite Hp, Hn. reflexivity. }
    exists s, g'. split; [exact Hf | lia].
  - intros Hmn.
    rewrite (@fuzz_leaf al bl ca m self g (fuzz_char_string self))
      by (rewrite Hk; reflexivity).
    unfold fuzz_char_string. rewrite Hr.
    unfold bind, lift, range_get, randrange. simpl.
    assert (Hp : (0 <? mn) = false) by (apply Z.ltb_ge; lia).
    rewrite Hp. reflexivity.
Qed.

Lemma fuzz_char_string_open_ended_witness :
  exists s g',
    fuzz None None false 1 (ia5_node (Some [Some 5; None])) (constant_rng 7)
    = (Ok (VStr s), set_fully_covered true (ia5_node (Some [Some 5; None])), g') /\
    Z.of_nat (String.length s) < 5.
Proof.
  destruct (@fuzz_char_string_open_ended None None false 1
              (ia5_node (Some [Some 5; None])) (constant_rng 7) 5 [])
    as [H _]; [left; reflexivity | reflexivity|].
  apply H. lia.
Defined.

Lemma better_randrange_unit (lo hi : Z) (g : Rng) :
  lo <= hi ->
  exists n g',
    better_randrange (Some lo) (Some hi) 1 g = (Ok (Some n), g') /\
    lo <= n <= hi /\ (lo < hi -> n < hi).
Proof.
  intros Hle. unfold better_randrange. simpl.
  destruct (lo =? hi) eqn:He.
  - apply Z.eqb_eq in He. exists lo, g. split; [reflexivity|]. lia.
  - apply Z.eqb_neq in He.
    destruct (@randrange_bounds lo hi g) as [n [Hn Hb]]; [lia|].
    unfold bind. rewrite Hn. exists n, (advance g).
    split; [reflexivity|]. lia.
Qed.

(** X17.  For every NumericString node, [fuzz] returns a str made of the
    digits 0 to 8 only (9 is never drawn) and marks the node covered;
    without constraint the str has fewer than 256 characters, with
    [(min, max)] and [0 <= min <= max] at least [min] and at most [max],
    and fewer than [max] unless [min == max]. *)
Theorem fuzz_numeric_string_digits (al bl : option (list string)) (ca : bool)
  (m : Z) (self : Asn1Container) (g : Rng) :
  asn1_type self = "NumericString" ->
  (range self = None ->
   exists s g',
     fuzz al bl ca m self g = (Ok (VStr s), set_fully_covered true self, g') /\
     Z.of_nat (String.length s) < 256 /\
     Forall (fun c => In c digits_0_to_8) (chars s)) /\
  (forall mn mx rest,
      range self = Some (Some mn :: Some mx :: rest) -> 0 <= mn <= mx ->
      exists s g',
        fuzz al bl ca m self g = (Ok (VStr s), set_fully_covered true self, g') /\
        mn <= Z.of_nat (String.length s) <= mx /\
        (mn < mx -> Z.of_nat (String.length s) < mx) /\
        Forall (fun c => In c digits_0_to_8) (chars s)).
Proof.
  intros Ht.
  assert (Hleaf : forall g0,
             fuzz al bl ca m self g0 =
             match fuzz_numeric_string self g0 with
             | (Ok v, g') => (Ok v, set_fully_covered true self, g')
             | (Raise e, g') => (Raise e, self, g')
             | (OutOfFuel, g') => (OutOfFuel, self, g')
             end).
  { intros g0. apply fuzz_leaf. rewrite Ht. reflexivity. }
  split.
  - intros Hr. rewrite Hleaf. unfold fuzz_numeric_string. rewrite Hr.
    destruct (@randrange_bounds 0 256 g) as [n [Hn Hb]]; [lia|].
    destruct (generate_random_number_ok n (advance g))
      as (s & g' & Hs & Hlen & Hall).
    unfold bind at 1. rewrite Hn. unfold bind at 1. rewrite Hs. unfold ret.
    exists s, g'. split; [reflexivity|]. split; [lia | exact Hall].
  - intros mn mx rest Hr Hmn. rewrite Hleaf.
    unfold fuzz_numeric_string. rewrite Hr. do 2 step_range.
    destruct (@better_randrange_unit mn mx g) as (n & g1 & Hn & Hb & Hlt);
      [lia|].
    destruct (generate_random_number_ok n g1) as (s & g' & Hs & Hlen & Hall).
    unfold bind at 1. rewrite Hn. unfold bind at 1. rewrite Hs. unfold ret.
    exists s, g'. split; [reflexivity|].
    split; [lia|]. split; [intros H; specialize (Hlt H); lia | exact Hall].
Qed.

Lemma fuzz_numeric_string_digits_witness :
  exists s g',
    fuzz None None false 1 (numeric_node (Some [Some 2; Some 4])) (constant_rng 9)
    = (Ok (VStr s),
       set_fully_covered true (numeric_node (Some [Some 2; Some 4])), g') /\
    2 <= Z.of_nat (String.length s) <= 4 /\
    (2 < 4 -> Z.of_nat (String.length s) < 4) /\
    Forall (fun c => In c digits_0_to_8) (chars s).
Proof.
  destruct (@fuzz_numeric_string_digits None None false 1
              (numeric_node (Some [Some 2; Some 4])) (constant_rng 9) eq_refl)
    as [_ H].
  apply (H 2 4 [] eq_refl). lia.
Defined.

(** X18.  For every OCTET STRING node, [fuzz] returns bytes and marks the
    node covered; without constraint fewer than 128 bytes, with
    [(min, None)] and [0 <= min <= 128] at least [min] and at most 128
    (exactly 128 only for [min == 128]), with [(min, max)] and
    [0 <= min <= max < 2 ** 28] at least [min] and at most [max], and
    fewer than [max] unless [min == max].  From [2 ** 28] bytes on
    [random.randbytes] raises OverflowError: with [(min, min)] and
    [min >= 2 ** 28] the call raises it and leaves the node as it is. *)
Theorem fuzz_octet_string_length (al bl : option (list string)) (ca : bool)
  (m : Z) (self : Asn1Container) (g : Rng) :
  asn1_type self = "OCTET STRING" ->
  (range self = None ->
   exists bs g',
     fuzz al bl ca m self g = (Ok (VBytes bs), set_fully_covered true self, g') /\
     Z.of_nat (List.length bs) < 128) /\
  (forall mn rest,
      range self = Some (Some mn :: None :: rest) -> 0 <= mn <= 128 ->
      exists bs g',
        fuzz al bl ca m self g = (Ok (VBytes bs), set_fully_covered true self, g') /\
        mn <= Z.of_nat (List.length bs) <= 128 /\
        (mn < 128 -> Z.of_nat (List.length bs) < 128)) /\
  (forall mn mx rest,
      range self = Some (Some mn :: Some mx :: rest) ->
      0 <= mn <= mx -> mx < 268435456 ->
      exists bs g',
        fuzz al bl ca m self g = (Ok (VBytes bs), set_fully_covered true self, g') /\
        mn <= Z.of_nat (List.length bs) <= mx /\
        (mn < mx -> Z.of_nat (List.length bs) < mx)) /\
  (forall mn rest,
      range self = Some (Some mn :: Some mn :: rest) -> 268435456 <= mn ->
      fuzz al bl ca m self g = (Raise OverflowError, self, g)).
Proof.
  intros Ht.
  assert (Hleaf : forall g0,
             fuzz al bl ca m self g0 =
             match fuzz_octet_string self g0 with
             | (Ok v, g') => (Ok v, set_fully_covered true self, g')
             | (Raise e, g') => (Raise e, self, g')
             | (OutOfFuel, g') => (OutOfFuel, self, g')
             end).
  { intros g0. apply fuzz_leaf. rewrite Ht. reflexivity. }
  assert (Hbounded : forall lo hi g0,
             0 <= lo <= hi -> hi < 268435456 ->
             exists bs g',
               (n <- better_randrange (Some lo) (Some hi) 1 ;;
                bs <- randbytes n ;; ret (VBytes bs)) g0
               = (Ok (VBytes bs), g') /\
               lo <= Z.of_nat (List.length bs) <= hi /\
               (lo < hi -> Z.of_nat (List.length bs) < hi)).
  { intros lo hi g0 Hlo Hhi.
    destruct (@better_randrange_unit lo hi g0) as (n & g1 & Hn & Hb & Hlt);
      [lia|].
    destruct (@randbytes_ok n g1) as (bs & g' & Hbs & Hlen); [lia|].
    unfold bind at 1. rewrite Hn. unfold bind at 1. rewrite Hbs. unfold ret.
    exists bs, g'. split; [reflexivity|].
    split; [lia|]. intros H; specialize (Hlt H); lia. }
  repeat split.
  - intros Hr. rewrite Hleaf. unfold fuzz_octet_string. rewrite Hr.
    destruct (@randrange_bounds 0 128 g) as [n [Hn Hb]]; [lia|].
    destruct (@randbytes_ok n (advance g)) as (bs & g' & Hbs & Hlen); [lia|].
    unfold bind at 1. rewrite Hn. unfold bind at 1. rewrite Hbs. unfold ret.
    exists bs, g'. split; [reflexivity | lia].
  - intros mn rest Hr Hmn. rewrite Hleaf.
    unfold fuzz_octet_string. rewrite Hr. do 2 step_range.
    destruct (Hbounded mn 128 g Hmn) as (bs & g' & Hrun & Hb); [lia|].
    rewrite Hrun. exists bs, g'. split; [reflexivity | exact Hb].
  - intros mn mx rest Hr Hmn Hmx. rewrite Hleaf.
    unfold fuzz_octet_string. rewrite Hr. do 2 step_range.
    destruct (Hbounded mn mx g Hmn Hmx) as (bs & g' & Hrun & Hb).
    rewrite Hrun. exists bs, g'. split; [reflexivity | exact Hb].
  - intros mn rest Hr Hmn. rewrite Hleaf.
    unfold fuzz_octet_string. rewrite Hr. do 2 step_range.
    unfold bind at 1. unfold better_randrange. cbn [pyint_eqb].
    rewrite Z.eqb_refl. unfold ret at 1.
    unfold bind at 1. rewrite (@randbytes_overflow mn g Hmn). reflexivity.
Qed.

Lemma fuzz_octet_string_length_witness :
  exists bs g',
    fuzz None None false 1 (octet_node (Some [Some 4; Some 4])) (constant_rng 9)
    = (Ok (VBytes bs),
       set_fully_covered true (octet_node (Some [Some 4; Some 4])), g') /\
    4 <= Z.of_nat (List.length bs) <= 4 /\
    (4 < 4 -> Z.of_nat (List.length bs) < 4).
Proof.
  destruct (@fuzz_octet_string_length None None false 1
              (octet_node (Some [Some 4; Some 4])) (constant_rng 9) eq_refl)
    as (_ & _ & H & _).
  apply (H 4 4 [] eq_refl); lia.
Defined.

(** X19.  For every ENUMERATED node with a list of labels, [fuzz] returns
    one of the labels with one draw and marks the node covered; with an
    empty list it raises IndexError and leaves the node as it is. *)
Theorem fuzz_enumerated_label (al bl : option (list string)) (ca : bool)
  (m : Z) (self : Asn1Container) (g : Rng) (labels : list string) :
  asn1_type self = "ENUMERATED" ->
  nested self = NLabels labels ->
  (labels <> [] ->
   exists s,
     In s labels /\
     fuzz al bl ca m self g
     = (Ok (VStr s), set_fully_covered true self, advance g)) /\
  (labels = [] -> fuzz al bl ca m self g = (Raise IndexError, self, g)).
Proof.
  intros Ht Hn.
  rewrite (@fuzz_leaf al bl ca m self g (fuzz_enumerated self))
    by (rewrite Ht; reflexivity).
  unfold fuzz_enumerated. rewrite Hn. split.
  - intros Hne. destruct (@choice_in string labels g Hne) as [s [Hs Hin]].
    unfold bind. rewrite Hs. exists s. split; [exact Hin | reflexivity].
  - intros ->. reflexivity.
Qed.

Lemma fuzz_enumerated_label_witness :
  exists s,
    In s ["red"; "green"; "blue"] /\
    fuzz None None false 1 (enumerated_node ["red"; "green"; "blue"])
      (constant_rng 4)
    = (Ok (VStr s),
       set_fully_covered true (enumerated_node ["red"; "green"; "blue"]),
       advance (constant_rng 4)).
Proof.
  destruct (@fuzz_enumerated_label None None false 1
              (enumerated_node ["red"; "green"; "blue"]) (constant_rng 4)
              ["red"; "green"; "blue"] eq_refl eq_refl) as [H _].
  apply H. discriminate.
Defined.

(** X20.  For every BIT STRING node with [n] named bits, the value [fuzz]
    returns is drawn by [better_randrange(0, 2 ** n - 1)]: it is at least
    0 and at most [2 ** n - 2] (0 for [n = 0]), so the value with all
    named bits set is never produced for [n >= 1].  The value is paired
    with [range[1]] when the node has a constraint, and with 8 when it has
    none. *)
Theorem fuzz_bit_string_named (al bl : option (list string)) (ca : bool)
  (m : Z) (self : Asn1Container) (g : Rng) (names : list string) :
  asn1_type self = "BIT STRING" ->
  nested self = NLabels names ->
  (forall r0 r1 rest,
      range self = Some (r0 :: r1 :: rest) ->
      exists v g',
        fuzz al bl ca m self g
        = (Ok (VTuple [VInt v; pyint_value r1]), set_fully_covered true self, g') /\
        0 <= v <= Z.max 0 (2 ^ Z.of_nat (List.length names) - 2)) /\
  (range self = None ->
   exists v g',
     fuzz al bl ca m self g
     = (Ok (VTuple [VInt v; VInt 8]), set_fully_covered true self, g') /\
     0 <= v <= Z.max 0 (2 ^ Z.of_nat (List.length names) - 2)).
Proof.
  intros Ht Hn.
  assert (Hpos : 0 < 2 ^ Z.of_nat (List.length names))
    by (apply Z.pow_pos_nonneg; lia).
  assert (Hpow : 1 <= 2 ^ Z.of_nat (List.length names)) by lia.
  assert (Hvalue : exists v g1,
             named_bits_value self g = (Ok (Some v), g1) /\
             0 <= v <= Z.max 0 (2 ^ Z.of_nat (List.length names) - 2)).
  { unfold named_bits_value. rewrite Hn. unfold bind at 1. unfold lift, py_len.
    destruct (@better_randrange_unit 0 (2 ^ Z.of_nat (List.length names) - 1) g)
      as (v & g1 & Hv & Hb & Hlt); [lia|].
    rewrite Hv. exists v, g1. split; [reflexivity|].
    destruct (Z.eq_dec (2 ^ Z.of_nat (List.length names)) 1) as [He|He].
    - lia.
    - assert (v < 2 ^ Z.of_nat (List.length names) - 1) by (apply Hlt; lia).
      lia. }
  destruct Hvalue as (v & g1 & Hv & Hb).
  rewrite (@fuzz_leaf al bl ca m self g (fuzz_bit_string self))
    by (rewrite Ht; reflexivity).
  unfold fuzz_bit_string. rewrite Hn. simpl. split.
  - intros r0 r1 rest Hr. rewrite Hr. unfold bind at 1. rewrite Hv.
    step_range. exists v, g1. split; [reflexivity | exact Hb].
  - intros Hr. rewrite Hr. unfold bind at 1. rewrite Hv.
    exists v, g1. split; [reflexivity | exact Hb].
Qed.

Lemma fuzz_bit_string_named_witness :
  exists v g',
    fuzz None None false 1 (bit_node ["a"; "b"; "c"] None) (constant_rng 20)
    = (Ok (VTuple [VInt v; VInt 8]),
       set_fully_covered true (bit_node ["a"; "b"; "c"] None), g') /\
    0 <= v <= Z.max 0 (2 ^ Z.of_nat (List.length ["a"; "b"; "c"]) - 2).
Proof.
  destruct (@fuzz_bit_string_named None None false 1
              (bit_node ["a"; "b"; "c"] None) (constant_rng 20)
              ["a"; "b"; "c"] eq_refl eq_refl) as [_ H].
  apply H. reflexivity.
Defined.

(** ** [fuzz] on SEQUENCE, CHOICE and SEQUENCE OF *)

Lemma dict_get_set_same {A : Type} (k : string) (v : A) (d : list (string * A)) :
  dict_get k (dict_set k v d) = Some v.
Proof.
  induction d as [|[k0 v0] rest IH]; simpl.
  - rewrite String.eqb_refl. reflexivity.
  - destruct (k0 =? k)%string eqn:He; simpl; rewrite He; [reflexivity | exact IH].
Qed.

Lemma dict_get_set_other {A : Type} (k k' : string) (v : A)
  (d : list (string * A)) :
  k' <> k -> dict_get k (dict_set k' v d) = dict_get k d.
Proof.
  intros Hne. induction d as [|[k0 v0] rest IH]; simpl.
  - apply String.eqb_neq in Hne. rewrite Hne. reflexivity.
  - destruct (k0 =? k')%string eqn:He; simpl.
    + apply String.eqb_eq in He. subst k0.
      apply String.eqb_neq in Hne. rewrite Hne. reflexivity.
    + destruct (k0 =? k)%string; [reflexivity | exact IH].
Qed.

(** A field that the loop of a SEQUENCE cannot skip: a mandatory one, or
    any one when the call is coverage aware and the node is not covered. *)
Lemma skip_field_never (ca sc : bool) (value : Asn1Container) (g : Rng) :
  optional value = false \/ (ca = true /\ sc = false) ->
  exists g1, skip_field None ca sc value g = (Ok false, g1).
Proof.
  intros H. unfold skip_field.
  destruct (optional value) eqn:Ho.
  - destruct H as [H|[-> ->]]; [discriminate|].
    destruct (@choice_in bool [true; false] g) as [b [Hb _]]; [discriminate|].
    unfold bind. rewrite Hb. unfold ret. exists (advance g).
    rewrite andb_false_r. reflexivity.
  - exists g. reflexivity.
Qed.

Lemma fuzz_fields_calls (rec : Asn1Container -> Rng -> Res) (ca sc : bool)
  (fields : Fields) :
  NoDup (keys fields) ->
  forall retNested g d fields' g',
    fuzz_fields rec None ca sc fields retNested g = (Ok d, fields', g') ->
    (forall k v, dict_get k retNested = Some v -> ~ In k (keys fields) ->
                 dict_get k d = Some v) /\
    (forall key child,
        In (key, child) fields ->
        optional child = false \/ (ca = true /\ sc = false) ->
        exists g1 v,
          res_outcome (rec child g1) = Ok v /\
          (v = VNone \/ dict_get key d = Some v)).
Proof.
  induction fields as [|[k0 value] rest IH];
    intros Hnd retNested g d fields' g' Hrun; simpl in Hrun.
  - injection Hrun as <- _ _. split; [auto | intros key child []].
  - inversion Hnd as [|x xs Hnotin Hnd']; subst.
    assert (Hrest : forall ret1 g1 rest1,
               fuzz_fields rec None ca sc rest ret1 g1 = (Ok d, rest1, g') ->
               (forall k v, dict_get k retNested = Some v ->
                            ~ In k (keys ((k0, value) :: rest)) ->
                            dict_get k ret1 = Some v) ->
               forall k v, dict_get k retNested = Some v ->
                           ~ In k (keys ((k0, value) :: rest)) ->
                           dict_get k d = Some v).
    { intros ret1 g1 rest1 Hr Hkeep k v Hk Hnot.
      destruct (IH Hnd' ret1 g1 d rest1 g' Hr) as [Hp _].
      apply Hp; [apply Hkeep; assumption|].
      intros Hin. apply Hnot. right; exact Hin. }
    destruct (skip_field None ca sc value g) as [[[|]|e|] g1] eqn:Hskip;
      try discriminate.
    + destruct (fuzz_fields rec None ca sc rest retNested g1)
        as [[r rest'] g2] eqn:Hr.
      injection Hrun as -> _ <-.
      destruct (IH Hnd' retNested g1 d rest' g2 Hr) as [Hp Hc].
      split; [eapply Hrest; [exact Hr | auto]|].
      intros key child [Heq|Hin] Hmust.
      * injection Heq as <- <-.
        destruct (@skip_field_never ca sc value g Hmust) as [g0 Hg0].
        rewrite Hg0 in Hskip. discriminate.
      * apply Hc; assumption.
    + destruct (rec value g1) as [[[v|e|] value'] g2] eqn:Hv; try discriminate.
      destruct (fuzz_fields rec None ca sc rest
                  (if is_none v then retNested else dict_set k0 v retNested) g2)
        as [[r rest'] g3] eqn:Hr.
      injection Hrun as -> _ <-.
      destruct (IH Hnd' _ g2 d rest' g3 Hr) as [Hp Hc].
      split.
      * eapply Hrest; [exact Hr|].
        intros k v0 Hk Hnot. destruct (is_none v); [exact Hk|].
        rewrite dict_get_set_other; [exact Hk|].
        intros ->. apply Hnot. left; reflexivity.
      * intros key child [Heq|Hin] Hmust.
        -- injection Heq as <- <-. exists g1, v.
           unfold res_outcome. rewrite Hv. split; [reflexivity|].
           destruct v; try (left; reflexivity); right; apply Hp;
             try exact Hnotin; simpl; apply dict_get_set_same.
        -- apply Hc; assumption.
Qed.

(** X21.  A SEQUENCE called without allowlist never omits a mandatory
    field, and omits no field at all when the call is coverage aware and
    the node is not yet covered: when the call returns a mapping, [fuzz]
    was called on every such field, and the value it returned, unless
    None, is in the mapping under the field's key. *)
Theorem fuzz_sequence_includes_fields (bl : option (list string)) (ca : bool)
  (m : Z) (self self' : Asn1Container) (g g' : Rng) (fields : Fields)
  (d : list (string * Value)) :
  asn1_type self = "SEQUENCE" ->
  nested self = NDict fields ->
  NoDup (keys fields) ->
  fuzz None bl ca m self g = (Ok (VDict d), self', g') ->
  forall key child,
    In (key, child) fields ->
    optional child = false \/ (ca = true /\ fully_covered self = false) ->
    exists g1 v,
      res_outcome (fuzz None bl ca m child g1) = Ok v /\
      (v = VNone \/ dict_get key d = Some v).
Proof.
  intros Ht Hn Hnd Hrun key child Hin Hmust.
  rewrite fuzz_equation in Hrun. unfold fuzz_body in Hrun.
  rewrite Ht in Hrun. change (classify "SEQUENCE") with KSequence in Hrun.
  unfold generate in Hrun. rewrite Hn in Hrun.
  destruct (fuzz_fields (fuzz None bl ca m) None ca (fully_covered self)
              fields [] g) as [[[d0|e|] fields'] g1] eqn:Hf;
    simpl in Hrun; try discriminate.
  injection Hrun as <- _ _.
  destruct (@fuzz_fields_calls (fuzz None bl ca m) ca (fully_covered self)
              fields Hnd [] g d0 fields' g1 Hf) as [_ Hc].
  apply (Hc key child Hin Hmust).
Qed.

Lemma fuzz_sequence_includes_fields_witness :
  exists g1 v,
    res_outcome
      (fuzz None None true 1
         (new_container "Alt" "CHOICE" true (NDict [("none", null_node)]) None)
         g1) = Ok v /\
    (v = VNone \/
     dict_get "alt"
       [("count", VInt 0); ("alt", VTuple [VStr "none"; VInt 0])] = Some v).
Proof.
  eapply (@fuzz_sequence_includes_fields None true 1 record_with_choice _
            (constant_rng 0) _
            [("count", integer_node (Some [Some 0; Some 8]));
             ("alt", new_container "Alt" "CHOICE" true
                       (NDict [("none", null_node)]) None)]).
  - reflexivity.
  - reflexivity.
  - repeat constructor; simpl; intuition discriminate.
  - vm_compute. reflexivity.
  - right. left. reflexivity.
  - right. split; reflexivity.
Defined.

Lemma mem_string_In (x : string) (l : list string) :
  mem_string x l = true <-> In x l.
Proof.
  induction l as [|y rest IH]; simpl.
  - split; [discriminate | intros []].
  - rewrite orb_true_iff, String.eqb_eq, IH. reflexivity.
Qed.

Lemma fuzz_first_none (rec : Asn1Container -> Rng -> Res)
  (p : string -> Asn1Container -> bool) (fields : Fields) (g : Rng) :
  Forall (fun kv => p (fst kv) (snd kv) = false) fields ->
  fuzz_first rec p fields g = (None, fields, g).
Proof.
  induction 1 as [|[k v] rest Hp _ IH]; simpl; [reflexivity|].
  simpl in Hp. rewrite Hp, IH. reflexivity.
Qed.

Lemma fuzz_first_split (rec : Asn1Container -> Rng -> Res)
  (p : string -> Asn1Container -> bool) (pre post : Fields) (key : string)
  (child : Asn1Container) (g : Rng) :
  Forall (fun kv => p (fst kv) (snd kv) = false) pre ->
  p key child = true ->
  fuzz_first rec p (pre ++ (key, child) :: post) g =
  (Some (key, res_outcome (rec child g)),
   pre ++ (key, res_tree (rec child g)) :: post,
   res_rng (rec child g)).
Proof.
  intros Hpre Hp. induction Hpre as [|[k v] rest Hk _ IH]; simpl.
  - rewrite Hp. destruct (rec child g) as [[r c'] g']. reflexivity.
  - simpl in Hk. rewrite Hk, IH. reflexivity.
Qed.

(** X22.  A CHOICE, OPEN_TYPE or ANY node called with an allowlist that
    names none of its alternatives returns None without calling any
    alternative and without consuming randomness; its covered flag is
    nevertheless recomputed from the alternatives. *)
Theorem fuzz_choice_allowlist_no_match (al : list string)
  (bl : option (list string)) (ca : bool) (m : Z) (self : Asn1Container)
  (fields : Fields) (g : Rng) :
  asn1_type self = "CHOICE" \/ asn1_type self = "OPEN_TYPE" \/
  asn1_type self = "ANY" ->
  nested self = NDict fields ->
  Forall (fun kv => ~ In (unique_ident (snd kv)) al) fields ->
  fuzz (Some al) bl ca m self g =
  (Ok VNone, set_fully_covered (all_covered_fields fields) self, g).
Proof.
  intros Ht Hn Hall.
  rewrite fuzz_equation. unfold fuzz_body.
  rewrite (classify_choice Ht). unfold generate, fuzz_choice. rewrite Hn.
  rewrite fuzz_first_none.
  - rewrite (set_nested_same self Hn). unfold update_coverage. rewrite Hn.
    reflexivity.
  - eapply Forall_impl; [|exact Hall]. intros [k v] Hnot. simpl in *.
    destruct (mem_string (unique_ident v) al) eqn:Hm; [|reflexivity].
    exfalso. apply Hnot. apply mem_string_In. exact Hm.
Qed.

Lemma fuzz_choice_allowlist_no_match_witness :
  fuzz (Some ["Other"]) None true 1 finite_choice (constant_rng 0) =
  (Ok VNone,
   set_fully_covered
     (all_covered_fields
        [("none", null_node); ("flags", sequence_of_node boolean_node None)])
     finite_choice,
   constant_rng 0).
Proof.
  apply (@fuzz_choice_allowlist_no_match ["Other"] None true 1 finite_choice
           [("none", null_node); ("flags", sequence_of_node boolean_node None)]
           (constant_rng 0)).
  - left. reflexivity.
  - reflexivity.
  - repeat constructor; simpl; intuition discriminate.
Defined.

(** X23.  With an allowlist, a CHOICE, OPEN_TYPE or ANY node takes the
    first alternative (in dict order) whose identity is in the allowlist,
    whatever the coverage_aware setting and the covered flags are: the
    result is the pair of that key and of what the call on that
    alternative returned (or the exception it raised), and only that
    alternative is touched. *)
Theorem fuzz_choice_allowlist_first_match (al : list string)
  (bl : option (list string)) (ca : bool) (m : Z) (self : Asn1Container)
  (pre post : Fields) (key : string) (child : Asn1Container) (g : Rng) :
  asn1_type self = "CHOICE" \/ asn1_type self = "OPEN_TYPE" \/
  asn1_type self = "ANY" ->
  nested self = NDict (pre ++ (key, child) :: post) ->
  Forall (fun kv => ~ In (unique_ident (snd kv)) al) pre ->
  In (unique_ident child) al ->
  let sub := fuzz (Some al) bl ca m child g in
  let r := fuzz (Some al) bl ca m self g in
  res_outcome r = pair_result key (res_outcome sub) /\
  nested (res_tree r) = NDict (pre ++ (key, res_tree sub) :: post) /\
  res_rng r = res_rng sub.
Proof.
  intros Ht Hn Hpre Hin sub r. subst sub r.
  rewrite (@fuzz_equation (Some al) bl ca m self g). unfold fuzz_body.
  rewrite (classify_choice Ht). unfold generate, fuzz_choice. rewrite Hn.
  rewrite (@fuzz_first_split (fuzz (Some al) bl ca m)
             (fun _ value => mem_string (unique_ident value) al)
             pre post key child g).
  - destruct (fuzz (Some al) bl ca m child g) as [[[v|e|] c'] g'];
      unfold res_outcome, res_tree, res_rng, pair_result, update_coverage;
      simpl; auto.
  - eapply Forall_impl; [|exact Hpre]. intros [k v] Hnot. simpl in *.
    destruct (mem_string (unique_ident v) al) eqn:Hm; [|reflexivity].
    exfalso. apply Hnot. apply mem_string_In. exact Hm.
  - apply mem_string_In. exact Hin.
Qed.

Lemma fuzz_choice_allowlist_first_match_witness :
  let self := three_scalars false false true true in
  let sub := fuzz (Some ["Null"; "Int"]) None true 1
               (set_fully_covered true null_node) (constant_rng 0) in
  let r := fuzz (Some ["Null"; "Int"]) None true 1 self (constant_rng 0) in
  res_outcome r = pair_result "B" (res_outcome sub) /\
  nested (res_tree r) =
    NDict ([("A", set_fully_covered false boolean_node)] ++
           ("B", res_tree sub) ::
           [("C", set_fully_covered true (integer_node (Some [Some 0; Some 1])))]) /\
  res_rng r = res_rng sub.
Proof.
  apply (@fuzz_choice_allowlist_first_match ["Null"; "Int"] None true 1
           (three_scalars false false true true)
           [("A", set_fully_covered false boolean_node)]
           [("C", set_fully_covered true (integer_node (Some [Some 0; Some 1])))]
           "B" (set_fully_covered true null_node) (constant_rng 0)).
  - left. reflexivity.
  - reflexivity.
  - repeat constructor; simpl; intuition discriminate.
  - simpl. left. reflexivity.
Defined.

Lemma fuzz_elems_length (rec : Asn1Container -> Rng -> Res) (n : nat) :
  forall child ret g l child' g',
    fuzz_elems rec n child ret g = (Ok l, child', g') ->
    List.length l = (List.length ret + n)%nat.
Proof.
  induction n as [|n IH]; intros child ret g l child' g' H; simpl in H.
  - injection H as <- _ _. lia.
  - destruct (rec child g) as [[[v|e|] c1] g1]; try discriminate.
    apply IH in H. rewrite H, length_app. simpl. lia.
Qed.

(** The list a SEQUENCE OF returns has as many elements as the count that
    lines 162-178 computed. *)
Lemma fuzz_sequence_of_length (al bl : option (list string)) (ca : bool)
  (m : Z) (self : Asn1Container) (g : Rng) (v : Value) :
  asn1_type self = "SEQUENCE OF" ->
  res_outcome (fuzz al bl ca m self g) = Ok v ->
  exists n self1 g1 l,
    seq_of_count m self g = (Ok (Some n), self1, g1) /\
    v = VList l /\ Z.of_nat (List.length l) = Z.max 0 n.
Proof.
  intros Ht H. rewrite fuzz_equation in H. unfold fuzz_body in H.
  rewrite Ht in H. change (classify "SEQUENCE OF") with KSequenceOf in H.
  unfold generate, fuzz_sequence_of in H.
  destruct (seq_of_count m self g) as [[[[n|]|e|] self1] g1] eqn:Hc;
    try discriminate.
  exists n, self1, g1.
  destruct (n <=? 0) eqn:Hn.
  - exists []. apply Z.leb_le in Hn.
    split; [reflexivity|]. split; [|simpl; lia].
    unfold update_coverage in H.
    destruct (nested self1); simpl in H; try discriminate.
    unfold res_outcome in H. simpl in H. congruence.
  - apply Z.leb_gt in Hn.
    destruct (nested self1) as [| | child | |] eqn:Hnest; try discriminate.
    destruct (fuzz_elems (fuzz al bl ca m) (Z.to_nat n) child [] g1)
      as [[[l|e|] child'] g2] eqn:He; try discriminate.
    exists l. split; [reflexivity|].
    apply fuzz_elems_length in He. simpl in He.
    split; [|lia].
    unfold update_coverage in H. simpl in H.
    unfold res_outcome in H. simpl in H. congruence.
Qed.

(** X24.  A SEQUENCE OF without size constraint: with max_seq_of_count
    below 1 the call raises ValueError before the element is touched;
    otherwise a returned list has at least one element and fewer than
    max_seq_of_count (exactly one for max_seq_of_count 1 or 2). *)
Theorem fuzz_sequence_of_unconstrained (al bl : option (list string))
  (ca : bool) (m : Z) (self : Asn1Container) (g : Rng) :
  asn1_type self = "SEQUENCE OF" ->
  range self = None ->
  (m <= 0 -> fuzz al bl ca m self g = (Raise ValueError, self, g)) /\
  (forall v, res_outcome (fuzz al bl ca m self g) = Ok v ->
             exists l, v = VList l /\
                       1 <= Z.of_nat (List.length l) <= Z.max 1 (m - 1)).
Proof.
  intros Ht Hr. split.
  - intros Hm. rewrite fuzz_equation. unfold fuzz_body.
    rewrite Ht. change (classify "SEQUENCE OF") with KSequenceOf.
    unfold generate, fuzz_sequence_of, seq_of_count. rewrite Hr.
    destruct (m =? 1) eqn:H1; [apply Z.eqb_eq in H1; lia|].
    rewrite (@randrange_empty 1 m g) by lia. reflexivity.
  - intros v Hv.
    destruct (@fuzz_sequence_of_length al bl ca m self g v Ht Hv)
      as [n [self1 [g1 [l [Hc [-> Hl]]]]]].
    exists l. split; [reflexivity|].
    unfold seq_of_count in Hc. rewrite Hr in Hc.
    destruct (m =? 1) eqn:H1.
    + injection Hc as <- _ _. lia.
    + apply Z.eqb_neq in H1.
      destruct (Z_lt_le_dec 1 m) as [Hlt|Hle].
      * destruct (@randrange_bounds 1 m g Hlt) as [k [Hk Hb]].
        rewrite Hk in Hc. simpl in Hc. injection Hc as <- _ _. lia.
      * rewrite (@randrange_empty 1 m g) in Hc by lia. discriminate.
Qed.

Lemma fuzz_sequence_of_unconstrained_witness :
  (3 <= 0 ->
   fuzz None None false 3 (sequence_of_node null_node None) (constant_rng 1) =
   (Raise ValueError, sequence_of_node null_node None, constant_rng 1)) /\
  (forall v,
      res_outcome
        (fuzz None None false 3 (sequence_of_node null_node None)
           (constant_rng 1)) = Ok v ->
      exists l, v = VList l /\
                1 <= Z.of_nat (List.length l) <= Z.max 1 (3 - 1)).
Proof.
  apply (@fuzz_sequence_of_unconstrained None None false 3
           (sequence_of_node null_node None) (constant_rng 1));
    reflexivity.
Defined.

Lemma open_ended_count_bounds (m : Z) (self : Asn1Container)
  (r : list PyInt) (a n : Z) (g g' : Rng) :
  range self = Some r ->
  range_get r 0 = Ok (Some a) ->
  open_ended_count m self g = (Ok (Some n), g') ->
  a <= n <= Z.max a (m - 1).
Proof.
  intros Hr H0 H. unfold open_ended_count in H. rewrite Hr in H.
  unfold bind at 1 in H. unfold lift at 1 in H. rewrite H0 in H.
  unfold bind at 1 in H. unfold lift at 1 in H. simpl in H.
  destruct (a =? Z.max a m) eqn:He.
  - unfold ret in H. injection H as <- _. apply Z.eqb_eq in He. lia.
  - apply Z.eqb_neq in He.
    assert (Hlt : a < Z.max a m) by lia.
    destruct (@randrange_bounds a (Z.max a m) g Hlt) as [k [Hk Hb]].
    unfold bind in H. rewrite Hk in H. unfold ret in H.
    injection H as <- _. lia.
Qed.

(** X25.  A SEQUENCE OF with an open-ended size constraint (min, None)
    with min >= 0: a returned list has at least min elements, at least one
    while the node is not covered, and at most max(min, max_seq_of_count - 1)
    where the minimum is the forced one. *)
Theorem fuzz_sequence_of_open_ended (al bl : option (list string))
  (ca : bool) (m : Z) (self : Asn1Container) (g : Rng) (r : list PyInt)
  (mn : Z) (v : Value) :
  asn1_type self = "SEQUENCE OF" ->
  range self = Some r ->
  range_get r 0 = Ok (Some mn) ->
  range_get r 1 = Ok None ->
  0 <= mn ->
  res_outcome (fuzz al bl ca m self g) = Ok v ->
  let mn' := if (mn =? 0) && negb (fully_covered self) then 1 else mn in
  exists l, v = VList l /\
            mn' <= Z.of_nat (List.length l) <= Z.max mn' (m - 1).
Proof.
  intros Ht Hr H0 H1 Hmn Hv mn'.
  destruct (@fuzz_sequence_of_length al bl ca m self g v Ht Hv)
    as [n [self1 [g1 [l [Hc [-> Hl]]]]]].
  exists l. split; [reflexivity|].
  unfold seq_of_count in Hc. rewrite Hr, H1 in Hc.
  unfold force_at_least_one in Hc. rewrite H0, H1 in Hc.
  assert (Hb : mn' <= n <= Z.max mn' (m - 1)).
  { subst mn'. destruct (fully_covered self) eqn:Hfc; simpl in Hc.
    - rewrite andb_false_r.
      destruct (open_ended_count m self g) as [o g2] eqn:Ho.
      injection Hc as -> _ _.
      apply (@open_ended_count_bounds m self r mn n g g2 Hr H0 Ho).
    - rewrite andb_true_r. destruct (mn =? 0) eqn:Hz.
      + destruct (range_get r 2) as [r2|e|] eqn:H2; simpl in Hc;
          try discriminate.
        match type of Hc with
        | context [open_ended_count m ?s g] =>
            destruct (open_ended_count m s g) as [o g2] eqn:Ho;
            injection Hc as -> _ _;
            apply (@open_ended_count_bounds m s [Some 1; None; r2] 1 n g g2);
            try exact Ho
        end.
        * destruct self; reflexivity.
        * reflexivity.
      + destruct (open_ended_count m self g) as [o g2] eqn:Ho.
        injection Hc as -> _ _.
        apply (@open_ended_count_bounds m self r mn n g g2 Hr H0 Ho). }
  subst mn'. destruct ((mn =? 0) && negb (fully_covered self)); lia.
Qed.

Lemma fuzz_sequence_of_open_ended_witness :
  exists l, VList [VInt 0; VInt 0] = VList l /\
            1 <= Z.of_nat (List.length l) <= Z.max 1 (4 - 1).
Proof.
  apply (@fuzz_sequence_of_open_ended None None true 4
           (sequence_of_node null_node (Some [Some 0; None; None]))
           (constant_rng 1) [Some 0; None; None] 0 (VList [VInt 0; VInt 0]));
    try reflexivity.
Defined.

(** ** [feature_ide] against [coverage] *)

Lemma feature_ide_unfold {D : Type} (self : Asn1Container) (root : Element)
  (name_dict : D) :
  feature_ide self root name_dict =
  let sub_element t name :=
    mkElement t [("mandatory", mandatory self); ("name", name)] [] in
  match feature_kind (asn1_type self) with
  | FAlt =>
      match nested self with
      | NDict fields =>
          let '(r, newRoot') :=
            feature_fields (fun value e => feature_ide value e name_dict)
              fields (sub_element "alt" (unique_ident self)) in
          (r, append_child root newRoot')
      | _ => (Raise AttributeError,
              append_child root (sub_element "alt" (unique_ident self)))
      end
  | FAnd =>
      match nested self with
      | NDict fields =>
          let '(r, newRoot') :=
            feature_fields (fun value e => feature_ide value e name_dict)
              fields (sub_element "and" (unique_ident self)) in
          (r, append_child root newRoot')
      | _ => (Raise AttributeError,
              append_child root (sub_element "and" (unique_ident self)))
      end
  | FSeqOf =>
      match nested self with
      | NNode child =>
          let '(r, newRoot') :=
            feature_ide child
              (sub_element "and" (String.append "seq_" (unique_ident self)))
              name_dict in
          (r, append_child root newRoot')
      | _ => (Raise AttributeError,
              append_child root
                (sub_element "and" (String.append "seq_" (unique_ident self))))
      end
  | FFeature =>
      (Ok tt, append_child root (sub_element "feature" (unique_ident self)))
  end.
Proof. destruct self; reflexivity. Qed.

(** Apart from OPEN_TYPE, [feature_ide] and [coverage] dispatch alike. *)
Lemma feature_kind_classify (t : string) :
  t <> "OPEN_TYPE" ->
  feature_kind t =
  match classify t with
  | KChoice => FAlt
  | KSequence => FAnd
  | KSequenceOf => FSeqOf
  | _ => FFeature
  end.
Proof.
  intros Hne. unfold feature_kind, classify.
  repeat match goal with
         | |- context [(t =? ?s)%string] =>
             destruct (String.eqb_spec t s);
             [subst t; try reflexivity; try congruence|]
         end.
  reflexivity.
Qed.

Lemma count_features_element (t : string) (a : list (string * string))
  (ch : list Element) :
  count_features (mkElement t a ch) =
  (if (t =? "feature")%string then 1 else 0) + count_all ch.
Proof. reflexivity. Qed.

Lemma feature_fields_counts
  (recc : Asn1Container -> Outcome CoverageResult)
  (recf : Asn1Container -> Element -> Outcome unit * Element)
  (fields : Fields) :
  (forall kv, In kv fields ->
     forall root, exists e cv,
       recf (snd kv) root = (Ok tt, append_child root e) /\
       recc (snd kv) = Ok cv /\
       count_features e = item0 cv) ->
  forall t c newRoot,
    exists es t' c',
      feature_fields recf fields newRoot =
      (Ok tt, mkElement (tag newRoot) (attrib newRoot) (children newRoot ++ es)) /\
      coverage_fields recc fields t c = Ok (t', c') /\
      count_all es = t' - t.
Proof.
  induction fields as [|[key value] rest IH]; intros Hrec t c newRoot; simpl.
  - exists [], t, c. rewrite app_nil_r. destruct newRoot; simpl.
    split; [reflexivity|]. split; [reflexivity|]. unfold count_all; simpl; lia.
  - destruct (Hrec (key, value) (or_introl eq_refl) newRoot)
      as [e [cv [He [Hv Hcount]]]].
    simpl in He, Hv. rewrite He, Hv.
    destruct (IH (fun kv Hin => Hrec kv (or_intror Hin))
                 (t + item0 cv) (c + item1 cv) (append_child newRoot e))
      as [es [t' [c' [Hes [Hcov Hsum]]]]].
    exists (e :: es), t', c'. rewrite Hes, Hcov. split; [|split].
    + unfold append_child. simpl. rewrite <- app_assoc. reflexivity.
    + reflexivity.
    + unfold count_all in *. simpl. lia.
Qed.

Lemma no_open_type_field (c : Asn1Container) (fields : Fields)
  (kv : string * Asn1Container) :
  no_open_type c -> nested c = NDict fields -> In kv fields ->
  no_open_type (snd kv).
Proof.
  intros [c0 _ Hall] Hn Hin. rewrite Hn in Hall.
  inversion Hall as [|l Hl| | |]; subst.
  rewrite Forall_forall in Hl. apply Hl. exact Hin.
Qed.

Lemma no_open_type_child (c child : Asn1Container) :
  no_open_type c -> nested c = NNode child -> no_open_type child.
Proof.
  intros [c0 _ Hall] Hn. rewrite Hn in Hall.
  inversion Hall; subst. assumption.
Qed.

Lemma well_formed_field (c : Asn1Container) (fields : Fields)
  (kv : string * Asn1Container) :
  well_formed c -> nested c = NDict fields -> In kv fields ->
  well_formed (snd kv).
Proof.
  intros [c0 _ Hall] Hn Hin. rewrite Hn in Hall.
  inversion Hall as [|l Hl| | |]; subst.
  rewrite Forall_forall in Hl. apply Hl. exact Hin.
Qed.

Lemma well_formed_child (c child : Asn1Container) :
  well_formed c -> nested c = NNode child -> well_formed child.
Proof.
  intros [c0 _ Hall] Hn. rewrite Hn in Hall.
  inversion Hall; subst. assumption.
Qed.

(** X26.  On a tree without OPEN_TYPE node in which every SEQUENCE,
    CHOICE and ANY node holds its dict of nodes and every SEQUENCE OF
    node its element child, [feature_ide] and [coverage] both return,
    [feature_ide] adds exactly one element to the end of [root], and
    that element has as many feature leaves as [coverage] counts
    elements in total. *)
Theorem feature_ide_counts_coverage {D : Type} (self : Asn1Container)
  (root : Element) (name_dict : D) :
  no_open_type self ->
  well_formed self ->
  exists e cv,
    feature_ide self root name_dict = (Ok tt, append_child root e) /\
    coverage self = Ok cv /\
    count_features e = item0 cv.
Proof.
  revert root.
  induction self as [self IHf IHc] using container_ind.
  intros root Hno Hwf.
  assert (Hne : asn1_type self <> "OPEN_TYPE") by (destruct Hno; assumption).
  assert (Hch : has_children self) by (destruct Hwf; assumption).
  unfold has_children in Hch.
  rewrite feature_ide_unfold, (feature_kind_classify Hne), coverage_unfold.
  assert (Hdict : forall fields t,
            nested self = NDict fields ->
            (t =? "feature")%string = false ->
            exists e cv,
              (let '(r, newRoot') :=
                 feature_fields (fun value e0 => feature_ide value e0 name_dict)
                   fields
                   (mkElement t [("mandatory", mandatory self);
                                 ("name", unique_ident self)] []) in
               (r, append_child root newRoot')) = (Ok tt, append_child root e) /\
              omap (fun tc => PyList2 (fst tc) (snd tc))
                (coverage_fields coverage fields 0 0) = Ok cv /\
              count_features e = item0 cv).
  { intros fields t Hn Ht.
    destruct (@feature_fields_counts coverage
                (fun value e0 => feature_ide value e0 name_dict) fields)
      with (t := 0) (c := 0)
           (newRoot := mkElement t [("mandatory", mandatory self);
                                    ("name", unique_ident self)] [])
      as [es [t' [c' [Hes [Hcov Hsum]]]]].
    - intros kv Hin root'.
      eapply IHf; [exact Hn | exact Hin | |].
      + eapply no_open_type_field; eassumption.
      + eapply well_formed_field; eassumption.
    - rewrite Hes, Hcov. eexists. eexists.
      split; [reflexivity|]. split; [reflexivity|].
      cbn [tag attrib children app].
      rewrite count_features_element, Ht. simpl item0. lia. }
  destruct (classify (asn1_type self)) eqn:Hk;
    try (eexists; eexists; split; [reflexivity|]; split; reflexivity).
  - destruct Hch as [fields Hn]. rewrite Hn.
    apply Hdict; [exact Hn | reflexivity].
  - destruct Hch as [fields Hn]. rewrite Hn.
    apply Hdict; [exact Hn | reflexivity].
  - destruct Hch as [child Hn]. rewrite Hn.
    destruct (IHc child Hn
                (mkElement "and"
                   [("mandatory", mandatory self);
                    ("name", String.append "seq_" (unique_ident self))] [])
                (no_open_type_child Hno Hn) (well_formed_child Hwf Hn))
      as [e [cv [He [Hcov Hcount]]]].
    cbv beta zeta. rewrite He, Hcov. eexists. eexists.
    split; [reflexivity|]. split; [reflexivity|].
    unfold append_child. cbn [tag attrib children app].
    rewrite count_features_element. unfold count_all. cbn [fold_right].
    change ("and" =? "feature")%string with false. cbv iota. lia.
Qed.

Lemma feature_ide_counts_coverage_witness :
  exists e cv,
    feature_ide finite_choice (mkElement "struct" [] []) tt =
    (Ok tt, append_child (mkElement "struct" [] []) e) /\
    coverage finite_choice = Ok cv /\
    count_features e = item0 cv.
Proof.
  apply (@feature_ide_counts_coverage unit finite_choice
           (mkElement "struct" [] []) tt).
  - apply no_open_type_intro; [discriminate|].
    apply nested_all_dict.
    apply Forall_cons; [|apply Forall_cons; [|apply Forall_nil]].
    + apply no_open_type_intro; [discriminate | apply nested_all_none].
    + apply no_open_type_intro; [discriminate|].
      apply nested_all_node.
      apply no_open_type_intro; [discriminate | apply nested_all_none].
  - apply well_formed_intro.
    + exists [("none", null_node);
              ("flags", sequence_of_node boolean_node None)]. reflexivity.
    + apply nested_all_dict.
      apply Forall_cons; [|apply Forall_cons; [|apply Forall_nil]].
      * apply well_formed_intro; [exact I | apply nested_all_none].
      * apply well_formed_intro;
          [exists boolean_node; reflexivity|].
        apply nested_all_node.
        apply well_formed_intro; [exact I | apply nested_all_none].
Defined.

(** ** [apply_recursive_expansion] *)

Lemma expand_times_finite (n : nat) (self : Asn1Container) (h : IdentHistory) :
  finite self -> expand_times n self h = (Ok tt, self, h).
Proof.
  intros Hfin. induction n as [|n IH]; simpl; [reflexivity|].
  rewrite (expand_once_noop h Hfin). exact IH.
Qed.

(** X27.  For a schema object whose prototype contains no reachable
    EXPANDABLE node, [apply_recursive_expansion] returns that prototype
    unchanged, whatever the number of expansions asked for. *)
Theorem apply_recursive_expansion_finite (asn1_structure : Factory)
  (num_expansions : Z) :
  finite (fst (asn1_structure [])) ->
  apply_recursive_expansion asn1_structure num_expansions =
  Ok (fst (asn1_structure [])).
Proof.
  intros Hfin. unfold apply_recursive_expansion.
  destruct (asn1_structure []) as [proto h]. simpl in Hfin.
  rewrite (expand_times_finite (Z.to_nat num_expansions) h Hfin).
  rewrite (remove_expandable_finite Hfin). reflexivity.
Qed.

Lemma apply_recursive_expansion_finite_witness :
  apply_recursive_expansion finite_choice_structure 3 =
  Ok (fst (finite_choice_structure [])).
Proof.
  apply (@apply_recursive_expansion_finite finite_choice_structure 3).
  apply finite_dict with
    (fields := [("none", null_node);
                ("flags", sequence_of_node boolean_node None)]);
    [right; reflexivity | reflexivity|].
  apply Forall_cons; [|apply Forall_cons; [|apply Forall_nil]].
  - apply finite_leaf; simpl; discriminate.
  - apply finite_sequence_of with (child := boolean_node);
      [reflexivity | reflexivity|].
    apply finite_leaf; simpl; discriminate.
Defined.

(** ** [remove_expandable] raises nothing *)

Lemma dict_del_in {A : Type} (k : string) (d : list (string * A)) :
  In k (keys d) -> exists d', dict_del k d = Some d'.
Proof.
  induction d as [|[k0 v0] rest IH]; simpl; [intros []|].
  intros Hin. destruct (k0 =? k)%string eqn:He; [eexists; reflexivity|].
  destruct Hin as [Heq|Hin].
  - apply String.eqb_neq in He. contradiction.
  - destruct (IH Hin) as [d' ->]. eexists; reflexivity.
Qed.

Lemma dict_del_keys {A : Type} (k : string) (d d' : list (string * A)) :
  dict_del k d = Some d' ->
  forall k', In k' (keys d) -> k' <> k -> In k' (keys d').
Proof.
  revert d'. induction d as [|[k0 v0] rest IH]; simpl; intros d' Hdel;
    [discriminate|].
  destruct (k0 =? k)%string eqn:He.
  - injection Hdel as <-. apply String.eqb_eq in He. subst k0.
    intros k' [Heq|Hin] Hne; [congruence | exact Hin].
  - destruct (dict_del k rest) as [rest'|] eqn:Hr; [|discriminate].
    injection Hdel as <-. intros k' [Heq|Hin] Hne; simpl.
    + left. exact Heq.
    + right. apply (IH rest' eq_refl k' Hin Hne).
Qed.

(** Deleting distinct keys that are all in the dict raises no KeyError. *)
Lemma delete_keys_total (ks : list string) :
  forall d : Fields,
    NoDup ks -> NoDup (keys d) -> incl ks (keys d) ->
    exists d', delete_keys ks d = (Ok tt, d').
Proof.
  induction ks as [|k rest IH]; intros d Hks Hd Hincl; simpl.
  - eexists; reflexivity.
  - inversion Hks as [|x xs Hnotin Hrest]; subst.
    destruct (@dict_del_in _ k d (Hincl k (or_introl eq_refl))) as [d1 Hd1].
    rewrite Hd1. apply IH; [exact Hrest| |].
    + apply (@dict_del_spec _ k d d1 Hd Hd1).
    + intros k' Hk'. apply (@dict_del_keys _ k d d1 Hd1).
      * apply Hincl. right; exact Hk'.
      * intros ->. contradiction.
Qed.

Lemma prune_choice_total (rec : Asn1Container -> Outcome bool * Asn1Container)
  (fields : Fields) :
  NoDup (keys fields) ->
  (forall kv, In kv fields -> exists b c', rec (snd kv) = (Ok b, c')) ->
  forall acc, exists extra fields1,
    prune_choice rec fields acc = (Ok (acc ++ extra), fields1) /\
    keys fields1 = keys fields /\
    incl extra (keys fields) /\ NoDup extra.
Proof.
  induction fields as [|[key value] rest IH]; intros Hnd Hrec acc; simpl.
  - exists [], []. rewrite app_nil_r.
    repeat split; [intros x [] | constructor].
  - inversion Hnd as [|x xs Hnotin Hnd']; subst.
    destruct (Hrec (key, value) (or_introl eq_refl)) as [b [c' Hv]].
    simpl in Hv. rewrite Hv.
    assert (Hrec' : forall kv, In kv rest ->
                      exists b0 c0, rec (snd kv) = (Ok b0, c0))
      by (intros kv Hin; apply Hrec; right; exact Hin).
    destruct b.
    + destruct (IH Hnd' Hrec' acc) as [extra [fields1 [Hp [Hk [Hi Hn]]]]].
      rewrite Hp. exists extra, ((key, c') :: fields1).
      repeat split; simpl; [f_equal; exact Hk | | exact Hn].
      intros x Hx. right. apply Hi. exact Hx.
    + destruct (IH Hnd' Hrec' (acc ++ [key]))
        as [extra [fields1 [Hp [Hk [Hi Hn]]]]].
      rewrite Hp. exists (key :: extra), ((key, c') :: fields1).
      rewrite <- app_assoc. simpl.
      repeat split; [f_equal; exact Hk | |].
      * intros x [Hx|Hx]; [left; exact Hx | right; apply Hi; exact Hx].
      * constructor; [|exact Hn]. intros Hin. apply Hnotin. apply Hi. exact Hin.
Qed.

Lemma prune_sequence_total
  (rec : Asn1Container -> Outcome bool * Asn1Container) (fields : Fields) :
  NoDup (keys fields) ->
  (forall kv, In kv fields -> exists b c', rec (snd kv) = (Ok b, c')) ->
  forall acc res, exists extra result fields1,
    prune_sequence rec fields acc res = (Ok (acc ++ extra, result), fields1) /\
    keys fields1 = keys fields /\
    incl extra (keys fields) /\ NoDup extra.
Proof.
  induction fields as [|[key value] rest IH]; intros Hnd Hrec acc res; simpl.
  - exists [], res, []. rewrite app_nil_r.
    repeat split; [intros x [] | constructor].
  - inversion Hnd as [|x xs Hnotin Hnd']; subst.
    destruct (Hrec (key, value) (or_introl eq_refl)) as [b [c' Hv]].
    simpl in Hv. rewrite Hv.
    assert (Hrec' : forall kv, In kv rest ->
                      exists b0 c0, rec (snd kv) = (Ok b0, c0))
      by (intros kv Hin; apply Hrec; right; exact Hin).
    destruct b; [|destruct (optional c')].
    + destruct (IH Hnd' Hrec' acc res)
        as [extra [result [fields1 [Hp [Hk [Hi Hn]]]]]].
      rewrite Hp. exists extra, result, ((key, c') :: fields1).
      repeat split; simpl; [f_equal; exact Hk | | exact Hn].
      intros x Hx. right. apply Hi. exact Hx.
    + destruct (IH Hnd' Hrec' (acc ++ [key]) res)
        as [extra [result [fields1 [Hp [Hk [Hi Hn]]]]]].
      rewrite Hp. exists (key :: extra), result, ((key, c') :: fields1).
      rewrite <- app_assoc. simpl.
      repeat split; [f_equal; exact Hk | |].
      * intros x [Hx|Hx]; [left; exact Hx | right; apply Hi; exact Hx].
      * constructor; [|exact Hn]. intros Hin. apply Hnotin. apply Hi. exact Hin.
    + destruct (IH Hnd' Hrec' acc false)
        as [extra [result [fields1 [Hp [Hk [Hi Hn]]]]]].
      rewrite Hp. exists extra, result, ((key, c') :: fields1).
      repeat split; simpl; [f_equal; exact Hk | | exact Hn].
      intros x Hx. right. apply Hi. exact Hx.
Qed.

(** X28.  On a tree in which every SEQUENCE, CHOICE, OPEN_TYPE and ANY
    node holds its dict (with distinct keys) and every SEQUENCE OF node
    its element child, [remove_expandable] raises nothing: it returns
    true or false.  In particular no [del] meets a missing key. *)
Theorem remove_expandable_returns (self : Asn1Container) :
  distinct_keys self -> well_formed self ->
  exists (result : bool) (self' : Asn1Container),
    remove_expandable self = (Ok result, self').
Proof.
  induction self as [self IHf IHc] using container_ind.
  intros Hd Hwf. rewrite remove_expandable_unfold.
  assert (Hch : has_children self) by (destruct Hwf; assumption).
  unfold has_children in Hch.
  assert (Hrec : forall fields, nested self = NDict fields ->
            forall kv, In kv fields ->
              exists b c', remove_expandable (snd kv) = (Ok b, c')).
  { intros fields Hn kv Hin.
    eapply IHf; [exact Hn | exact Hin | |].
    - eapply distinct_keys_field; eassumption.
    - eapply well_formed_field; eassumption. }
  destruct (classify (asn1_type self)) eqn:Hk;
    try (eexists; eexists; reflexivity).
  - destruct Hch as [fields Hn]. rewrite Hn.
    assert (Hnd : NoDup (keys fields))
      by (eapply distinct_keys_dict; eassumption).
    destruct (@prune_sequence_total remove_expandable fields Hnd
                (Hrec fields Hn) [] true)
      as [extra [result [fields1 [Hp [Hkeys [Hi Hn']]]]]].
    rewrite Hp. simpl app.
    destruct (@delete_keys_total extra fields1 Hn') as [fields2 Hdel].
    + rewrite Hkeys. exact Hnd.
    + rewrite Hkeys. exact Hi.
    + rewrite Hdel. eexists; eexists; reflexivity.
  - destruct Hch as [fields Hn]. rewrite Hn.
    assert (Hnd : NoDup (keys fields))
      by (eapply distinct_keys_dict; eassumption).
    destruct (@prune_choice_total remove_expandable fields Hnd
                (Hrec fields Hn) [])
      as [extra [fields1 [Hp [Hkeys [Hi Hn']]]]].
    rewrite Hp. simpl app.
    destruct (@delete_keys_total extra fields1 Hn') as [fields2 Hdel].
    + rewrite Hkeys. exact Hnd.
    + rewrite Hkeys. exact Hi.
    + rewrite Hdel. eexists; eexists; reflexivity.
  - destruct Hch as [child Hn]. rewrite Hn.
    destruct (IHc child Hn) as [b [c' Hc]].
    + eapply distinct_keys_child; eassumption.
    + eapply well_formed_child; eassumption.
    + rewrite Hc. eexists; eexists; reflexivity.
Qed.

Lemma remove_expandable_returns_witness :
  exists (result : bool) (self' : Asn1Container),
    remove_expandable record_with_optional_placeholder = (Ok result, self').
Proof.
  apply (@remove_expandable_returns record_with_optional_placeholder).
  - exact record_with_optional_placeholder_distinct.
  - apply well_formed_intro.
    + exists [("count", integer_node (Some [Some 0; Some 8]));
              ("next", optional_expandable_node)]. reflexivity.
    + apply nested_all_dict.
      apply Forall_cons; [|apply Forall_cons; [|apply Forall_nil]].
      * apply well_formed_intro; [exact I | apply nested_all_none].
      * apply well_formed_intro; [exact I | apply nested_all_factory].
Defined.
